(** * Angular template compiler front end: scope binder and expression parser

    A shallow embedding of
    - [packages/compiler/src/render3/view/t2_binder.ts] (module [Binder]):
      the three passes of [R3TargetBinder.bind] and the query object
      [R3BoundTarget];
    - [packages/compiler/src/expression_parser/parser.ts] (module
      [ExprParser]): the [Parser] facade and the recursive-descent
      [_ParseAST].

    JavaScript objects that are used as [Map]/[Set] keys are compared by
    reference in the source.  Every such object carries an [id] here, which
    stands for its identity. *)

From Stdlib Require Import ZArith Ascii String Sorted.
From stdpp Require Import gmap strings list fin_maps pretty.

#[local] Set Warnings "-register-all".

(** ** Results of operations that may throw *)

Inductive Result (A : Type) : Type :=
| Ok (a : A)
| Throw (message : string).
Arguments Ok {A} a.
Arguments Throw {A} message.

Definition rbind {A B} (m : Result A) (f : A → Result B) : Result B :=
  match m with
  | Ok a => f a
  | Throw e => Throw e
  end.

(** [xs.forEach(f)] for a callback that updates a state, in order. *)
Definition forEach {A S} (f : A → S → S) (xs : list A) (s : S) : S :=
  foldl (λ s x, f x s) s xs.

(** The same for a callback that may throw: the first exception ends the
    iteration. *)
Fixpoint forEachR {A S} (f : A → S → Result S) (xs : list A) (s : S) : Result S :=
  match xs with
  | [] => Ok s
  | x :: xs => rbind (f x s) (forEachR f xs)
  end.

(** A JavaScript [Map] whose keys are objects, as an association list in
    insertion order; the key is the identity of the object. *)
Module JsMap.
Definition t (V : Type) : Type := list (nat * V).

Fixpoint get {V} (m : t V) (k : nat) : option V :=
  match m with
  | [] => None
  | (k', v) :: m => if decide (k' = k) then Some v else get m k
  end.

(** [set] replaces the value of a key that is present and keeps its
    position; a new key goes to the end. *)
Fixpoint set {V} (m : t V) (k : nat) (v : V) : t V :=
  match m with
  | [] => [(k, v)]
  | (k', v') :: m => if decide (k' = k) then (k, v) :: m else (k', v') :: set m k v
  end.

Definition values {V} (m : t V) : list V := m.*2.
End JsMap.

(** * The binder: [t2_binder.ts] *)

Module Binder.

(** ** Expressions, as the binder sees them

    Modelled from the spec: the classes of [expression_parser/ast.ts] are
    not part of the sources.  One constructor per AST variant of the data
    model; the node kinds that the binder uses as keys of
    [Map<AST, Reference|Variable>] carry their identity.  Spans play no
    part in binding and are left out.  [instanceof] is read per class:
    subclass relations between AST classes are not modelled. *)
Inductive AST : Type :=
| EmptyExpr
| ImplicitReceiver
| ThisReceiver
| Chain (expressions : list AST)
| Conditional (condition trueExp falseExp : AST)
| PropertyRead (id : nat) (receiver : AST) (name : string)
| PropertyWrite (id : nat) (receiver : AST) (name : string) (value : AST)
| SafePropertyRead (id : nat) (receiver : AST) (name : string)
| KeyedRead (receiver key : AST)
| SafeKeyedRead (receiver key : AST)
| KeyedWrite (receiver key value : AST)
| BindingPipe (exp : AST) (name : string) (args : list AST)
| LiteralPrimitive
| LiteralArray (expressions : list AST)
| LiteralMap (values : list AST)
| Interpolation (expressions : list AST)
| Binary (lhs rhs : AST)
| Unary (expr : AST)
| PrefixNot (expression : AST)
| NonNullAssert (expression : AST)
| Call (receiver : AST) (args : list AST)
| SafeCall (receiver : AST) (args : list AST)
| ASTWithSource (ast : AST).

(** Induction over expressions, with the hypothesis for the elements of
    every list of children. *)
Fixpoint AST_rect' (P : AST → Type) (Q : list AST → Type)
    (Hnil : Q []) (Hcons : ∀ a l, P a → Q l → Q (a :: l))
    (HEmpty : P EmptyExpr) (HImplicit : P ImplicitReceiver) (HThis : P ThisReceiver)
    (HChain : ∀ l, Q l → P (Chain l))
    (HCond : ∀ c t f, P c → P t → P f → P (Conditional c t f))
    (HRead : ∀ i r n, P r → P (PropertyRead i r n))
    (HWrite : ∀ i r n v, P r → P v → P (PropertyWrite i r n v))
    (HSafeRead : ∀ i r n, P r → P (SafePropertyRead i r n))
    (HKeyed : ∀ r k, P r → P k → P (KeyedRead r k))
    (HSafeKeyed : ∀ r k, P r → P k → P (SafeKeyedRead r k))
    (HKeyedWrite : ∀ r k v, P r → P k → P v → P (KeyedWrite r k v))
    (HPipe : ∀ e n l, P e → Q l → P (BindingPipe e n l))
    (HPrim : P LiteralPrimitive)
    (HArray : ∀ l, Q l → P (LiteralArray l))
    (HMap : ∀ l, Q l → P (LiteralMap l))
    (HInterp : ∀ l, Q l → P (Interpolation l))
    (HBinary : ∀ a b, P a → P b → P (Binary a b))
    (HUnary : ∀ a, P a → P (Unary a))
    (HNot : ∀ a, P a → P (PrefixNot a))
    (HNonNull : ∀ a, P a → P (NonNullAssert a))
    (HCall : ∀ r l, P r → Q l → P (Call r l))
    (HSafeCall : ∀ r l, P r → Q l → P (SafeCall r l))
    (HSource : ∀ a, P a → P (ASTWithSource a))
    (ast : AST) {struct ast} : P ast :=
  let rec := AST_rect' P Q Hnil Hcons HEmpty HImplicit HThis HChain HCond HRead HWrite
               HSafeRead HKeyed HSafeKeyed HKeyedWrite HPipe HPrim HArray HMap HInterp
               HBinary HUnary HNot HNonNull HCall HSafeCall HSource in
  let go := fix go (l : list AST) : Q l :=
    match l with
    | [] => Hnil
    | a :: l => Hcons a l (rec a) (go l)
    end in
  match ast with
  | EmptyExpr => HEmpty
  | ImplicitReceiver => HImplicit
  | ThisReceiver => HThis
  | Chain l => HChain l (go l)
  | Conditional c t f => HCond c t f (rec c) (rec t) (rec f)
  | PropertyRead i r n => HRead i r n (rec r)
  | PropertyWrite i r n v => HWrite i r n v (rec r) (rec v)
  | SafePropertyRead i r n => HSafeRead i r n (rec r)
  | KeyedRead r k => HKeyed r k (rec r) (rec k)
  | SafeKeyedRead r k => HSafeKeyed r k (rec r) (rec k)
  | KeyedWrite r k v => HKeyedWrite r k v (rec r) (rec k) (rec v)
  | BindingPipe e n l => HPipe e n l (rec e) (go l)
  | LiteralPrimitive => HPrim
  | LiteralArray l => HArray l (go l)
  | LiteralMap l => HMap l (go l)
  | Interpolation l => HInterp l (go l)
  | Binary a b => HBinary a b (rec a) (rec b)
  | Unary a => HUnary a (rec a)
  | PrefixNot a => HNot a (rec a)
  | NonNullAssert a => HNonNull a (rec a)
  | Call r l => HCall r l (rec r) (go l)
  | SafeCall r l => HSafeCall r l (rec r) (go l)
  | ASTWithSource a => HSource a (rec a)
  end.

(** The identity under which an expression node is a key of the
    expression-target map. *)
Definition astKey (ast : AST) : option nat :=
  match ast with
  | PropertyRead id _ _ | PropertyWrite id _ _ _ | SafePropertyRead id _ _ => Some id
  | _ => None
  end.

(** ** Template nodes

    Modelled from the spec: [render3/r3_ast.ts] is not part of the sources;
    the fields are the ones [t2_binder.ts] reads. *)
Record Reference := mkReference { ref_id : nat; ref_name : string; ref_value : string }.
Record Variable_ := mkVariable { var_id : nat; var_name : string; var_value : string }.

(** [Reference|Variable] *)
Inductive Entity := ERef (r : Reference) | EVar (v : Variable_).

Definition entityName (thing : Entity) : string :=
  match thing with
  | ERef r => ref_name r
  | EVar v => var_name v
  end.

#[global] Instance Reference_eq_dec : EqDecision Reference.
Proof. solve_decision. Defined.
#[global] Instance Variable_eq_dec : EqDecision Variable_.
Proof. solve_decision. Defined.
#[global] Instance Entity_eq_dec : EqDecision Entity.
Proof. solve_decision. Defined.

#[global] Instance Reference_countable : Countable Reference.
Proof.
  apply (inj_countable' (λ r, (ref_id r, ref_name r, ref_value r))
           (λ '(i, n, v), mkReference i n v)).
  by intros [].
Defined.
#[global] Instance Variable_countable : Countable Variable_.
Proof.
  apply (inj_countable' (λ r, (var_id r, var_name r, var_value r))
           (λ '(i, n, v), mkVariable i n v)).
  by intros [].
Defined.
#[global] Instance Entity_countable : Countable Entity.
Proof.
  apply (inj_countable' (λ e, match e with ERef r => inl r | EVar v => inr v end)
           (λ s, match s with inl r => ERef r | inr v => EVar v end)).
  by intros [].
Defined.

Record TextAttribute := mkTextAttribute { ta_id : nat; ta_name : string; ta_value : string }.
Record BoundAttribute := mkBoundAttribute { ba_id : nat; ba_name : string; ba_value : AST }.
Record BoundEvent := mkBoundEvent { be_id : nat; be_name : string; be_handler : AST }.
Record BoundText := mkBoundText { bt_value : AST }.

(** An entry of [Template.templateAttrs : (BoundAttribute|TextAttribute)[]]. *)
Inductive TemplateAttr := TABound (attr : BoundAttribute) | TAText (attr : TextAttribute).

(** A value of [Icu.placeholders : {[name]: Text|BoundText}]. *)
Inductive IcuPlaceholder := PHText (value : string) | PHBoundText (text : BoundText).

Record Element_ (N : Type) := mkElement {
  el_id : nat;
  el_name : string;
  el_attributes : list TextAttribute;
  el_inputs : list BoundAttribute;
  el_outputs : list BoundEvent;
  el_children : list N;
  el_references : list Reference;
}.
Record Template_ (N : Type) := mkTemplate {
  tpl_id : nat;
  tpl_tagName : string;
  tpl_attributes : list TextAttribute;
  tpl_inputs : list BoundAttribute;
  tpl_outputs : list BoundEvent;
  tpl_templateAttrs : list TemplateAttr;
  tpl_children : list N;
  tpl_references : list Reference;
  tpl_variables : list Variable_;
}.
Arguments mkElement {N}.
Arguments mkTemplate {N}.
Arguments el_id {N}.
Arguments el_name {N}.
Arguments el_attributes {N}.
Arguments el_inputs {N}.
Arguments el_outputs {N}.
Arguments el_children {N}.
Arguments el_references {N}.
Arguments tpl_id {N}.
Arguments tpl_tagName {N}.
Arguments tpl_attributes {N}.
Arguments tpl_inputs {N}.
Arguments tpl_outputs {N}.
Arguments tpl_templateAttrs {N}.
Arguments tpl_children {N}.
Arguments tpl_references {N}.
Arguments tpl_variables {N}.

Inductive Node : Type :=
| NElement (element : Element_ Node)
| NTemplate (template : Template_ Node)
| NContent (selector : string) (attributes : list TextAttribute)
| NText (value : string)
| NBoundText (text : BoundText)
| NIcu (vars : list (string * BoundText)) (placeholders : list (string * IcuPlaceholder)).

Abbreviation Element := (Element_ Node).
Abbreviation Template := (Template_ Node).

(** Induction over the node tree, with the hypothesis for all children. *)
Fixpoint Node_rect' (P : Node → Type) (Q : list Node → Type)
    (Hnil : Q []) (Hcons : ∀ n ns, P n → Q ns → Q (n :: ns))
    (HE : ∀ e, Q (el_children e) → P (NElement e))
    (HT : ∀ t, Q (tpl_children t) → P (NTemplate t))
    (HC : ∀ s a, P (NContent s a)) (HX : ∀ v, P (NText v))
    (HB : ∀ t, P (NBoundText t)) (HI : ∀ v p, P (NIcu v p))
    (n : Node) {struct n} : P n :=
  let go := fix go (ns : list Node) : Q ns :=
    match ns with
    | [] => Hnil
    | n :: ns => Hcons n ns (Node_rect' P Q Hnil Hcons HE HT HC HX HB HI n) (go ns)
    end in
  match n with
  | NElement e => HE e (go (el_children e))
  | NTemplate t => HT t (go (tpl_children t))
  | NContent s a => HC s a
  | NText v => HX v
  | NBoundText t => HB t
  | NIcu v p => HI v p
  end.

(** ** Directives

    Modelled from the spec: [DirectiveMeta] of [t2_api.ts] is not part of
    the sources.  [dir_inputs] and [dir_outputs] answer
    [hasBindingPropertyName]. *)
Record DirectiveMeta := mkDirective {
  dir_name : string;
  dir_isComponent : bool;
  dir_exportAs : option (list string);
  dir_inputs : string → bool;
  dir_outputs : string → bool;
}.

(** ** Pass 1: [Scope] *)

(** A [Scope] object.  The [parentScope] pointer is not a field: the
    functions that need it take the chain of enclosing scopes, innermost
    first, next to the scope itself. *)
Inductive Scope : Type := mkScope {
  namedEntities : gmap string Entity;
  childScopes : JsMap.t Scope;
  template : option Template;
}.

(** [new Scope(parentScope, template)] *)
Definition newScope (template : option Template) : Scope := mkScope ∅ [] template.

(** [Scope.newRootScope] *)
Definition newRootScope : Scope := newScope None.

(** [Scope.maybeDeclare] *)
Definition maybeDeclare (thing : Entity) (this : Scope) : Scope :=
  if decide (is_Some (namedEntities this !! entityName thing)) then this
  else mkScope (<[entityName thing := thing]> (namedEntities this))
               (childScopes this) (template this).

(** [Scope.visitVariable] and [Scope.visitReference] *)
Definition visitVariable (variable : Variable_) (this : Scope) : Scope :=
  maybeDeclare (EVar variable) this.
Definition visitReference (reference : Reference) (this : Scope) : Scope :=
  maybeDeclare (ERef reference) this.

(** [Scope.ingest], given the visitor for one node. *)
Definition ingestWith (visit : Node → Scope → Scope)
    (template : Template + list Node) (this : Scope) : Scope :=
  match template with
  | inl template =>
      let this := forEach visitVariable (tpl_variables template) this in
      forEach visit (tpl_children template) this
  | inr template => forEach visit template this
  end.

(** [node.visit(scope)]: [Scope.visitElement], [Scope.visitTemplate] and
    the unused visitors. *)
Fixpoint visit (node : Node) (this : Scope) {struct node} : Scope :=
  match node with
  | NElement element =>
      let this := forEach visitReference (el_references element) this in
      forEach visit (el_children element) this
  | NTemplate template =>
      let this := forEach visitReference (tpl_references template) this in
      let scope := newScope (Some template) in
      let scope := ingestWith visit (inl template) scope in
      mkScope (namedEntities this)
              (JsMap.set (childScopes this) (tpl_id template) scope)
              (Binder.template this)
  | _ => this
  end.

Definition ingest : Template + list Node → Scope → Scope := ingestWith visit.

(** [Scope.apply] *)
Definition Scope_apply (template : list Node) : Scope :=
  ingest (inr template) newRootScope.

(** [Scope.lookup]: [this] is the scope, [parentScope] the chain above it
    (empty for the root scope, whose [parentScope] is [null]). *)
Fixpoint lookup (name : string) (this : Scope) (parentScope : list Scope) : option Entity :=
  match namedEntities this !! name with
  | Some thing => Some thing
  | None =>
      match parentScope with
      | parent :: grandparents => lookup name parent grandparents
      | [] => None
      end
  end.

(** [Scope.getChildScope] *)
Definition getChildScope (this : Scope) (template : Template) : Result Scope :=
  match JsMap.get (childScopes this) (tpl_id template) with
  | Some res => Ok res
  | None => Throw "Assertion error: child scope not found"
  end.

(** ** [extractTemplateEntities] *)

(** The key of a scope in the maps indexed by [Template|null]. *)
Definition scopeKey (scope : Scope) : option nat := tpl_id <$> template scope.

Fixpoint Scope_size (scope : Scope) : nat :=
  S (foldr (λ child acc, Scope_size child.2 + acc) 0 (childScopes scope)).

(** The inner function [extractScopeEntities].  [new Map([...parent,
    ...current])] keeps, for a name present in both, the entry of
    [current]: the left-biased union of the two maps. *)
Fixpoint extractScopeEntities (scope : Scope) (parentScope : list Scope)
    (entityMap : gmap (option nat) (gmap string Entity))
    : gmap string Entity * gmap (option nat) (gmap string Entity) :=
  match entityMap !! scopeKey scope with
  | Some templateEntities => (templateEntities, entityMap)
  | None =>
      let currentEntities := namedEntities scope in
      let '(templateEntities, entityMap) :=
        match parentScope with
        | parent :: grandparents =>
            let '(parentEntities, entityMap) :=
              extractScopeEntities parent grandparents entityMap in
            (currentEntities ∪ parentEntities, entityMap)
        | [] => (currentEntities, entityMap)
        end in
      (templateEntities, <[scopeKey scope := templateEntities]> entityMap)
  end.

(** The [while (scopesToProcess.length > 0)] loop.  The array is kept with
    its last element first, so [pop] takes the head and the children, pushed
    in order, end up reversed in front.  Each entry is a scope with its
    chain of parents.  [fuel] bounds the number of iterations; what is left
    of the array is returned with the map. *)
Fixpoint processScopes (fuel : nat) (scopesToProcess : list (Scope * list Scope))
    (entityMap : gmap (option nat) (gmap string Entity))
    : list (Scope * list Scope) * gmap (option nat) (gmap string Entity) :=
  match fuel with
  | O => (scopesToProcess, entityMap)
  | S fuel =>
      match scopesToProcess with
      | [] => ([], entityMap)
      | (scope, parents) :: scopesToProcess =>
          let pushed := (λ childScope, (childScope, scope :: parents))
                          <$> JsMap.values (childScopes scope) in
          let scopesToProcess := rev pushed ++ scopesToProcess in
          let entityMap := (extractScopeEntities scope parents entityMap).2 in
          processScopes fuel scopesToProcess entityMap
      end
  end.

(** One iteration per scope of the tree, and one more to see the array
    empty. *)
Definition extractTemplateEntities (rootScope : Scope)
    : gmap (option nat) (gset Entity) :=
  let entityMap := (processScopes (S (Scope_size rootScope)) [(rootScope, [])] ∅).2 in
  (λ entities : gmap string Entity, map_img entities) <$> entityMap.

(** ** Pass 2: [DirectiveBinder] *)

(** [Element|Template] *)
Definition nodeKey (node : Element + Template) : nat + nat :=
  match node with
  | inl element => inl (el_id element)
  | inr template => inr (tpl_id template)
  end.

(** [BoundAttribute|BoundEvent|TextAttribute] *)
Inductive BoundNode :=
| BNAttribute (attr : BoundAttribute)
| BNEvent (event : BoundEvent)
| BNText (attr : TextAttribute).

Definition boundNodeKey (node : BoundNode) : nat + nat + nat :=
  match node with
  | BNAttribute attr => inl (inl (ba_id attr))
  | BNEvent event => inl (inr (be_id event))
  | BNText attr => inr (ta_id attr)
  end.

Definition boundNodeName (node : BoundNode) : string :=
  match node with
  | BNAttribute attr => ba_name attr
  | BNEvent event => be_name event
  | BNText attr => ta_name attr
  end.

(** [DirectiveT|Element|Template] *)
Inductive Consumer :=
| CDirective (dir : DirectiveMeta)
| CNode (node : Element + Template).

(** [{directive: DirectiveT, node: Element|Template}|Element|Template] *)
Inductive ReferenceTarget :=
| RTDirective (directive : DirectiveMeta) (node : Element + Template)
| RTNode (node : Element + Template).

Record DirectiveBinder := mkDirectiveBinder {
  db_directives : gmap (nat + nat) (list DirectiveMeta);
  db_bindings : gmap (nat + nat + nat) Consumer;
  db_references : gmap Reference ReferenceTarget;
}.

Definition node_references (node : Element + Template) : list Reference :=
  match node with inl e => el_references e | inr t => tpl_references t end.
Definition node_inputs (node : Element + Template) : list BoundAttribute :=
  match node with inl e => el_inputs e | inr t => tpl_inputs t end.
Definition node_outputs (node : Element + Template) : list BoundEvent :=
  match node with inl e => el_outputs e | inr t => tpl_outputs t end.
Definition node_attributes (node : Element + Template) : list TextAttribute :=
  match node with inl e => el_attributes e | inr t => tpl_attributes t end.
Definition node_children (node : Element + Template) : list Node :=
  match node with inl e => el_children e | inr t => tpl_children t end.

(** White space of [String.prototype.trim], for ASCII text. *)
Definition isWhitespace (c : ascii) : bool :=
  let n := nat_of_ascii c in
  bool_decide (n = 32 ∨ (9 ≤ n ∧ n ≤ 13)).

Fixpoint trimStart (s : string) : string :=
  match s with
  | String c s' => if isWhitespace c then trimStart s' else s
  | EmptyString => EmptyString
  end.

Definition trim (s : string) : string :=
  String.rev (trimStart (String.rev (trimStart s))).

(** The callback of [node.references.forEach] in [visitElementOrTemplate]. *)
Definition resolveReference (directives : list DirectiveMeta) (node : Element + Template)
    (ref : Reference) (this : DirectiveBinder) : DirectiveBinder :=
  let setRef target :=
    mkDirectiveBinder (db_directives this) (db_bindings this)
                      (<[ref := target]> (db_references this)) in
  if decide (trim (ref_value ref) = EmptyString) then
    match List.find dir_isComponent directives with
    | Some dirTarget => setRef (RTDirective dirTarget node)
    | None => setRef (RTNode node)
    end
  else
    match List.find (λ dir, match dir_exportAs dir with
                            | Some exportAs => existsb (String.eqb (ref_value ref)) exportAs
                            | None => false
                            end) directives with
    | Some dirTarget => setRef (RTDirective dirTarget node)
    | None => this
    end.

(** The local function [setAttributeBinding]; [ioType] selects [inputs]
    or [outputs]. *)
Definition setAttributeBinding (directives : list DirectiveMeta) (node : Element + Template)
    (ioType : DirectiveMeta → string → bool) (attribute : BoundNode)
    (this : DirectiveBinder) : DirectiveBinder :=
  let binding :=
    match List.find (λ dir, ioType dir (boundNodeName attribute)) directives with
    | Some dir => CDirective dir
    | None => CNode node
    end in
  mkDirectiveBinder (db_directives this)
                    (<[boundNodeKey attribute := binding]> (db_bindings this))
                    (db_references this).

Definition templateAttrNode (attr : TemplateAttr) : BoundNode :=
  match attr with
  | TABound a => BNAttribute a
  | TAText a => BNText a
  end.

Section DirectiveBinder.
(** [matcher elementName node] stands for the directives that
    [this.matcher.match] reports for the selector
    [createCssSelector(elementName, getAttrsForDirectiveMatching(node))],
    in the order of the callbacks; the selector machinery is not part of
    the sources. *)
Variable matcher : string → Element + Template → list DirectiveMeta.

(** [visitElementOrTemplate] up to the recursion into the children. *)
Definition visitElementOrTemplateHead (elementName : string) (node : Element + Template)
    (this : DirectiveBinder) : DirectiveBinder :=
  let directives := matcher elementName node in
  let this :=
    if decide (0 < length directives) then
      mkDirectiveBinder (<[nodeKey node := directives]> (db_directives this))
                        (db_bindings this) (db_references this)
    else this in
  let this := forEach (resolveReference directives node) (node_references node) this in
  let this := forEach (λ input, setAttributeBinding directives node dir_inputs (BNAttribute input))
                      (node_inputs node) this in
  let this := forEach (λ attr, setAttributeBinding directives node dir_inputs (BNText attr))
                      (node_attributes node) this in
  let this :=
    match node with
    | inr template =>
        forEach (λ attr, setAttributeBinding directives node dir_inputs (templateAttrNode attr))
                (tpl_templateAttrs template) this
    | inl _ => this
    end in
  forEach (λ output, setAttributeBinding directives node dir_outputs (BNEvent output))
          (node_outputs node) this.

(** [node.visit(directiveBinder)] *)
Fixpoint DirectiveBinder_visit (node : Node) (this : DirectiveBinder) {struct node}
    : DirectiveBinder :=
  match node with
  | NElement element =>
      let this := visitElementOrTemplateHead (el_name element) (inl element) this in
      forEach DirectiveBinder_visit (el_children element) this
  | NTemplate template =>
      let this := visitElementOrTemplateHead "ng-template" (inr template) this in
      forEach DirectiveBinder_visit (tpl_children template) this
  | _ => this
  end.

(** [DirectiveBinder.apply] *)
Definition DirectiveBinder_apply (template : list Node) : DirectiveBinder :=
  forEach DirectiveBinder_visit template (mkDirectiveBinder ∅ ∅ ∅).
End DirectiveBinder.

(** ** Pass 3: [TemplateBinder] *)

(** The four collections that all [TemplateBinder] instances of one
    [applyWithScope] share and update. *)
Record Bindings := mkBindings {
  tb_bindings : gmap nat Entity;
  tb_symbols : gmap Entity Template;
  tb_usedPipes : gset string;
  tb_nestingLevel : gmap nat nat;
}.

(** The fields of one [TemplateBinder] instance: its scope (with the chain
    of parents of that scope), its template and its level. *)
Record TemplateBinder := mkTemplateBinder {
  tb_scope : Scope;
  tb_parents : list Scope;
  tb_template : option Template;
  tb_level : nat;
}.

(** [TemplateBinder.maybeMap] *)
Definition maybeMap (this : TemplateBinder) (ast : AST) (receiver : AST) (name : string)
    (maps : Bindings) : Bindings :=
  match receiver with
  | ImplicitReceiver =>
      match lookup name (tb_scope this) (tb_parents this), astKey ast with
      | Some target, Some key =>
          mkBindings (<[key := target]> (tb_bindings maps)) (tb_symbols maps)
                     (tb_usedPipes maps) (tb_nestingLevel maps)
      | _, _ => maps
      end
  | _ => maps
  end.

(** [ast.visit(templateBinder)].

    Modelled from the spec: [RecursiveAstVisitor] of [ast.ts] is not part of
    the sources; it visits every child expression of a node.  The overrides
    [visitPipe], [visitPropertyRead], [visitSafePropertyRead] and
    [visitPropertyWrite] are those of [TemplateBinder]: they act on the node
    and then continue with the children. *)
Fixpoint visitAST (this : TemplateBinder) (ast : AST) (maps : Bindings) {struct ast}
    : Bindings :=
  let visitAll := forEach (visitAST this) in
  match ast with
  | EmptyExpr | ImplicitReceiver | ThisReceiver | LiteralPrimitive => maps
  | Chain expressions => visitAll expressions maps
  | Conditional condition trueExp falseExp =>
      let maps := visitAST this condition maps in
      let maps := visitAST this trueExp maps in
      visitAST this falseExp maps
  | PropertyRead _ receiver name =>
      let maps := maybeMap this ast receiver name maps in
      visitAST this receiver maps
  | PropertyWrite _ receiver name value =>
      let maps := maybeMap this ast receiver name maps in
      let maps := visitAST this receiver maps in
      visitAST this value maps
  | SafePropertyRead _ receiver name =>
      let maps := maybeMap this ast receiver name maps in
      visitAST this receiver maps
  | KeyedRead receiver key | SafeKeyedRead receiver key =>
      let maps := visitAST this receiver maps in
      visitAST this key maps
  | KeyedWrite receiver key value =>
      let maps := visitAST this receiver maps in
      let maps := visitAST this key maps in
      visitAST this value maps
  | BindingPipe exp name args =>
      let maps := mkBindings (tb_bindings maps) (tb_symbols maps)
                             ({[name]} ∪ tb_usedPipes maps) (tb_nestingLevel maps) in
      let maps := visitAST this exp maps in
      visitAll args maps
  | LiteralArray expressions => visitAll expressions maps
  | LiteralMap values => visitAll values maps
  | Interpolation expressions => visitAll expressions maps
  | Binary lhs rhs =>
      let maps := visitAST this lhs maps in
      visitAST this rhs maps
  | Unary expr => visitAST this expr maps
  | PrefixNot expression => visitAST this expression maps
  | NonNullAssert expression => visitAST this expression maps
  | Call receiver args | SafeCall receiver args =>
      let maps := visitAST this receiver maps in
      visitAll args maps
  | ASTWithSource ast => visitAST this ast maps
  end.

(** [TemplateBinder.visitVariable] and [TemplateBinder.visitReference] *)
Definition registerSymbol (this : TemplateBinder) (symbol : Entity) (maps : Bindings)
    : Bindings :=
  match tb_template this with
  | Some template =>
      mkBindings (tb_bindings maps) (<[symbol := template]> (tb_symbols maps))
                 (tb_usedPipes maps) (tb_nestingLevel maps)
  | None => maps
  end.

Definition TemplateBinder_visitVariable (this : TemplateBinder) (variable : Variable_) :=
  registerSymbol this (EVar variable).
Definition TemplateBinder_visitReference (this : TemplateBinder) (reference : Reference) :=
  registerSymbol this (ERef reference).

Definition visitBoundAttribute (this : TemplateBinder) (attribute : BoundAttribute) :=
  visitAST this (ba_value attribute).
Definition visitBoundEvent (this : TemplateBinder) (event : BoundEvent) :=
  visitAST this (be_handler event).
Definition visitBoundText (this : TemplateBinder) (text : BoundText) :=
  visitAST this (bt_value text).

(** [attr.visit(this)] for an entry of [templateAttrs]; [visitTextAttribute]
    does nothing. *)
Definition visitTemplateAttr (this : TemplateBinder) (attr : TemplateAttr) (maps : Bindings)
    : Bindings :=
  match attr with
  | TABound attribute => visitBoundAttribute this attribute maps
  | TAText _ => maps
  end.

(** [TemplateBinder.visitIcu] *)
Definition visitIcu (this : TemplateBinder) (vars : list (string * BoundText))
    (placeholders : list (string * IcuPlaceholder)) (maps : Bindings) : Bindings :=
  let maps := forEach (λ var, visitBoundText this var.2) vars maps in
  forEach (λ placeholder, match placeholder.2 with
                          | PHBoundText text => visitBoundText this text
                          | PHText _ => λ maps, maps
                          end) placeholders maps.

(** [TemplateBinder.ingest], given the closure [visitNode] of a binder. *)
Definition TemplateBinder_ingestWith
    (visitNode : TemplateBinder → Node → Bindings → Result Bindings)
    (this : TemplateBinder) (template : Template + list Node) (maps : Bindings)
    : Result Bindings :=
  match template with
  | inl template =>
      let maps := forEach (TemplateBinder_visitVariable this) (tpl_variables template) maps in
      rbind (forEachR (visitNode this) (tpl_children template) maps) (λ maps,
      Ok (mkBindings (tb_bindings maps) (tb_symbols maps) (tb_usedPipes maps)
                     (<[tpl_id template := tb_level this]> (tb_nestingLevel maps))))
  | inr template => forEachR (visitNode this) template maps
  end.

(** [node.visit(templateBinder)]: [visitElement], [visitTemplate] and the
    other template visitors. *)
Fixpoint visitNode (this : TemplateBinder) (node : Node) (maps : Bindings) {struct node}
    : Result Bindings :=
  match node with
  | NElement element =>
      let maps := forEach (visitBoundAttribute this) (el_inputs element) maps in
      let maps := forEach (visitBoundEvent this) (el_outputs element) maps in
      forEachR (visitNode this) (el_children element) maps
  | NTemplate template =>
      let maps := forEach (visitBoundAttribute this) (tpl_inputs template) maps in
      let maps := forEach (visitBoundEvent this) (tpl_outputs template) maps in
      let maps := forEach (visitTemplateAttr this) (tpl_templateAttrs template) maps in
      let maps := forEach (TemplateBinder_visitReference this) (tpl_references template) maps in
      rbind (getChildScope (tb_scope this) template) (λ childScope,
      let binder := mkTemplateBinder childScope (tb_scope this :: tb_parents this)
                                     (Some template) (tb_level this + 1) in
      TemplateBinder_ingestWith visitNode binder (inl template) maps)
  | NContent _ _ => Ok maps
  | NText _ => Ok maps
  | NBoundText text => Ok (visitBoundText this text maps)
  | NIcu vars placeholders => Ok (visitIcu this vars placeholders maps)
  end.

Definition TemplateBinder_ingest := TemplateBinder_ingestWith visitNode.

(** [TemplateBinder.applyWithScope].  The argument is a [Node[]], never a
    [Template], so the root binder has [template = null]. *)
Definition applyWithScope (template : list Node) (scope : Scope) : Result Bindings :=
  let binder := mkTemplateBinder scope [] None 0 in
  TemplateBinder_ingest binder (inr template) (mkBindings ∅ ∅ ∅ ∅).

(** ** [R3BoundTarget] and [R3TargetBinder] *)

Record Target := mkTarget { target_template : option (list Node) }.

Record R3BoundTarget := mkR3BoundTarget {
  bt_target : Target;
  bt_directives : gmap (nat + nat) (list DirectiveMeta);
  bt_bindings : gmap (nat + nat + nat) Consumer;
  bt_references : gmap Reference ReferenceTarget;
  bt_exprTargets : gmap nat Entity;
  bt_symbols : gmap Entity Template;
  bt_nestingLevel : gmap nat nat;
  bt_templateEntities : gmap (option nat) (gset Entity);
  bt_usedPipes : gset string;
}.

Definition getEntitiesInTemplateScope (this : R3BoundTarget) (template : option Template)
    : gset Entity :=
  default ∅ (bt_templateEntities this !! (tpl_id <$> template)).

Definition getDirectivesOfNode (this : R3BoundTarget) (node : Element + Template)
    : option (list DirectiveMeta) :=
  bt_directives this !! nodeKey node.

Definition getReferenceTarget (this : R3BoundTarget) (ref : Reference)
    : option ReferenceTarget :=
  bt_references this !! ref.

Definition getConsumerOfBinding (this : R3BoundTarget) (binding : BoundNode)
    : option Consumer :=
  bt_bindings this !! boundNodeKey binding.

Definition getExpressionTarget (this : R3BoundTarget) (expr : AST) : option Entity :=
  astKey expr ≫= λ key, bt_exprTargets this !! key.

Definition getTemplateOfSymbol (this : R3BoundTarget) (symbol : Entity) : option Template :=
  bt_symbols this !! symbol.

(** [this.nestingLevel.get(template) || 0] *)
Definition getNestingLevel (this : R3BoundTarget) (template : Template) : nat :=
  default 0 (bt_nestingLevel this !! tpl_id template).

Definition getUsedPipes (this : R3BoundTarget) : list string :=
  elements (bt_usedPipes this).

(** [new R3TargetBinder(directiveMatcher)] *)
Record R3TargetBinder := mkR3TargetBinder {
  directiveMatcher : string → Element + Template → list DirectiveMeta;
}.

(** [R3TargetBinder.bind] *)
Definition bind (this : R3TargetBinder) (target : Target) : Result R3BoundTarget :=
  match target_template target with
  | None => Throw "Binding without a template not yet supported"
  | Some template =>
      let scope := Scope_apply template in
      let templateEntities := extractTemplateEntities scope in
      let db := DirectiveBinder_apply (directiveMatcher this) template in
      rbind (applyWithScope template scope) (λ tb,
      Ok (mkR3BoundTarget target (db_directives db) (db_bindings db) (db_references db)
            (tb_bindings tb) (tb_symbols tb) (tb_nestingLevel tb)
            templateEntities (tb_usedPipes tb)))
  end.

(** ** Vocabulary of the statements *)

(** All [Template] nodes of a subtree, outermost first. *)
Fixpoint templatesOf (node : Node) : list Template :=
  match node with
  | NElement element => flat_map templatesOf (el_children element)
  | NTemplate template => template :: flat_map templatesOf (tpl_children template)
  | _ => []
  end.

(** The [Template] nodes of a subtree that are not inside another
    [Template] of it: those that pass 1 and pass 3 meet in one scope. *)
Fixpoint directTemplates (node : Node) : list Template :=
  match node with
  | NElement element => flat_map directTemplates (el_children element)
  | NTemplate template => [template]
  | _ => []
  end.

(** The child scope that [Scope.visitTemplate] builds for a template. *)
Definition childScopeOf (template : Template) : Scope :=
  ingest (inl template) (newScope (Some template)).

(** Identities are those of objects: two [Template] nodes of the forest
    with the same identity are the same node. *)
Definition consistentIds (nodes : list Node) : Prop :=
  ∀ t1 t2 : Template,
    t1 ∈ flat_map templatesOf nodes → t2 ∈ flat_map templatesOf nodes →
    tpl_id t1 = tpl_id t2 → t1 = t2.

(** A target is well formed when the identities of its template, if it
    has one, are consistent. *)
Definition wellFormed (target : Target) : Prop :=
  match target_template target with
  | Some template => consistentIds template
  | None => True
  end.

(** The same for a list of [Template] nodes. *)
Definition consistentList (templates : list Template) : Prop :=
  ∀ t1 t2, t1 ∈ templates → t2 ∈ templates → tpl_id t1 = tpl_id t2 → t1 = t2.

(** The [Template] nodes of the forest are distinct objects. *)
Definition distinctTemplates (nodes : list Node) : Prop :=
  NoDup (tpl_id <$> flat_map templatesOf nodes).

(** The child scopes that a sequence of templates leaves in a scope. *)
Definition setChildScopes (m : JsMap.t Scope) (templates : list Template) : JsMap.t Scope :=
  foldl (λ m t, JsMap.set m (tpl_id t) (childScopeOf t)) m templates.

(** Every nesting level on record is at least 1. *)
Definition levelsPositive (maps : Bindings) : Prop :=
  ∀ id level, tb_nestingLevel maps !! id = Some level → 1 ≤ level.

(** What a scope with its chain of parents sees: its own declarations
    and, for the names it does not declare, what its parent sees. *)
Fixpoint mergedEntities (scope : Scope) (parentScope : list Scope) : gmap string Entity :=
  match parentScope with
  | [] => namedEntities scope
  | parent :: grandparents => namedEntities scope ∪ mergedEntities parent grandparents
  end.

(** The scopes of the tree below a scope, each with its chain of parents,
    the scope itself first. *)
Fixpoint allScopes (scope : Scope) (parentScope : list Scope) : list (Scope * list Scope) :=
  (scope, parentScope)
  :: flat_map (λ child, allScopes child.2 (scope :: parentScope)) (childScopes scope).

(** The scopes that the loop of [extractTemplateEntities] still has to
    process when its array holds [scopesToProcess], and the key of one of
    them in the entity map. *)
Definition itemsOf (scopesToProcess : list (Scope * list Scope)) : list (Scope * list Scope) :=
  flat_map (λ item, allScopes item.1 item.2) scopesToProcess.

Definition itemKey (item : Scope * list Scope) : option nat := scopeKey item.1.

(** A map of entities binds each of them under its own name. *)
Definition keyed (entities : gmap string Entity) : Prop :=
  ∀ name e, entities !! name = Some e → entityName e = name.

(** ** The templates, hosts and bindings of a tree *)

(** The [Template] nodes of a subtree, each with the number of [Template]
    nodes around it, itself included, when [level] of them are around the
    subtree. *)
Fixpoint templateDepths (level : nat) (node : Node) : list (Template * nat) :=
  match node with
  | NElement element => flat_map (templateDepths level) (el_children element)
  | NTemplate template =>
      (template, level + 1) :: flat_map (templateDepths (level + 1)) (tpl_children template)
  | _ => []
  end.

(** The elements and templates of a subtree, outermost first. *)
Fixpoint hostsOf (node : Node) : list (Element + Template) :=
  match node with
  | NElement element => inl element :: flat_map hostsOf (el_children element)
  | NTemplate template => inr template :: flat_map hostsOf (tpl_children template)
  | _ => []
  end.

(** The name under which pass 2 matches directives on a node. *)
Definition hostName (host : Element + Template) : string :=
  match host with
  | inl element => el_name element
  | inr _ => "ng-template"
  end.

(** The inputs, attributes and outputs of a node that pass 2 binds. *)
Definition boundNodesOf (host : Element + Template) : list BoundNode :=
  (BNAttribute <$> node_inputs host) ++ (BNText <$> node_attributes host)
  ++ match host with
     | inr template => templateAttrNode <$> tpl_templateAttrs template
     | inl _ => []
     end
  ++ (BNEvent <$> node_outputs host).

(** What pass 3 over a node leaves in the map of levels. *)
Definition levelsRecorded (level : nat) (node : Node) (maps maps' : Bindings) : Prop :=
  (NoDup (tpl_id <$> templatesOf node) →
   ∀ t d, (t, d) ∈ templateDepths level node →
          tb_nestingLevel maps' !! tpl_id t = Some d) ∧
  (∀ id, id ∉ tpl_id <$> templatesOf node →
         tb_nestingLevel maps' !! id = tb_nestingLevel maps !! id).

(** The targets on record are resolved by a scope of the tree. *)
Definition targetsResolved (root : Scope) (maps : Bindings) : Prop :=
  ∀ key e, tb_bindings maps !! key = Some e →
           ∃ scope parents, (scope, parents) ∈ allScopes root []
                            ∧ lookup (entityName e) scope parents = Some e.

(** The symbols on record are declared where the record says. *)
Definition symbolsDeclared (templates : list Template) (maps : Bindings) : Prop :=
  (∀ v t, tb_symbols maps !! EVar v = Some t → t ∈ templates ∧ v ∈ tpl_variables t) ∧
  (∀ r t, tb_symbols maps !! ERef r = Some t →
          t ∈ templates ∧
          ∃ t', t' ∈ flat_map directTemplates (tpl_children t) ∧ r ∈ tpl_references t').

(** The target of a reference on a node, as [visitElementOrTemplate]
    chooses it among the directives matched on the node. *)
Definition resolved (directives : list DirectiveMeta) (host : Element + Template)
    (ref : Reference) (target : ReferenceTarget) : Prop :=
  match target with
  | RTNode node =>
      node = host ∧ trim (ref_value ref) = EmptyString
      ∧ ∀ dir, dir ∈ directives → dir_isComponent dir = false
  | RTDirective dir node =>
      node = host ∧ dir ∈ directives ∧
      if decide (trim (ref_value ref) = EmptyString) then dir_isComponent dir = true
      else ∃ exportAs, dir_exportAs dir = Some exportAs ∧ ref_value ref ∈ exportAs
  end.

(** ** Example templates *)

Definition noDirectives : R3TargetBinder := mkR3TargetBinder (λ _ _, []).

(** [<ng-template><ng-template><ng-template></ng-template></ng-template></ng-template>] *)
Definition innermostTemplate : Template := mkTemplate 3 "ng-template" [] [] [] [] [] [] [].
Definition middleTemplate : Template :=
  mkTemplate 2 "ng-template" [] [] [] [] [NTemplate innermostTemplate] [] [].
Definition outermostTemplate : Template :=
  mkTemplate 1 "ng-template" [] [] [] [] [NTemplate middleTemplate] [] [].
Definition threeLevels : Target := mkTarget (Some [NTemplate outermostTemplate]).

(** [<div *ngFor="let item of items"><span *ngFor="let item of other">{{item}}</span></div>]
    as the template parser hands it to the binder: each [*ngFor] is a
    [Template] around its element, with the [let item] variable and the
    [ngForOf] input among its template attributes. *)
Definition innerItemRead : AST := PropertyRead 102 ImplicitReceiver "item".
Definition innerItem : Variable_ := mkVariable 21 "item" "$implicit".
Definition outerItem : Variable_ := mkVariable 11 "item" "$implicit".
Definition innerFor : Template :=
  mkTemplate 3 "span" [] [] []
    [TAText (mkTextAttribute 22 "ngFor" EmptyString);
     TABound (mkBoundAttribute 23 "ngForOf"
                (ASTWithSource (PropertyRead 101 ImplicitReceiver "other")))]
    [NElement (mkElement 4 "span" [] [] []
                 [NBoundText (mkBoundText (ASTWithSource (Interpolation [innerItemRead])))]
                 [])]
    [] [innerItem].
Definition outerFor : Template :=
  mkTemplate 1 "div" [] [] []
    [TAText (mkTextAttribute 12 "ngFor" EmptyString);
     TABound (mkBoundAttribute 13 "ngForOf"
                (ASTWithSource (PropertyRead 100 ImplicitReceiver "items")))]
    [NElement (mkElement 2 "div" [] [] [] [NTemplate innerFor] [])]
    [] [outerItem].
Definition nestedFor : Target := mkTarget (Some [NTemplate outerFor]).

(** [<input #box>] with a component matched on it. *)
Definition boxReference : Reference := mkReference 31 "box" EmptyString.
Definition boxElement : Element :=
  mkElement 30 "input" [] [] [] [] [boxReference].
Definition boxComponent : DirectiveMeta :=
  mkDirective "BoxComponent" true None (λ _, false) (λ _, false).

End Binder.

(** * The expression parser: [expression_parser/parser.ts] *)

Module ExprParser.
#[local] Open Scope Z_scope.

(** ** JavaScript strings

    Strings are sequences of 8-bit characters: the embedding covers ASCII
    text, where a UTF-16 code unit is a character. *)

Definition jsLength (s : string) : Z := Z.of_nat (String.length s).

(** [s.substring(start, end)]: both indices are clamped to the string and
    swapped when out of order. *)
Definition substring (s : string) (start end_ : Z) : string :=
  let clamp x := Z.max 0 (Z.min x (jsLength s)) in
  let lo := Z.min (clamp start) (clamp end_) in
  let hi := Z.max (clamp start) (clamp end_) in
  String.substring (Z.to_nat lo) (Z.to_nat (hi - lo)) s.

(** [s.substring(start)] *)
Definition substringFrom (s : string) (start : Z) : string :=
  substring s start (jsLength s).

(** [s.startsWith(searchString, position)] *)
Definition startsWith (s searchString : string) (position : Z) : bool :=
  String.prefix searchString (substringFrom s position).

(** [s.indexOf(searchString, fromIndex)] *)
Definition indexOf (s searchString : string) (fromIndex : Z) : Z :=
  let from := Z.max 0 (Z.min fromIndex (jsLength s)) in
  match String.index (Z.to_nat from) searchString s with
  | Some i => Z.of_nat i
  | None => -1
  end.

Definition charCodes (s : string) : list Z :=
  (λ c, Z.of_nat (nat_of_ascii c)) <$> list_ascii_of_string s.

(** [String.fromCharCode(code)] *)
Definition fromCharCode (code : Z) : string :=
  String (ascii_of_nat (Z.to_nat code)) EmptyString.

(** [s.charAt(0).toUpperCase() + s.substring(1)] on ASCII text. *)
Definition toUpperCaseChar (c : ascii) : ascii :=
  let n := nat_of_ascii c in
  if bool_decide (97 ≤ n ∧ n ≤ 122)%nat then ascii_of_nat (n - 32) else c.

Definition capitalize (s : string) : string :=
  match s with
  | String c rest => String (toUpperCaseChar c) rest
  | EmptyString => EmptyString
  end.

(** [parts.join(separator)] *)
Fixpoint join (separator : string) (parts : list string) : string :=
  match parts with
  | [] => EmptyString
  | [part] => part
  | part :: parts => part +:+ separator +:+ join separator parts
  end.

(** ** Character codes

    Modelled from the spec: [chars.ts] is not part of the sources; the
    constants are the character codes of the symbols they name, and a quote
    is one of the three quote characters. *)
Module chars.
Definition LPAREN : Z := 40.
Definition RPAREN : Z := 41.
Definition COMMA : Z := 44.
Definition PERIOD : Z := 46.
Definition SLASH : Z := 47.
Definition COLON : Z := 58.
Definition SEMICOLON : Z := 59.
Definition LBRACKET : Z := 91.
Definition BACKSLASH : Z := 92.
Definition RBRACKET : Z := 93.
Definition LBRACE : Z := 123.
Definition RBRACE : Z := 125.
Definition SQ : Z := 39.
Definition DQ : Z := 34.
Definition BT : Z := 96.
Definition isQuote (code : Z) : bool :=
  (code =? SQ) || (code =? DQ) || (code =? BT).
End chars.

(** ** Tokens

    Modelled from the spec: [lexer.ts] is not part of the sources.  A token
    has a type and a position ([tok_index] to [tok_end] in the lexed text);
    [numValue] holds the code of a [Character] token or the value of a
    [Number] token, [strValue] the text of the others.  Numbers are
    integers here.  Positions of the tokens of a lexer are not negative;
    the end-of-input token [EOF] alone sits at -1. *)
Module TokenType.
Inductive t := Character | Identifier | PrivateIdentifier | Keyword | String | Operator
             | Number | Error.
#[global] Instance eq_dec : EqDecision t.
Proof. solve_decision. Defined.
End TokenType.

Record Token := mkToken {
  tok_index : Z;
  tok_end : Z;
  tok_type : TokenType.t;
  numValue : Z;
  strValue : string;
}.

#[global] Instance Token_eq_dec : EqDecision Token.
Proof. solve_decision. Defined.

Definition EOF : Token := mkToken (-1) (-1) TokenType.Character 0 EmptyString.

Definition isType (type : TokenType.t) (tok : Token) : bool :=
  bool_decide (tok_type tok = type).

Definition isCharacter (tok : Token) (code : Z) : bool :=
  isType TokenType.Character tok && (numValue tok =? code).
Definition isNumber : Token → bool := isType TokenType.Number.
Definition isString : Token → bool := isType TokenType.String.
Definition isOperator (tok : Token) (operator : string) : bool :=
  isType TokenType.Operator tok && String.eqb (strValue tok) operator.
Definition isIdentifier : Token → bool := isType TokenType.Identifier.
Definition isPrivateIdentifier : Token → bool := isType TokenType.PrivateIdentifier.
Definition isKeyword : Token → bool := isType TokenType.Keyword.
Definition isKeywordNamed (name : string) (tok : Token) : bool :=
  isType TokenType.Keyword tok && String.eqb (strValue tok) name.
Definition isKeywordLet : Token → bool := isKeywordNamed "let".
Definition isKeywordAs : Token → bool := isKeywordNamed "as".
Definition isKeywordNull : Token → bool := isKeywordNamed "null".
Definition isKeywordUndefined : Token → bool := isKeywordNamed "undefined".
Definition isKeywordTrue : Token → bool := isKeywordNamed "true".
Definition isKeywordFalse : Token → bool := isKeywordNamed "false".
Definition isKeywordThis : Token → bool := isKeywordNamed "this".
Definition isError : Token → bool := isType TokenType.Error.

Definition toNumber (tok : Token) : Z :=
  if isNumber tok then numValue tok else -1.

(** [Token.toString], also what [`${token}`] prints. *)
Definition Token_toString (tok : Token) : string :=
  match tok_type tok with
  | TokenType.Number => pretty (numValue tok)
  | _ => strValue tok
  end.

Record Lexer := mkLexer { tokenize : string → list Token }.

(** ** The AST

    Modelled from the spec: [ast.ts] is not part of the sources.  One
    constructor per variant of the data model, each with its relative
    [span], its absolute [sourceSpan] and the children the parser gives it.
    The [errors] field of [ASTWithSource] and of the parse results is a
    reference to the error array of the [Parser]; it is read through the
    [Parser], not stored in the value. *)
Record ParseSpan := mkParseSpan { span_start : Z; span_end : Z }.
Record AbsoluteSourceSpan := mkAbsoluteSourceSpan { abs_start : Z; abs_end : Z }.

(** [ParseSpan.toAbsolute] *)
Definition toAbsolute (span : ParseSpan) (absoluteOffset : Z) : AbsoluteSourceSpan :=
  mkAbsoluteSourceSpan (absoluteOffset + span_start span) (absoluteOffset + span_end span).

Record ParserError := mkParserError {
  message : string;
  err_input : string;
  errLocation : string;
  ctxLocation : option string;
}.

Inductive LiteralValue :=
| LitNull
| LitUndefined
| LitBoolean (b : bool)
| LitNumber (n : Z)
| LitString (s : string).

Record LiteralMapKey := mkLiteralMapKey { key : string; quoted : bool }.

Inductive AST : Type :=
| EmptyExpr (span : ParseSpan) (sourceSpan : AbsoluteSourceSpan)
| ImplicitReceiver (span : ParseSpan) (sourceSpan : AbsoluteSourceSpan)
| ThisReceiver (span : ParseSpan) (sourceSpan : AbsoluteSourceSpan)
| Chain (span : ParseSpan) (sourceSpan : AbsoluteSourceSpan) (expressions : list AST)
| Conditional (span : ParseSpan) (sourceSpan : AbsoluteSourceSpan)
    (condition trueExp falseExp : AST)
| PropertyRead (span : ParseSpan) (sourceSpan nameSpan : AbsoluteSourceSpan)
    (receiver : AST) (name : string)
| PropertyWrite (span : ParseSpan) (sourceSpan nameSpan : AbsoluteSourceSpan)
    (receiver : AST) (name : string) (value : AST)
| SafePropertyRead (span : ParseSpan) (sourceSpan nameSpan : AbsoluteSourceSpan)
    (receiver : AST) (name : string)
| KeyedRead (span : ParseSpan) (sourceSpan : AbsoluteSourceSpan) (receiver key : AST)
| SafeKeyedRead (span : ParseSpan) (sourceSpan : AbsoluteSourceSpan) (receiver key : AST)
| KeyedWrite (span : ParseSpan) (sourceSpan : AbsoluteSourceSpan) (receiver key value : AST)
| BindingPipe (span : ParseSpan) (sourceSpan : AbsoluteSourceSpan) (exp : AST)
    (name : string) (args : list AST) (nameSpan : AbsoluteSourceSpan)
| LiteralPrimitive (span : ParseSpan) (sourceSpan : AbsoluteSourceSpan) (value : LiteralValue)
| LiteralArray (span : ParseSpan) (sourceSpan : AbsoluteSourceSpan) (expressions : list AST)
| LiteralMap (span : ParseSpan) (sourceSpan : AbsoluteSourceSpan)
    (keys : list LiteralMapKey) (values : list AST)
| Binary (span : ParseSpan) (sourceSpan : AbsoluteSourceSpan) (operation : string)
    (lhs rhs : AST)
| Unary (span : ParseSpan) (sourceSpan : AbsoluteSourceSpan) (operator : string) (expr : AST)
| PrefixNot (span : ParseSpan) (sourceSpan : AbsoluteSourceSpan) (expression : AST)
| NonNullAssert (span : ParseSpan) (sourceSpan : AbsoluteSourceSpan) (expression : AST)
| Call (span : ParseSpan) (sourceSpan : AbsoluteSourceSpan) (receiver : AST)
    (args : list AST) (argumentSpan : AbsoluteSourceSpan)
| SafeCall (span : ParseSpan) (sourceSpan : AbsoluteSourceSpan) (receiver : AST)
    (args : list AST) (argumentSpan : AbsoluteSourceSpan)
| ASTWithSource (ast : AST) (source : option string) (location : string)
    (absoluteOffset : Z).

(** [ast.span]; an [ASTWithSource] spans its source text. *)
Definition AST_span (ast : AST) : ParseSpan :=
  match ast with
  | EmptyExpr span _ | ImplicitReceiver span _ | ThisReceiver span _ | Chain span _ _
  | Conditional span _ _ _ _ | PropertyRead span _ _ _ _ | PropertyWrite span _ _ _ _ _
  | SafePropertyRead span _ _ _ _ | KeyedRead span _ _ _ | SafeKeyedRead span _ _ _
  | KeyedWrite span _ _ _ _ | BindingPipe span _ _ _ _ _ | LiteralPrimitive span _ _
  | LiteralArray span _ _ | LiteralMap span _ _ _ | Binary span _ _ _ _ | Unary span _ _ _
  | PrefixNot span _ _ | NonNullAssert span _ _ | Call span _ _ _ _ | SafeCall span _ _ _ _ =>
      span
  | ASTWithSource _ source _ _ =>
      mkParseSpan 0 (match source with Some text => jsLength text | None => 0 end)
  end.

(** [ast instanceof EmptyExpr] *)
Definition isEmptyExpr (ast : AST) : bool :=
  match ast with
  | EmptyExpr _ _ => true
  | _ => false
  end.

Record TemplateBindingIdentifier := mkTemplateBindingIdentifier {
  tbi_source : string;
  tbi_span : AbsoluteSourceSpan;
}.

(** [TemplateBinding = VariableBinding | ExpressionBinding] *)
Inductive TemplateBinding :=
| VariableBinding (sourceSpan : AbsoluteSourceSpan) (key : TemplateBindingIdentifier)
    (value : option TemplateBindingIdentifier)
| ExpressionBinding (sourceSpan : AbsoluteSourceSpan) (key : TemplateBindingIdentifier)
    (value : option AST).

Record TemplateBindingParseResult := mkTemplateBindingParseResult {
  templateBindings : list TemplateBinding;
  warnings : list string;
}.

Module ParseFlags.
Definition None : Z := 0.
Definition Action : Z := Z.shiftl 1 0.
Definition AssignmentEvent : Z := Z.shiftl 1 1.
End ParseFlags.

Module ParseContextFlags.
Definition None : Z := 0.
Definition Writable : Z := 1.
End ParseContextFlags.

(** [flags & flag] as a condition *)
Definition hasFlag (flags flag : Z) : bool := negb (Z.land flags flag =? 0).

(** ** [_ParseAST]: the state of one parse *)

Record _ParseAST := mk_ParseAST {
  input : string;
  location : string;
  absoluteOffset : Z;
  tokens : list Token;
  parseFlags : Z;
  errors : list ParserError;
  offset : Z;
  rparensExpected : Z;
  rbracketsExpected : Z;
  rbracesExpected : Z;
  context : Z;
  sourceSpanCache : gmap (Z * Z * option Z) AbsoluteSourceSpan;
  index : nat;
}.

(** [new _ParseAST(input, location, absoluteOffset, tokens, parseFlags, errors, offset)] *)
Definition new_ParseAST (input location : string) (absoluteOffset : Z) (tokens : list Token)
    (parseFlags : Z) (errors : list ParserError) (offset : Z) : _ParseAST :=
  mk_ParseAST input location absoluteOffset tokens parseFlags errors offset
              0 0 0 ParseContextFlags.None ∅ 0%nat.

Definition setErrors (v : list ParserError) (this : _ParseAST) : _ParseAST :=
  mk_ParseAST (input this) (location this) (absoluteOffset this) (tokens this)
    (parseFlags this) v (offset this) (rparensExpected this) (rbracketsExpected this)
    (rbracesExpected this) (context this) (sourceSpanCache this) (index this).
Definition setRparensExpected (v : Z) (this : _ParseAST) : _ParseAST :=
  mk_ParseAST (input this) (location this) (absoluteOffset this) (tokens this)
    (parseFlags this) (errors this) (offset this) v (rbracketsExpected this)
    (rbracesExpected this) (context this) (sourceSpanCache this) (index this).
Definition setRbracketsExpected (v : Z) (this : _ParseAST) : _ParseAST :=
  mk_ParseAST (input this) (location this) (absoluteOffset this) (tokens this)
    (parseFlags this) (errors this) (offset this) (rparensExpected this) v
    (rbracesExpected this) (context this) (sourceSpanCache this) (index this).
Definition setRbracesExpected (v : Z) (this : _ParseAST) : _ParseAST :=
  mk_ParseAST (input this) (location this) (absoluteOffset this) (tokens this)
    (parseFlags this) (errors this) (offset this) (rparensExpected this)
    (rbracketsExpected this) v (context this) (sourceSpanCache this) (index this).
Definition setContext (v : Z) (this : _ParseAST) : _ParseAST :=
  mk_ParseAST (input this) (location this) (absoluteOffset this) (tokens this)
    (parseFlags this) (errors this) (offset this) (rparensExpected this)
    (rbracketsExpected this) (rbracesExpected this) v (sourceSpanCache this) (index this).
Definition setSourceSpanCache (v : gmap (Z * Z * option Z) AbsoluteSourceSpan)
    (this : _ParseAST) : _ParseAST :=
  mk_ParseAST (input this) (location this) (absoluteOffset this) (tokens this)
    (parseFlags this) (errors this) (offset this) (rparensExpected this)
    (rbracketsExpected this) (rbracesExpected this) (context this) v (index this).
Definition setIndex (v : nat) (this : _ParseAST) : _ParseAST :=
  mk_ParseAST (input this) (location this) (absoluteOffset this) (tokens this)
    (parseFlags this) (errors this) (offset this) (rparensExpected this)
    (rbracketsExpected this) (rbracesExpected this) (context this) (sourceSpanCache this) v.

(** [_ParseAST.peek].  The source calls it with a negative offset only
    when [index > 0], so the position is never negative. *)
Definition peek (this : _ParseAST) (offset : Z) : Token :=
  let i := Z.of_nat (index this) + offset in
  if i <? Z.of_nat (length (tokens this)) then nth (Z.to_nat i) (tokens this) EOF else EOF.

(** The getters [next], [atEOF], [currentEndIndex], [inputIndex] and
    [currentAbsoluteOffset]. *)
Definition next (this : _ParseAST) : Token := peek this 0.

Definition atEOF (this : _ParseAST) : bool :=
  bool_decide (length (tokens this) ≤ index this)%nat.

Definition currentEndIndex (this : _ParseAST) : Z :=
  if bool_decide (0 < index this)%nat then tok_end (peek this (-1)) + offset this
  else if bool_decide (length (tokens this) = 0%nat) then jsLength (input this) + offset this
  else tok_index (next this) + offset this.

Definition inputIndex (this : _ParseAST) : Z :=
  if atEOF this then currentEndIndex this else tok_index (next this) + offset this.

Definition currentAbsoluteOffset (this : _ParseAST) : Z :=
  absoluteOffset this + inputIndex this.

(** [_ParseAST.span] *)
Definition span (this : _ParseAST) (start : Z) (artificialEndIndex : option Z) : ParseSpan :=
  let endIndex := currentEndIndex this in
  let endIndex :=
    match artificialEndIndex with
    | Some artificialEndIndex =>
        if artificialEndIndex >? currentEndIndex this then artificialEndIndex else endIndex
    | None => endIndex
    end in
  if start >? endIndex then mkParseSpan endIndex start else mkParseSpan start endIndex.

(** [_ParseAST.locationText].  [index] is the position of a token; [null]
    stands for the current one.  The tokens of a lexer and the spans built
    from them are not negative, so neither is [index]. *)
Definition locationText (this : _ParseAST) (index : option Z) : string :=
  let index := default (Z.of_nat (ExprParser.index this)) index in
  if index <? Z.of_nat (length (tokens this))
  then "at column " +:+ pretty (tok_index (nth (Z.to_nat index) (tokens this) EOF) + 1) +:+ " in"
  else "at the end of the expression".

(** [_ParseAST.prettyPrintToken]; [tok === EOF] compares with the one
    end-of-input token, which no token of a lexer equals. *)
Definition prettyPrintToken (tok : Token) : string :=
  if decide (tok = EOF) then "end of input" else "token " +:+ Token_toString tok.

(** The condition of the loop of [_ParseAST.skip]. *)
Definition skipping (this : _ParseAST) : bool :=
  let n := next this in
  bool_decide (index this < length (tokens this))%nat
  && negb (isCharacter n chars.SEMICOLON)
  && negb (isOperator n "|")
  && ((rparensExpected this <=? 0) || negb (isCharacter n chars.RPAREN))
  && ((rbracesExpected this <=? 0) || negb (isCharacter n chars.RBRACE))
  && ((rbracketsExpected this <=? 0) || negb (isCharacter n chars.RBRACKET))
  && (negb (hasFlag (context this) ParseContextFlags.Writable) || negb (isOperator n "=")).

(** ** The parser monad

    A method of [_ParseAST] is a function from the state of the object to
    its result and the new state.  [None] is the answer of a run that was
    given too little fuel; the source has no such outcome. *)
Definition M (A : Type) : Type := _ParseAST → option (A * _ParseAST).

Definition ret {A} (a : A) : M A := λ this, Some (a, this).

Definition bind {A B} (m : M A) (k : A → M B) : M B :=
  λ this, match m this with
          | Some (a, this) => k a this
          | None => None
          end.

Definition gets {A} (f : _ParseAST → A) : M A := λ this, Some (f this, this).

Definition modify (f : _ParseAST → _ParseAST) : M unit := λ this, Some (tt, f this).

Definition outOfFuel {A} : M A := λ _, None.

Declare Scope parser_scope.
Delimit Scope parser_scope with parser.
Notation "x ← y ; z" := (bind y (λ x, z))
  (at level 20, y at level 100, z at level 200, only parsing) : parser_scope.
Notation "' x ← y ; z" := (bind y (λ x, z))
  (at level 20, x pattern, y at level 100, z at level 200, only parsing) : parser_scope.
Notation "y ;; z" := (bind y (λ _, z))
  (at level 100, z at level 200, only parsing, right associativity) : parser_scope.
#[local] Open Scope parser_scope.

(** [this.errors.push(error)] *)
Definition pushError (error : ParserError) : M unit :=
  modify (λ this, setErrors (errors this ++ [error]) this).

(** [_ParseAST.advance] *)
Definition advance : M unit := modify (λ this, setIndex (S (index this)) this).

(** [_ParseAST.sourceSpan], with its cache keyed by the three numbers of
    the serial string. *)
Definition sourceSpan (start : Z) (artificialEndIndex : option Z) : M AbsoluteSourceSpan :=
  serial ← gets (λ this, (start, inputIndex this, artificialEndIndex));
  cached ← gets (λ this, sourceSpanCache this !! serial);
  match cached with
  | Some sourceSpan => ret sourceSpan
  | None =>
      sourceSpan ← gets (λ this, toAbsolute (span this start artificialEndIndex)
                                            (absoluteOffset this));
      modify (λ this, setSourceSpanCache (<[serial := sourceSpan]> (sourceSpanCache this))
                                         this);;
      ret sourceSpan
  end.

(** [this.span(start)] followed by [this.sourceSpan(start)], the first two
    arguments of most AST constructors. *)
Definition spans (start : Z) : M (ParseSpan * AbsoluteSourceSpan) :=
  span ← gets (λ this, span this start None);
  sourceSpan ← sourceSpan start None;
  ret (span, sourceSpan).

(** [_ParseAST.withContext] *)
Definition withContext {T} (context : Z) (cb : M T) : M T :=
  modify (λ this, setContext (Z.lor (ExprParser.context this) context) this);;
  ret_ ← cb;
  modify (λ this, setContext (Z.lxor (ExprParser.context this) context) this);;
  ret ret_.

(** The loop of [_ParseAST.skip].  Every iteration advances over a token
    that exists, so the loop makes at most as many iterations as there are
    tokens left; [n] is that number. *)
Fixpoint skipLoop (n : nat) : M unit :=
  match n with
  | O => ret tt
  | S n =>
      continue ← gets skipping;
      if continue : bool then
        isErr ← gets (λ this, isError (next this));
        (if isErr : bool then
           error ← gets (λ this, mkParserError (Token_toString (next this)) (input this)
                                   (locationText this None) (Some (location this)));
           pushError error
         else ret tt);;
        advance;;
        skipLoop n
      else ret tt
  end.

(** [_ParseAST.skip] *)
Definition skip : M unit :=
  n ← gets (λ this, length (tokens this) - index this)%nat;
  skipLoop n.

(** [_ParseAST.error] *)
Definition error (message : string) (index : option Z) : M unit :=
  error ← gets (λ this, mkParserError message (input this) (locationText this index)
                          (Some (location this)));
  pushError error;;
  skip.

(** [_ParseAST._reportErrorForPrivateIdentifier] *)
Definition _reportErrorForPrivateIdentifier (token : Token) (extraMessage : option string)
    : M unit :=
  let errorMessage :=
    "Private identifiers are not supported. Unexpected private identifier: "
    +:+ Token_toString token in
  let errorMessage :=
    match extraMessage with
    | Some extraMessage => errorMessage +:+ ", " +:+ extraMessage
    | None => errorMessage
    end in
  error errorMessage None.

(** [_ParseAST.consumeOptionalCharacter] *)
Definition consumeOptionalCharacter (code : Z) : M bool :=
  n ← gets next;
  if isCharacter n code then advance;; ret true else ret false.

Definition peekKeywordLet : M bool := gets (λ this, isKeywordLet (next this)).
Definition peekKeywordAs : M bool := gets (λ this, isKeywordAs (next this)).

(** [_ParseAST.expectCharacter] *)
Definition expectCharacter (code : Z) : M unit :=
  consumed ← consumeOptionalCharacter code;
  if consumed : bool then ret tt
  else error ("Missing expected " +:+ fromCharCode code) None.

(** [_ParseAST.consumeOptionalOperator] *)
Definition consumeOptionalOperator (op : string) : M bool :=
  n ← gets next;
  if isOperator n op then advance;; ret true else ret false.

(** [_ParseAST.expectOperator] *)
Definition expectOperator (operator : string) : M unit :=
  consumed ← consumeOptionalOperator operator;
  if consumed : bool then ret tt
  else error ("Missing expected operator " +:+ operator) None.

(** [_ParseAST.expectIdentifierOrKeyword] *)
Definition expectIdentifierOrKeyword : M (option string) :=
  n ← gets next;
  if negb (isIdentifier n) && negb (isKeyword n) then
    (if isPrivateIdentifier n then
       _reportErrorForPrivateIdentifier n (Some "expected identifier or keyword")
     else
       error ("Unexpected " +:+ prettyPrintToken n +:+ ", expected identifier or keyword")
             None);;
    ret None
  else
    advance;;
    ret (Some (Token_toString n)).

(** [_ParseAST.expectIdentifierOrKeywordOrString] *)
Definition expectIdentifierOrKeywordOrString : M string :=
  n ← gets next;
  if negb (isIdentifier n) && negb (isKeyword n) && negb (isString n) then
    (if isPrivateIdentifier n then
       _reportErrorForPrivateIdentifier n (Some "expected identifier, keyword or string")
     else
       error ("Unexpected " +:+ prettyPrintToken n
              +:+ ", expected identifier, keyword, or string") None);;
    ret EmptyString
  else
    advance;;
    ret (Token_toString n).

(** [_ParseAST.consumeOptionalAssignment] *)
Definition consumeOptionalAssignment : M bool :=
  special ← gets (λ this, hasFlag (parseFlags this) ParseFlags.AssignmentEvent
                          && isOperator (next this) "!"
                          && isOperator (peek this 1) "=");
  if special : bool then
    advance;;
    advance;;
    ret true
  else consumeOptionalOperator "=".

(** [while (this.consumeOptionalCharacter(code)) {}], bounded like the
    loop of [skip]. *)
Fixpoint consumeAll (n : nat) (code : Z) : M unit :=
  match n with
  | O => ret tt
  | S n =>
      consumed ← consumeOptionalCharacter code;
      if consumed : bool then consumeAll n code else ret tt
  end.

(** ** The productions of the grammar

    The methods of [_ParseAST] that parse expressions call each other
    recursively, and not on smaller arguments: each is written here
    against [rec], which stands for "call that method", and [run] below
    ties the knot with a fuel counter.  A [while] or [do]-[while] loop of
    a method that calls back into the grammar is a production of its own,
    named after the method, whose arguments are the local variables that
    the loop reads and updates. *)
Inductive Production : Type → Type :=
| CParseChain : Production AST
| CParseChainLoop (exprs : list AST) : Production (list AST)
| CParsePipe : Production AST
| CParsePipeLoop (start : Z) (result : AST) : Production AST
| CParsePipeArgs (args : list AST) : Production (list AST)
| CParseExpression : Production AST
| CParseConditional : Production AST
| CParseLogicalOr : Production AST
| CParseLogicalOrLoop (start : Z) (result : AST) : Production AST
| CParseLogicalAnd : Production AST
| CParseLogicalAndLoop (start : Z) (result : AST) : Production AST
| CParseNullishCoalescing : Production AST
| CParseNullishCoalescingLoop (start : Z) (result : AST) : Production AST
| CParseEquality : Production AST
| CParseEqualityLoop (start : Z) (result : AST) : Production AST
| CParseRelational : Production AST
| CParseRelationalLoop (start : Z) (result : AST) : Production AST
| CParseAdditive : Production AST
| CParseAdditiveLoop (start : Z) (result : AST) : Production AST
| CParseMultiplicative : Production AST
| CParseMultiplicativeLoop (start : Z) (result : AST) : Production AST
| CParsePrefix : Production AST
| CParseCallChain : Production AST
| CParseCallChainLoop (start : Z) (result : AST) : Production AST
| CParsePrimary : Production AST
| CParseExpressionList (terminator : Z) : Production (list AST)
| CParseExpressionListLoop (terminator : Z) (result : list AST) : Production (list AST)
| CParseLiteralMap : Production AST
| CParseLiteralMapLoop (keys : list LiteralMapKey) (values : list AST)
    : Production (list LiteralMapKey * list AST)
| CParseAccessMember (readReceiver : AST) (start : Z) (isSafe : bool) : Production AST
| CParseCall (receiver : AST) (start : Z) (isSafe : bool) : Production AST
| CParseCallArguments : Production (list AST)
| CParseCallArgumentsLoop (positionals : list AST) : Production (list AST)
| CParseKeyedReadOrWrite (receiver : AST) (start : Z) (isSafe : bool) : Production AST.

Definition Rec : Type := ∀ A, Production A → M A.

Section Productions.
Variable rec : Rec.

(** The [while] loop of [parseChain].  Where the source goes back to the
    loop test with [index >= tokens.length], the loop ends. *)
Definition parseChainLoop (exprs : list AST) : M (list AST) :=
  more ← gets (λ this, bool_decide (index this < length (tokens this))%nat);
  if more : bool then
    expr ← rec _ CParsePipe;
    let exprs := exprs ++ [expr] in
    semicolon ← consumeOptionalCharacter chars.SEMICOLON;
    if semicolon : bool then
      action ← gets (λ this, hasFlag (parseFlags this) ParseFlags.Action);
      (if action : bool then ret tt
       else error "Binding expression cannot contain chained expression" None);;
      n ← gets (λ this, length (tokens this) - index this)%nat;
      consumeAll n chars.SEMICOLON;;
      rec _ (CParseChainLoop exprs)
    else
      more ← gets (λ this, bool_decide (index this < length (tokens this))%nat);
      if more : bool then
        errorIndex ← gets index;
        unexpected ← gets (λ this, Token_toString (next this));
        error ("Unexpected token '" +:+ unexpected +:+ "'") None;;
        index ← gets index;
        if decide (index = errorIndex) then ret exprs
        else rec _ (CParseChainLoop exprs)
      else ret exprs
  else ret exprs.

(** [_ParseAST.parseChain] *)
Definition parseChain : M AST :=
  start ← gets inputIndex;
  exprs ← rec _ (CParseChainLoop []);
  match exprs with
  | [] =>
      artificialStart ← gets offset;
      artificialEnd ← gets (λ this, offset this + jsLength (input this));
      span ← gets (λ this, span this artificialStart (Some artificialEnd));
      sourceSpan ← sourceSpan artificialStart (Some artificialEnd);
      ret (EmptyExpr span sourceSpan)
  | [expr] => ret expr
  | _ =>
      '(span, sourceSpan) ← spans start;
      ret (Chain span sourceSpan exprs)
  end.

(** The [while (this.consumeOptionalCharacter(chars.$COLON))] loop of
    [parsePipe]. *)
Definition parsePipeArgs (args : list AST) : M (list AST) :=
  colon ← consumeOptionalCharacter chars.COLON;
  if colon : bool then
    arg ← rec _ CParseExpression;
    rec _ (CParsePipeArgs (args ++ [arg]))
  else ret args.

(** The [do]-[while] loop of [parsePipe], entered after a [|]. *)
Definition parsePipeLoop (start : Z) (result : AST) : M AST :=
  nameStart ← gets inputIndex;
  nameId ← expectIdentifierOrKeyword;
  '(nameId, nameSpan, fullSpanEnd) ←
    match nameId with
    | Some nameId =>
        nameSpan ← sourceSpan nameStart None;
        ret (nameId, nameSpan, None)
    | None =>
        fullSpanEnd ← gets (λ this,
          if decide (tok_index (next this) ≠ -1) then tok_index (next this)
          else jsLength (input this) + offset this);
        nameSpan ← gets (λ this, toAbsolute (mkParseSpan fullSpanEnd fullSpanEnd)
                                            (absoluteOffset this));
        ret (EmptyString, nameSpan, Some fullSpanEnd)
    end;
  args ← rec _ (CParsePipeArgs []);
  span ← gets (λ this, span this start None);
  sourceSpan ← sourceSpan start fullSpanEnd;
  let result := BindingPipe span sourceSpan result nameId args nameSpan in
  pipe ← consumeOptionalOperator "|";
  if pipe : bool then rec _ (CParsePipeLoop start result) else ret result.

(** [_ParseAST.parsePipe] *)
Definition parsePipe : M AST :=
  start ← gets inputIndex;
  result ← rec _ CParseExpression;
  pipe ← consumeOptionalOperator "|";
  if pipe : bool then
    action ← gets (λ this, hasFlag (parseFlags this) ParseFlags.Action);
    (if action : bool then error "Cannot have a pipe in an action expression" None
     else ret tt);;
    rec _ (CParsePipeLoop start result)
  else ret result.

(** [_ParseAST.parseExpression] *)
Definition parseExpression : M AST := rec _ CParseConditional.

(** [_ParseAST.parseConditional] *)
Definition parseConditional : M AST :=
  start ← gets inputIndex;
  result ← rec _ CParseLogicalOr;
  question ← consumeOptionalOperator "?";
  if question : bool then
    yes ← rec _ CParsePipe;
    colon ← consumeOptionalCharacter chars.COLON;
    no ← (if colon : bool then rec _ CParsePipe
          else
            end_ ← gets inputIndex;
            expression ← gets (λ this, substring (input this) start end_);
            error ("Conditional expression " +:+ expression
                   +:+ " requires all 3 expressions") None;;
            '(span, sourceSpan) ← spans start;
            ret (EmptyExpr span sourceSpan));
    '(span, sourceSpan) ← spans start;
    ret (Conditional span sourceSpan result yes no)
  else ret result.

(** The loops of the binary operators that are read with
    [consumeOptionalOperator]: [||], [&&] and [??]. *)
Definition parseLogicalOrLoop (start : Z) (result : AST) : M AST :=
  found ← consumeOptionalOperator "||";
  if found : bool then
    right ← rec _ CParseLogicalAnd;
    '(span, sourceSpan) ← spans start;
    rec _ (CParseLogicalOrLoop start (Binary span sourceSpan "||" result right))
  else ret result.

(** [_ParseAST.parseLogicalOr] *)
Definition parseLogicalOr : M AST :=
  start ← gets inputIndex;
  result ← rec _ CParseLogicalAnd;
  rec _ (CParseLogicalOrLoop start result).

Definition parseLogicalAndLoop (start : Z) (result : AST) : M AST :=
  found ← consumeOptionalOperator "&&";
  if found : bool then
    right ← rec _ CParseNullishCoalescing;
    '(span, sourceSpan) ← spans start;
    rec _ (CParseLogicalAndLoop start (Binary span sourceSpan "&&" result right))
  else ret result.

(** [_ParseAST.parseLogicalAnd] *)
Definition parseLogicalAnd : M AST :=
  start ← gets inputIndex;
  result ← rec _ CParseNullishCoalescing;
  rec _ (CParseLogicalAndLoop start result).

Definition parseNullishCoalescingLoop (start : Z) (result : AST) : M AST :=
  found ← consumeOptionalOperator "??";
  if found : bool then
    right ← rec _ CParseEquality;
    '(span, sourceSpan) ← spans start;
    rec _ (CParseNullishCoalescingLoop start (Binary span sourceSpan "??" result right))
  else ret result.

(** [_ParseAST.parseNullishCoalescing] *)
Definition parseNullishCoalescing : M AST :=
  start ← gets inputIndex;
  result ← rec _ CParseEquality;
  rec _ (CParseNullishCoalescingLoop start result).

(** [while (this.next.type == TokenType.Operator) { switch (operator) ... }]:
    the test of the loops of the other binary operators, for the operators
    of one [switch]. *)
Definition nextOperatorIn (operators : list string) (this : _ParseAST) : option string :=
  if decide (tok_type (next this) = TokenType.Operator) then
    let operator := strValue (next this) in
    if decide (operator ∈ operators) then Some operator else None
  else None.

Definition parseEqualityLoop (start : Z) (result : AST) : M AST :=
  operator ← gets (nextOperatorIn ["=="; "==="; "!="; "!=="]);
  match operator with
  | Some operator =>
      advance;;
      right ← rec _ CParseRelational;
      '(span, sourceSpan) ← spans start;
      rec _ (CParseEqualityLoop start (Binary span sourceSpan operator result right))
  | None => ret result
  end.

(** [_ParseAST.parseEquality] *)
Definition parseEquality : M AST :=
  start ← gets inputIndex;
  result ← rec _ CParseRelational;
  rec _ (CParseEqualityLoop start result).

Definition parseRelationalLoop (start : Z) (result : AST) : M AST :=
  operator ← gets (nextOperatorIn ["<"; ">"; "<="; ">="]);
  match operator with
  | Some operator =>
      advance;;
      right ← rec _ CParseAdditive;
      '(span, sourceSpan) ← spans start;
      rec _ (CParseRelationalLoop start (Binary span sourceSpan operator result right))
  | None => ret result
  end.

(** [_ParseAST.parseRelational] *)
Definition parseRelational : M AST :=
  start ← gets inputIndex;
  result ← rec _ CParseAdditive;
  rec _ (CParseRelationalLoop start result).

Definition parseAdditiveLoop (start : Z) (result : AST) : M AST :=
  operator ← gets (nextOperatorIn ["+"; "-"]);
  match operator with
  | Some operator =>
      advance;;
      right ← rec _ CParseMultiplicative;
      '(span, sourceSpan) ← spans start;
      rec _ (CParseAdditiveLoop start (Binary span sourceSpan operator result right))
  | None => ret result
  end.

(** [_ParseAST.parseAdditive] *)
Definition parseAdditive : M AST :=
  start ← gets inputIndex;
  result ← rec _ CParseMultiplicative;
  rec _ (CParseAdditiveLoop start result).

Definition parseMultiplicativeLoop (start : Z) (result : AST) : M AST :=
  operator ← gets (nextOperatorIn ["*"; "%"; "/"]);
  match operator with
  | Some operator =>
      advance;;
      right ← rec _ CParsePrefix;
      '(span, sourceSpan) ← spans start;
      rec _ (CParseMultiplicativeLoop start (Binary span sourceSpan operator result right))
  | None => ret result
  end.

(** [_ParseAST.parseMultiplicative] *)
Definition parseMultiplicative : M AST :=
  start ← gets inputIndex;
  result ← rec _ CParsePrefix;
  rec _ (CParseMultiplicativeLoop start result).

(** [_ParseAST.parsePrefix]; [Unary.createPlus] and [Unary.createMinus]
    build a [Unary] node for the operator. *)
Definition parsePrefix : M AST :=
  operator ← gets (nextOperatorIn ["+"; "-"; "!"]);
  match operator with
  | Some operator =>
      start ← gets inputIndex;
      advance;;
      result ← rec _ CParsePrefix;
      '(span, sourceSpan) ← spans start;
      if String.eqb operator "!" then ret (PrefixNot span sourceSpan result)
      else ret (Unary span sourceSpan operator result)
  | None => rec _ CParseCallChain
  end.

(** The [while (true)] loop of [parseCallChain]. *)
Definition parseCallChainLoop (start : Z) (result : AST) : M AST :=
  period ← consumeOptionalCharacter chars.PERIOD;
  if period : bool then
    result ← rec _ (CParseAccessMember result start false);
    rec _ (CParseCallChainLoop start result)
  else
    safe ← consumeOptionalOperator "?.";
    if safe : bool then
      lparen ← consumeOptionalCharacter chars.LPAREN;
      if lparen : bool then
        result ← rec _ (CParseCall result start true);
        rec _ (CParseCallChainLoop start result)
      else
        lbracket ← consumeOptionalCharacter chars.LBRACKET;
        result ← (if lbracket : bool then rec _ (CParseKeyedReadOrWrite result start true)
                  else rec _ (CParseAccessMember result start true));
        rec _ (CParseCallChainLoop start result)
    else
      lbracket ← consumeOptionalCharacter chars.LBRACKET;
      if lbracket : bool then
        result ← rec _ (CParseKeyedReadOrWrite result start false);
        rec _ (CParseCallChainLoop start result)
      else
        lparen ← consumeOptionalCharacter chars.LPAREN;
        if lparen : bool then
          result ← rec _ (CParseCall result start false);
          rec _ (CParseCallChainLoop start result)
        else
          bang ← consumeOptionalOperator "!";
          if bang : bool then
            '(span, sourceSpan) ← spans start;
            rec _ (CParseCallChainLoop start (NonNullAssert span sourceSpan result))
          else ret result.

(** [_ParseAST.parseCallChain] *)
Definition parseCallChain : M AST :=
  start ← gets inputIndex;
  result ← rec _ CParsePrimary;
  rec _ (CParseCallChainLoop start result).

(** [new LiteralPrimitive(this.span(start), this.sourceSpan(start), value)]
    after [this.advance()] *)
Definition literal (start : Z) (value : LiteralValue) : M AST :=
  advance;;
  '(span, sourceSpan) ← spans start;
  ret (LiteralPrimitive span sourceSpan value).

(** [new EmptyExpr(this.span(start), this.sourceSpan(start))] *)
Definition emptyExpr (start : Z) : M AST :=
  '(span, sourceSpan) ← spans start;
  ret (EmptyExpr span sourceSpan).

(** [_ParseAST.parsePrimary] *)
Definition parsePrimary : M AST :=
  start ← gets inputIndex;
  lparen ← consumeOptionalCharacter chars.LPAREN;
  if lparen : bool then
    modify (λ this, setRparensExpected (rparensExpected this + 1) this);;
    result ← rec _ CParsePipe;
    modify (λ this, setRparensExpected (rparensExpected this - 1) this);;
    expectCharacter chars.RPAREN;;
    ret result
  else
  n ← gets next;
  if isKeywordNull n then literal start LitNull
  else if isKeywordUndefined n then literal start LitUndefined
  else if isKeywordTrue n then literal start (LitBoolean true)
  else if isKeywordFalse n then literal start (LitBoolean false)
  else if isKeywordThis n then
    advance;;
    '(span, sourceSpan) ← spans start;
    ret (ThisReceiver span sourceSpan)
  else
  lbracket ← consumeOptionalCharacter chars.LBRACKET;
  if lbracket : bool then
    modify (λ this, setRbracketsExpected (rbracketsExpected this + 1) this);;
    elements ← rec _ (CParseExpressionList chars.RBRACKET);
    modify (λ this, setRbracketsExpected (rbracketsExpected this - 1) this);;
    expectCharacter chars.RBRACKET;;
    '(span, sourceSpan) ← spans start;
    ret (LiteralArray span sourceSpan elements)
  else
  n ← gets next;
  if isCharacter n chars.LBRACE then rec _ CParseLiteralMap
  else if isIdentifier n then
    '(span, sourceSpan) ← spans start;
    rec _ (CParseAccessMember (ImplicitReceiver span sourceSpan) start false)
  else if isNumber n then literal start (LitNumber (toNumber n))
  else if isString n then literal start (LitString (Token_toString n))
  else if isPrivateIdentifier n then
    _reportErrorForPrivateIdentifier n None;;
    emptyExpr start
  else
    atEnd ← gets (λ this, bool_decide (length (tokens this) ≤ index this)%nat);
    if atEnd : bool then
      input ← gets input;
      error ("Unexpected end of expression: " +:+ input) None;;
      emptyExpr start
    else
      error ("Unexpected token " +:+ Token_toString n) None;;
      emptyExpr start.

(** The [do]-[while] loop of [parseExpressionList]. *)
Definition parseExpressionListLoop (terminator : Z) (result : list AST) : M (list AST) :=
  n ← gets next;
  if negb (isCharacter n terminator) then
    element ← rec _ CParsePipe;
    let result := result ++ [element] in
    comma ← consumeOptionalCharacter chars.COMMA;
    if comma : bool then rec _ (CParseExpressionListLoop terminator result) else ret result
  else ret result.

(** [_ParseAST.parseExpressionList] *)
Definition parseExpressionList (terminator : Z) : M (list AST) :=
  rec _ (CParseExpressionListLoop terminator []).

(** The [do]-[while] loop of [parseLiteralMap]. *)
Definition parseLiteralMapLoop (keys : list LiteralMapKey) (values : list AST)
    : M (list LiteralMapKey * list AST) :=
  keyStart ← gets inputIndex;
  quoted ← gets (λ this, isString (next this));
  key ← expectIdentifierOrKeywordOrString;
  let keys := keys ++ [mkLiteralMapKey key quoted] in
  value ← (if quoted : bool then
             expectCharacter chars.COLON;;
             rec _ CParsePipe
           else
             colon ← consumeOptionalCharacter chars.COLON;
             if colon : bool then rec _ CParsePipe
             else
               span ← gets (λ this, span this keyStart None);
               sourceSpan ← sourceSpan keyStart None;
               ret (PropertyRead span sourceSpan sourceSpan
                      (ImplicitReceiver span sourceSpan) key));
  let values := values ++ [value] in
  comma ← consumeOptionalCharacter chars.COMMA;
  if comma : bool then rec _ (CParseLiteralMapLoop keys values) else ret (keys, values).

(** [_ParseAST.parseLiteralMap] *)
Definition parseLiteralMap : M AST :=
  start ← gets inputIndex;
  expectCharacter chars.LBRACE;;
  rbrace ← consumeOptionalCharacter chars.RBRACE;
  '(keys, values) ←
    (if rbrace : bool then ret ([], [])
     else
       modify (λ this, setRbracesExpected (rbracesExpected this + 1) this);;
       entries ← rec _ (CParseLiteralMapLoop [] []);
       modify (λ this, setRbracesExpected (rbracesExpected this - 1) this);;
       expectCharacter chars.RBRACE;;
       ret entries);
  '(span, sourceSpan) ← spans start;
  ret (LiteralMap span sourceSpan keys values).

(** [_ParseAST.parseAccessMember] *)
Definition parseAccessMember (readReceiver : AST) (start : Z) (isSafe : bool) : M AST :=
  nameStart ← gets inputIndex;
  id ← withContext ParseContextFlags.Writable (
    id ← expectIdentifierOrKeyword;
    let id := default EmptyString id in
    (if decide (String.length id = 0%nat) then
       error "Expected identifier for property access"
             (Some (span_end (AST_span readReceiver)))
     else ret tt);;
    ret id);
  nameSpan ← sourceSpan nameStart None;
  if isSafe then
    assignment ← consumeOptionalAssignment;
    if assignment : bool then
      error "The '?.' operator cannot be used in the assignment" None;;
      emptyExpr start
    else
      '(span, sourceSpan) ← spans start;
      ret (SafePropertyRead span sourceSpan nameSpan readReceiver id)
  else
    assignment ← consumeOptionalAssignment;
    if assignment : bool then
      action ← gets (λ this, hasFlag (parseFlags this) ParseFlags.Action);
      if action : bool then
        value ← rec _ CParseConditional;
        '(span, sourceSpan) ← spans start;
        ret (PropertyWrite span sourceSpan nameSpan readReceiver id value)
      else
        error "Bindings cannot contain assignments" None;;
        emptyExpr start
    else
      '(span, sourceSpan) ← spans start;
      ret (PropertyRead span sourceSpan nameSpan readReceiver id).

(** The [do]-[while] loop of [parseCallArguments]. *)
Definition parseCallArgumentsLoop (positionals : list AST) : M (list AST) :=
  positional ← rec _ CParsePipe;
  let positionals := positionals ++ [positional] in
  comma ← consumeOptionalCharacter chars.COMMA;
  if comma : bool then rec _ (CParseCallArgumentsLoop positionals) else ret positionals.

(** [_ParseAST.parseCallArguments] *)
Definition parseCallArguments : M (list AST) :=
  n ← gets next;
  if isCharacter n chars.RPAREN then ret []
  else rec _ (CParseCallArgumentsLoop []).

(** [_ParseAST.parseCall] *)
Definition parseCall (receiver : AST) (start : Z) (isSafe : bool) : M AST :=
  argumentStart ← gets inputIndex;
  modify (λ this, setRparensExpected (rparensExpected this + 1) this);;
  args ← rec _ CParseCallArguments;
  argumentSpan ← gets (λ this, toAbsolute (span this argumentStart (Some (inputIndex this)))
                                          (absoluteOffset this));
  expectCharacter chars.RPAREN;;
  modify (λ this, setRparensExpected (rparensExpected this - 1) this);;
  '(span, sourceSpan) ← spans start;
  if isSafe then ret (SafeCall span sourceSpan receiver args argumentSpan)
  else ret (Call span sourceSpan receiver args argumentSpan).

(** [_ParseAST.parseKeyedReadOrWrite] *)
Definition parseKeyedReadOrWrite (receiver : AST) (start : Z) (isSafe : bool) : M AST :=
  withContext ParseContextFlags.Writable (
    modify (λ this, setRbracketsExpected (rbracketsExpected this + 1) this);;
    key ← rec _ CParsePipe;
    (if isEmptyExpr key then error "Key access cannot be empty" None else ret tt);;
    modify (λ this, setRbracketsExpected (rbracketsExpected this - 1) this);;
    expectCharacter chars.RBRACKET;;
    assignment ← consumeOptionalOperator "=";
    if assignment : bool then
      if isSafe then
        error "The '?.' operator cannot be used in the assignment" None;;
        emptyExpr start
      else
        value ← rec _ CParseConditional;
        '(span, sourceSpan) ← spans start;
        ret (KeyedWrite span sourceSpan receiver key value)
    else
      '(span, sourceSpan) ← spans start;
      if isSafe then ret (SafeKeyedRead span sourceSpan receiver key)
      else ret (KeyedRead span sourceSpan receiver key)).

(** The body of each production. *)
Definition production {A} (c : Production A) : M A :=
  match c with
  | CParseChain => parseChain
  | CParseChainLoop exprs => parseChainLoop exprs
  | CParsePipe => parsePipe
  | CParsePipeLoop start result => parsePipeLoop start result
  | CParsePipeArgs args => parsePipeArgs args
  | CParseExpression => parseExpression
  | CParseConditional => parseConditional
  | CParseLogicalOr => parseLogicalOr
  | CParseLogicalOrLoop start result => parseLogicalOrLoop start result
  | CParseLogicalAnd => parseLogicalAnd
  | CParseLogicalAndLoop start result => parseLogicalAndLoop start result
  | CParseNullishCoalescing => parseNullishCoalescing
  | CParseNullishCoalescingLoop start result => parseNullishCoalescingLoop start result
  | CParseEquality => parseEquality
  | CParseEqualityLoop start result => parseEqualityLoop start result
  | CParseRelational => parseRelational
  | CParseRelationalLoop start result => parseRelationalLoop start result
  | CParseAdditive => parseAdditive
  | CParseAdditiveLoop start result => parseAdditiveLoop start result
  | CParseMultiplicative => parseMultiplicative
  | CParseMultiplicativeLoop start result => parseMultiplicativeLoop start result
  | CParsePrefix => parsePrefix
  | CParseCallChain => parseCallChain
  | CParseCallChainLoop start result => parseCallChainLoop start result
  | CParsePrimary => parsePrimary
  | CParseExpressionList terminator => parseExpressionList terminator
  | CParseExpressionListLoop terminator result => parseExpressionListLoop terminator result
  | CParseLiteralMap => parseLiteralMap
  | CParseLiteralMapLoop keys values => parseLiteralMapLoop keys values
  | CParseAccessMember readReceiver start isSafe => parseAccessMember readReceiver start isSafe
  | CParseCall receiver start isSafe => parseCall receiver start isSafe
  | CParseCallArguments => parseCallArguments
  | CParseCallArgumentsLoop positionals => parseCallArgumentsLoop positionals
  | CParseKeyedReadOrWrite receiver start isSafe => parseKeyedReadOrWrite receiver start isSafe
  end.
End Productions.

(** A call costs one unit of fuel. *)
Fixpoint run (fuel : nat) : Rec :=
  λ A c,
    match fuel with
    | O => outOfFuel
    | S fuel => production (run fuel) c
    end.

(** The rank of a production: a production calls one of lower rank, or
    calls after it has consumed a token. *)
Definition rank {A} (c : Production A) : nat :=
  match c with
  | CParseLiteralMapLoop _ _ | CParseAccessMember _ _ _ | CParseCallChainLoop _ _
  | CParseMultiplicativeLoop _ _ | CParseAdditiveLoop _ _ | CParseRelationalLoop _ _
  | CParseEqualityLoop _ _ | CParseNullishCoalescingLoop _ _ | CParseLogicalAndLoop _ _
  | CParseLogicalOrLoop _ _ | CParsePipeArgs _ => 0
  | CParseLiteralMap | CParsePipeLoop _ _ => 1
  | CParsePrimary => 2
  | CParseCallChain => 3
  | CParsePrefix => 4
  | CParseMultiplicative => 5
  | CParseAdditive => 6
  | CParseRelational => 7
  | CParseEquality => 8
  | CParseNullishCoalescing => 9
  | CParseLogicalAnd => 10
  | CParseLogicalOr => 11
  | CParseConditional => 12
  | CParseExpression => 13
  | CParsePipe => 14
  | CParseExpressionListLoop _ _ | CParseCallArgumentsLoop _ | CParseKeyedReadOrWrite _ _ _
  | CParseChainLoop _ => 15
  | CParseExpressionList _ | CParseCallArguments | CParseChain => 16
  | CParseCall _ _ _ => 17
  end%nat.

(** Fuel that is enough for any production on a list of tokens (see
    [run_returns]). *)
Definition fuelFor (tokens : list Token) : nat := (18 * length tokens + 18)%nat.

(** ** Template bindings (micro-syntax) *)

(** The [do]-[while] loop of [expectTemplateBindingKey]; it goes round
    again only after it has consumed a [-], so at most once per token. *)
Fixpoint expectTemplateBindingKeyLoop (n : nat) (result : string) : M string :=
  part ← expectIdentifierOrKeywordOrString;
  let result := result +:+ part in
  operatorFound ← consumeOptionalOperator "-";
  if operatorFound : bool then
    let result := result +:+ "-" in
    match n with
    | S n => expectTemplateBindingKeyLoop n result
    | O => ret result
    end
  else ret result.

(** [_ParseAST.expectTemplateBindingKey] *)
Definition expectTemplateBindingKey : M TemplateBindingIdentifier :=
  start ← gets currentAbsoluteOffset;
  n ← gets (λ this, length (tokens this) - index this)%nat;
  result ← expectTemplateBindingKeyLoop n EmptyString;
  ret (mkTemplateBindingIdentifier result
         (mkAbsoluteSourceSpan start (start + jsLength result))).

(** [_ParseAST.consumeStatementTerminator] *)
Definition consumeStatementTerminator : M unit :=
  semicolon ← consumeOptionalCharacter chars.SEMICOLON;
  if semicolon : bool then ret tt
  else consumeOptionalCharacter chars.COMMA;; ret tt.

(** [_ParseAST.getDirectiveBoundTarget] *)
Definition getDirectiveBoundTarget : M (option AST) :=
  none ← gets (λ this, bool_decide (length (tokens this) ≤ index this)%nat
                       || isKeywordAs (next this) || isKeywordLet (next this));
  if none : bool then ret None
  else
    fuel ← gets (λ this, fuelFor (tokens this));
    ast ← run fuel _ CParsePipe;
    let start := span_start (AST_span ast) in
    let end_ := span_end (AST_span ast) in
    value ← gets (λ this, substring (input this) start end_);
    location ← gets location;
    absoluteOffset ← gets absoluteOffset;
    ret (Some (ASTWithSource ast (Some value) location (absoluteOffset + start))).

(** [_ParseAST.parseAsBinding] *)
Definition parseAsBinding (value : TemplateBindingIdentifier) : M (option TemplateBinding) :=
  isAs ← peekKeywordAs;
  if isAs : bool then
    advance;;
    key ← expectTemplateBindingKey;
    consumeStatementTerminator;;
    spanEnd ← gets currentAbsoluteOffset;
    let sourceSpan := mkAbsoluteSourceSpan (abs_start (tbi_span value)) spanEnd in
    ret (Some (VariableBinding sourceSpan key (Some value)))
  else ret None.

(** [_ParseAST.parseLetBinding] *)
Definition parseLetBinding : M (option TemplateBinding) :=
  isLet ← peekKeywordLet;
  if isLet : bool then
    spanStart ← gets currentAbsoluteOffset;
    advance;;
    key ← expectTemplateBindingKey;
    assignment ← consumeOptionalOperator "=";
    value ← (if assignment : bool then
               value ← expectTemplateBindingKey; ret (Some value)
             else ret None);
    consumeStatementTerminator;;
    spanEnd ← gets currentAbsoluteOffset;
    ret (Some (VariableBinding (mkAbsoluteSourceSpan spanStart spanEnd) key value))
  else ret None.

(** [_ParseAST.parseDirectiveKeywordBindings] *)
Definition parseDirectiveKeywordBindings (key : TemplateBindingIdentifier)
    : M (list TemplateBinding) :=
  consumeOptionalCharacter chars.COLON;;
  value ← getDirectiveBoundTarget;
  spanEnd ← gets currentAbsoluteOffset;
  asBinding ← parseAsBinding key;
  spanEnd ← match asBinding with
            | Some _ => ret spanEnd
            | None => consumeStatementTerminator;; gets currentAbsoluteOffset
            end;
  let sourceSpan := mkAbsoluteSourceSpan (abs_start (tbi_span key)) spanEnd in
  let bindings := [ExpressionBinding sourceSpan key value] in
  match asBinding with
  | Some asBinding => ret (bindings ++ [asBinding])
  | None => ret bindings
  end.

(** The [while] loop of [_ParseAST.parseTemplateBindings].  The source
    has no bound on it; [fuel] is the number of iterations this run may
    make. *)
Fixpoint parseTemplateBindingsLoop (fuel : nat) (templateKey : TemplateBindingIdentifier)
    (bindings : list TemplateBinding) : M (list TemplateBinding) :=
  more ← gets (λ this, bool_decide (index this < length (tokens this))%nat);
  if more : bool then
    match fuel with
    | O => outOfFuel
    | S fuel =>
        letBinding ← parseLetBinding;
        bindings ←
          match letBinding with
          | Some letBinding => ret (bindings ++ [letBinding])
          | None =>
              key ← expectTemplateBindingKey;
              binding ← parseAsBinding key;
              match binding with
              | Some binding => ret (bindings ++ [binding])
              | None =>
                  let key := mkTemplateBindingIdentifier
                               (tbi_source templateKey +:+ capitalize (tbi_source key))
                               (tbi_span key) in
                  more ← parseDirectiveKeywordBindings key;
                  ret (bindings ++ more)
              end
          end;
        consumeStatementTerminator;;
        parseTemplateBindingsLoop fuel templateKey bindings
    end
  else ret bindings.

(** [_ParseAST.parseTemplateBindings] *)
Definition _ParseAST_parseTemplateBindings (fuel : nat) (templateKey : TemplateBindingIdentifier)
    : M TemplateBindingParseResult :=
  bindings ← parseDirectiveKeywordBindings templateKey;
  bindings ← parseTemplateBindingsLoop fuel templateKey bindings;
  ret (mkTemplateBindingParseResult bindings []).

(** ** [Parser] *)

#[local] Close Scope parser_scope.

Record InterpolationConfig := mkInterpolationConfig { ic_start : string; ic_end : string }.

Definition DEFAULT_INTERPOLATION_CONFIG : InterpolationConfig :=
  mkInterpolationConfig "{{" "}}".

(** A [Parser] object: its lexer and its [errors] array.  Every
    [_ParseAST] and every result that the parser makes holds a reference to
    this one array. *)
Record Parser := mkParser {
  _lexer : Lexer;
  parser_errors : list ParserError;
}.

(** [new Parser(lexer)] *)
Definition newParser (lexer : Lexer) : Parser := mkParser lexer [].

(** [result.errors], for a result of a parse operation of the parser. *)
Definition resultErrors (this : Parser) : list ParserError := parser_errors this.

(** [Parser._reportError] *)
Definition _reportError (message input errLocation : string) (ctxLocation : option string)
    (this : Parser) : Parser :=
  mkParser (_lexer this)
           (parser_errors this ++ [mkParserError message input errLocation ctxLocation]).

(** The loop of [Parser._commentStart]: [chars] are the characters from
    position [i] on. *)
Fixpoint _commentStartLoop (chars : list Z) (i : Z) (outerQuote : option Z) : option Z :=
  match chars with
  | char :: ((nextChar :: _) as rest) =>
      if (char =? chars.SLASH) && (nextChar =? chars.SLASH)
         && bool_decide (outerQuote = None)
      then Some i
      else
        let outerQuote :=
          if decide (outerQuote = Some char) then None
          else if bool_decide (outerQuote = None) && chars.isQuote char then Some char
          else outerQuote in
        _commentStartLoop rest (i + 1) outerQuote
  | _ => None
  end.

(** [Parser._commentStart] *)
Definition _commentStart (input : string) : option Z :=
  _commentStartLoop (charCodes input) 0 None.

(** [Parser._stripComments] *)
Definition _stripComments (input : string) : string :=
  match _commentStart input with
  | Some i => substring input 0 i
  | None => input
  end.

(** The loop of the generator [Parser._forEachUnquotedChar]: the indexes
    it yields, in order.  [chars] are the characters from position [i]
    on. *)
Fixpoint _forEachUnquotedCharLoop (chars : list Z) (i : Z) (currentQuote : option Z)
    (escapeCount : Z) : list Z :=
  match chars with
  | [] => []
  | char :: rest =>
      let escapeCount' := if char =? chars.BACKSLASH then escapeCount + 1 else 0 in
      if chars.isQuote char
         && (bool_decide (currentQuote = None) || bool_decide (currentQuote = Some char))
         && (escapeCount mod 2 =? 0)
      then
        let currentQuote := if bool_decide (currentQuote = None) then Some char else None in
        _forEachUnquotedCharLoop rest (i + 1) currentQuote escapeCount'
      else if bool_decide (currentQuote = None) then
        i :: _forEachUnquotedCharLoop rest (i + 1) currentQuote escapeCount'
      else _forEachUnquotedCharLoop rest (i + 1) currentQuote escapeCount'
  end.

(** [Parser._forEachUnquotedChar]; [start] is not negative. *)
Definition _forEachUnquotedChar (input : string) (start : Z) : list Z :=
  _forEachUnquotedCharLoop (drop (Z.to_nat start) (charCodes input)) start None 0.

(** The loop of [Parser._getInterpolationEndIndex] over the yielded
    indexes. *)
Fixpoint _getInterpolationEndIndexLoop (input expressionEnd : string) (charIndexes : list Z)
    : Z :=
  match charIndexes with
  | [] => -1
  | charIndex :: rest =>
      if startsWith input expressionEnd charIndex then charIndex
      else if startsWith input "//" charIndex then indexOf input expressionEnd charIndex
      else _getInterpolationEndIndexLoop input expressionEnd rest
  end.

(** [Parser._getInterpolationEndIndex] *)
Definition _getInterpolationEndIndex (input expressionEnd : string) (start : Z) : Z :=
  _getInterpolationEndIndexLoop input expressionEnd (_forEachUnquotedChar input start).

(** The loop of [Parser._checkNoInterpolation]: the final [startIndex] and
    [endIndex].  The test [input.startsWith(start)] has no position. *)
Fixpoint _checkNoInterpolationLoop (input start end_ : string) (charIndexes : list Z)
    (startIndex endIndex : Z) : Z * Z :=
  match charIndexes with
  | [] => (startIndex, endIndex)
  | charIndex :: rest =>
      if startIndex =? -1 then
        if startsWith input start 0
        then _checkNoInterpolationLoop input start end_ rest charIndex endIndex
        else _checkNoInterpolationLoop input start end_ rest startIndex endIndex
      else
        let endIndex := _getInterpolationEndIndex input end_ charIndex in
        if endIndex >? -1 then (startIndex, endIndex)
        else _checkNoInterpolationLoop input start end_ rest startIndex endIndex
  end.

Definition interpolationMessage (config : InterpolationConfig) : string :=
  "Got interpolation (" +:+ ic_start config +:+ ic_end config
  +:+ ") where expression was expected".

(** [Parser._checkNoInterpolation] *)
Definition _checkNoInterpolation (input location : string) (config : InterpolationConfig)
    (this : Parser) : Parser :=
  let '(startIndex, endIndex) :=
    _checkNoInterpolationLoop input (ic_start config) (ic_end config)
      (_forEachUnquotedChar input 0) (-1) (-1) in
  if (startIndex >? -1) && (endIndex >? -1) then
    _reportError (interpolationMessage config) input
                 ("at column " +:+ pretty startIndex +:+ " in") (Some location) this
  else this.

(** Run a [_ParseAST] method on the tokens of [sourceToLex], with the
    [errors] array of the parser, which holds the new errors afterwards. *)
Definition withParseAST {A} (this : Parser) (input location : string) (absoluteOffset : Z)
    (sourceToLex : string) (parseFlags : Z) (method : list Token → M A) : option (A * Parser) :=
  let tokens := tokenize (_lexer this) sourceToLex in
  match method tokens (new_ParseAST input location absoluteOffset tokens parseFlags
                                    (parser_errors this) 0) with
  | Some (a, parseAST) => Some (a, mkParser (_lexer this) (errors parseAST))
  | None => None
  end.

(** [Parser.parseAction] *)
Definition parseAction (this : Parser) (input : string) (isAssignmentEvent : bool)
    (location : string) (absoluteOffset : Z) (interpolationConfig : InterpolationConfig)
    : option (AST * Parser) :=
  let this := _checkNoInterpolation input location interpolationConfig this in
  let sourceToLex := _stripComments input in
  let flags := ParseFlags.Action in
  let flags := if isAssignmentEvent then Z.lor flags ParseFlags.AssignmentEvent else flags in
  '(ast, this) ← withParseAST this input location absoluteOffset sourceToLex flags
                    (λ tokens, run (fuelFor tokens) _ CParseChain);
  Some (ASTWithSource ast (Some input) location absoluteOffset, this).

(** [Parser._parseBindingAst] *)
Definition _parseBindingAst (this : Parser) (input location : string) (absoluteOffset : Z)
    (interpolationConfig : InterpolationConfig) : option (AST * Parser) :=
  let this := _checkNoInterpolation input location interpolationConfig this in
  let sourceToLex := _stripComments input in
  withParseAST this input location absoluteOffset sourceToLex ParseFlags.None
    (λ tokens, run (fuelFor tokens) _ CParseChain).

(** [Parser.parseBinding] *)
Definition parseBinding (this : Parser) (input location : string) (absoluteOffset : Z)
    (interpolationConfig : InterpolationConfig) : option (AST * Parser) :=
  '(ast, this) ← _parseBindingAst this input location absoluteOffset interpolationConfig;
  Some (ASTWithSource ast (Some input) location absoluteOffset, this).

(** [ast.visit(new SimpleExpressionChecker())]: the [errors] of the
    checker afterwards.

    Modelled from the spec: [RecursiveAstVisitor] of [ast.ts] is not part of
    the sources; it visits every child expression.  [visitPipe] is the
    override of [SimpleExpressionChecker], which does not go on into the
    pipe. *)
Fixpoint checkSimpleExpressionVisit (ast : AST) (errors : list string) {struct ast}
    : list string :=
  let visitAll := forEach checkSimpleExpressionVisit in
  match ast with
  | EmptyExpr _ _ | ImplicitReceiver _ _ | ThisReceiver _ _ | LiteralPrimitive _ _ _ => errors
  | Chain _ _ expressions => visitAll expressions errors
  | Conditional _ _ condition trueExp falseExp =>
      checkSimpleExpressionVisit falseExp
        (checkSimpleExpressionVisit trueExp (checkSimpleExpressionVisit condition errors))
  | PropertyRead _ _ _ receiver _ | SafePropertyRead _ _ _ receiver _ =>
      checkSimpleExpressionVisit receiver errors
  | PropertyWrite _ _ _ receiver _ value =>
      checkSimpleExpressionVisit value (checkSimpleExpressionVisit receiver errors)
  | KeyedRead _ _ receiver key | SafeKeyedRead _ _ receiver key =>
      checkSimpleExpressionVisit key (checkSimpleExpressionVisit receiver errors)
  | KeyedWrite _ _ receiver key value =>
      checkSimpleExpressionVisit value
        (checkSimpleExpressionVisit key (checkSimpleExpressionVisit receiver errors))
  | BindingPipe _ _ _ _ _ _ => errors ++ ["pipes"]
  | LiteralArray _ _ expressions => visitAll expressions errors
  | LiteralMap _ _ _ values => visitAll values errors
  | Binary _ _ _ lhs rhs =>
      checkSimpleExpressionVisit rhs (checkSimpleExpressionVisit lhs errors)
  | Unary _ _ _ expr => checkSimpleExpressionVisit expr errors
  | PrefixNot _ _ expression | NonNullAssert _ _ expression =>
      checkSimpleExpressionVisit expression errors
  | Call _ _ receiver args _ | SafeCall _ _ receiver args _ =>
      visitAll args (checkSimpleExpressionVisit receiver errors)
  | ASTWithSource ast _ _ _ => checkSimpleExpressionVisit ast errors
  end.

(** [Parser.checkSimpleExpression] *)
Definition checkSimpleExpression (ast : AST) : list string :=
  checkSimpleExpressionVisit ast [].

(** [Parser.parseSimpleBinding] *)
Definition parseSimpleBinding (this : Parser) (input location : string) (absoluteOffset : Z)
    (interpolationConfig : InterpolationConfig) : option (AST * Parser) :=
  '(ast, this) ← _parseBindingAst this input location absoluteOffset interpolationConfig;
  let errors := checkSimpleExpression ast in
  let this :=
    if decide (0 < length errors)%nat then
      _reportError ("Host binding expression cannot contain " +:+ join " " errors)
                   input location None this
    else this in
  Some (ASTWithSource ast (Some input) location absoluteOffset, this).

(** [Parser.parseTemplateBindings]; [fuel] bounds the iterations of the
    loop over the bindings. *)
Definition parseTemplateBindings (fuel : nat) (this : Parser)
    (templateKey templateValue templateUrl : string)
    (absoluteKeyOffset absoluteValueOffset : Z)
    : option (TemplateBindingParseResult * Parser) :=
  withParseAST this templateValue templateUrl absoluteValueOffset templateValue
    ParseFlags.None
    (λ _, _ParseAST_parseTemplateBindings fuel
            (mkTemplateBindingIdentifier templateKey
               (mkAbsoluteSourceSpan absoluteKeyOffset
                  (absoluteKeyOffset + jsLength templateKey)))).

(** ** Interpolated text *)

Record InterpolationPiece := mkInterpolationPiece {
  ip_text : string;
  ip_start : Z;
  ip_end : Z;
}.

Record SplitInterpolation := mkSplitInterpolation {
  si_strings : list InterpolationPiece;
  si_expressions : list InterpolationPiece;
  si_offsets : list Z;
}.

(** [InterpolatedAttributeToken|InterpolatedTextToken].

    Modelled from the spec: the tokens of [ml_parser/tokens.ts] are not part
    of the sources.  A token descriptor carries a type tag and its parts;
    the parts of a token of type [ENCODED_ENTITY] are the decoded and the
    encoded form of the entity. *)
Inductive InterpolatedToken :=
| EncodedEntityToken (decoded encoded : string)
| TextOrInterpolationToken (parts : list string).

(** The loop of [getIndexMapForOriginalTemplate]. *)
Fixpoint getIndexMapLoop (interpolatedTokens : list InterpolatedToken)
    (offsetMap : gmap Z Z) (consumedInOriginalTemplate consumedInInput : Z) : gmap Z Z :=
  match interpolatedTokens with
  | [] => offsetMap
  | currentToken :: rest =>
      let '(consumedInOriginalTemplate, consumedInInput) :=
        match currentToken with
        | EncodedEntityToken decoded encoded =>
            (consumedInOriginalTemplate + jsLength encoded, consumedInInput + jsLength decoded)
        | TextOrInterpolationToken parts =>
            let lengthOfParts := foldl (λ sum current, sum + jsLength current) 0 parts in
            (consumedInOriginalTemplate + lengthOfParts, consumedInInput + lengthOfParts)
        end in
      getIndexMapLoop rest (<[consumedInInput := consumedInOriginalTemplate]> offsetMap)
                      consumedInOriginalTemplate consumedInInput
  end.

(** [getIndexMapForOriginalTemplate] *)
Definition getIndexMapForOriginalTemplate (interpolatedTokens : list InterpolatedToken)
    : gmap Z Z :=
  getIndexMapLoop interpolatedTokens ∅ 0 0.

(** The variables of the loop of [Parser.splitInterpolation]. *)
Record SplitState := mkSplitState {
  ss_strings : list InterpolationPiece;
  ss_expressions : list InterpolationPiece;
  ss_offsets : list Z;
  ss_i : Z;
  ss_atInterpolation : bool;
  ss_extendLastString : bool;
}.

(** The [while (i < input.length)] loop of [Parser.splitInterpolation];
    [fuel] bounds its iterations, and [None] is the answer of a run that
    was given too little. *)
Fixpoint splitInterpolationLoop (fuel : nat) (input location interpStart interpEnd : string)
    (inputToTemplateIndexMap : option (gmap Z Z)) (st : SplitState) (this : Parser)
    : option (SplitState * Parser) :=
  match fuel with
  | O => None
  | S fuel =>
      let i := ss_i st in
      if i <? jsLength input then
        if negb (ss_atInterpolation st) then
          let start := i in
          let i := indexOf input interpStart i in
          let i := if i =? -1 then jsLength input else i in
          let text := substring input start i in
          splitInterpolationLoop fuel input location interpStart interpEnd
            inputToTemplateIndexMap
            (mkSplitState (ss_strings st ++ [mkInterpolationPiece text start i])
                          (ss_expressions st) (ss_offsets st) i true
                          (ss_extendLastString st))
            this
        else
          let fullStart := i in
          let exprStart := fullStart + jsLength interpStart in
          let exprEnd := _getInterpolationEndIndex input interpEnd exprStart in
          if exprEnd =? -1 then
            Some (mkSplitState (ss_strings st) (ss_expressions st) (ss_offsets st) i
                               false true,
                  this)
          else
            let fullEnd := exprEnd + jsLength interpEnd in
            let text := substring input exprStart exprEnd in
            let this :=
              if jsLength (Binder.trim text) =? 0 then
                _reportError "Blank expressions are not allowed in interpolated strings"
                             input ("at column " +:+ pretty i +:+ " in") (Some location) this
              else this in
            let startInOriginalTemplate :=
              match inputToTemplateIndexMap with
              | Some map => default fullStart (map !! fullStart)
              | None => fullStart
              end in
            let offset := startInOriginalTemplate + jsLength interpStart in
            splitInterpolationLoop fuel input location interpStart interpEnd
              inputToTemplateIndexMap
              (mkSplitState (ss_strings st)
                            (ss_expressions st ++ [mkInterpolationPiece text fullStart fullEnd])
                            (ss_offsets st ++ [offset]) fullEnd false
                            (ss_extendLastString st))
              this
      else Some (st, this)
  end.

(** [Parser.splitInterpolation].  Two iterations of the loop move [i]
    forward when the delimiters are not both empty, so the loop makes at
    most [2 * input.length + 1] iterations then.  [piece] is
    [strings[strings.length - 1]]: on an empty array the assignment to
    [piece.text] throws. *)
Definition splitInterpolation (this : Parser) (input location : string)
    (interpolatedTokens : option (list InterpolatedToken))
    (interpolationConfig : InterpolationConfig)
    : option (Result SplitInterpolation * Parser) :=
  let inputToTemplateIndexMap := getIndexMapForOriginalTemplate <$> interpolatedTokens in
  let interpStart := ic_start interpolationConfig in
  let interpEnd := ic_end interpolationConfig in
  match splitInterpolationLoop (2 * String.length input + 2) input location interpStart
          interpEnd inputToTemplateIndexMap (mkSplitState [] [] [] 0 false false) this with
  | None => None
  | Some (st, this) =>
      let i := ss_i st in
      if negb (ss_atInterpolation st) then
        if ss_extendLastString st then
          match last (ss_strings st) with
          | Some piece =>
              let piece :=
                mkInterpolationPiece (ip_text piece +:+ substringFrom input i) (ip_start piece)
                                     (jsLength input) in
              Some (Ok (mkSplitInterpolation
                          (take (length (ss_strings st) - 1) (ss_strings st) ++ [piece])
                          (ss_expressions st) (ss_offsets st)),
                    this)
          | None => Some (Throw "TypeError: Cannot read properties of undefined", this)
          end
        else
          Some (Ok (mkSplitInterpolation
                      (ss_strings st
                       ++ [mkInterpolationPiece (substringFrom input i) i (jsLength input)])
                      (ss_expressions st) (ss_offsets st)),
                this)
      else
        Some (Ok (mkSplitInterpolation (ss_strings st) (ss_expressions st) (ss_offsets st)),
              this)
  end.

(** The text that alternating strings and expressions stand for: each
    expression between the delimiters, after the string in front of it. *)
Fixpoint interpolated (interpStart interpEnd : string) (strings expressions : list string)
    : string :=
  match strings, expressions with
  | text :: strings, expression :: expressions =>
      text +:+ interpStart +:+ expression +:+ interpEnd
      +:+ interpolated interpStart interpEnd strings expressions
  | text :: _, [] => text
  | [], _ => EmptyString
  end.

(** [new ASTWithSource(new Interpolation(span, sourceSpan, strings,
    expressions), input, location, absoluteOffset, this.errors)].

    Modelled from the spec: [Interpolation] of [ast.ts] is not part of the
    sources; the node holds the strings and the expressions of the
    interpolation.  The record has the fields of the node and of the
    [ASTWithSource] around it. *)
Record InterpolationAST := mkInterpolationAST {
  ia_span : ParseSpan;
  ia_sourceSpan : AbsoluteSourceSpan;
  ia_strings : list string;
  ia_expressions : list AST;
  ia_source : string;
  ia_location : string;
  ia_absoluteOffset : Z;
}.

(** [Parser.createInterpolationAst] *)
Definition createInterpolationAst (strings : list string) (expressions : list AST)
    (input location : string) (absoluteOffset : Z) : InterpolationAST :=
  let span := mkParseSpan 0 (jsLength input) in
  mkInterpolationAST span (toAbsolute span absoluteOffset) strings expressions input location
                     absoluteOffset.

(** The [for] loop of [Parser.parseInterpolation] over the expressions
    and their offsets; [offsets] has an entry for every expression. *)
Fixpoint parseInterpolationLoop (this : Parser) (input location : string) (absoluteOffset : Z)
    (expressions : list InterpolationPiece) (offsets : list Z) (expressionNodes : list AST)
    : option (list AST * Parser) :=
  match expressions, offsets with
  | expression :: expressions, offset :: offsets =>
      let expressionText := ip_text expression in
      let sourceToLex := _stripComments expressionText in
      let tokens := tokenize (_lexer this) sourceToLex in
      match run (fuelFor tokens) _ CParseChain
              (new_ParseAST input location absoluteOffset tokens ParseFlags.None
                            (parser_errors this) offset) with
      | Some (ast, parseAST) =>
          parseInterpolationLoop (mkParser (_lexer this) (errors parseAST)) input location
            absoluteOffset expressions offsets (expressionNodes ++ [ast])
      | None => None
      end
  | _, _ => Some (expressionNodes, this)
  end.

(** [Parser.parseInterpolation]; [None] inside is [null]. *)
Definition parseInterpolation (this : Parser) (input location : string) (absoluteOffset : Z)
    (interpolatedTokens : option (list InterpolatedToken))
    (interpolationConfig : InterpolationConfig)
    : option (Result (option InterpolationAST) * Parser) :=
  match splitInterpolation this input location interpolatedTokens interpolationConfig with
  | None => None
  | Some (Throw e, this) => Some (Throw e, this)
  | Some (Ok split, this) =>
      if decide (length (si_expressions split) = 0%nat) then Some (Ok None, this)
      else
        match parseInterpolationLoop this input location absoluteOffset
                (si_expressions split) (si_offsets split) [] with
        | Some (expressionNodes, this) =>
            Some (Ok (Some (createInterpolationAst (ip_text <$> si_strings split)
                              expressionNodes input location absoluteOffset)),
                  this)
        | None => None
        end
  end.

(** ** A lexer for the examples

    Modelled from the spec: [lexer.ts] is not part of the sources.  This
    lexer makes the tokens the data model lists, for ASCII text without
    escapes: identifiers and keywords, integers, quoted strings, the
    punctuation characters and the operators of the grammar; anything else
    is an error token.  The statements about the parser take the lexer of
    the [Parser] as it is given; this one serves where an example has to
    run. *)
Module ExampleLexer.

Definition textOf (codes : list Z) : string :=
  string_of_list_ascii ((λ c, ascii_of_nat (Z.to_nat c)) <$> codes).

Definition isDigit (c : Z) : bool := (48 <=? c) && (c <=? 57).
Definition isIdentifierStart (c : Z) : bool :=
  ((97 <=? c) && (c <=? 122)) || ((65 <=? c) && (c <=? 90)) || (c =? 95) || (c =? 36).
Definition isIdentifierPart (c : Z) : bool := isIdentifierStart c || isDigit c.
Definition isPunctuation (c : Z) : bool :=
  bool_decide (c ∈ [chars.LPAREN; chars.RPAREN; chars.LBRACE; chars.RBRACE; chars.LBRACKET;
                    chars.RBRACKET; chars.COMMA; chars.COLON; chars.SEMICOLON; chars.PERIOD]).

Definition KEYWORDS : list string :=
  ["var"; "let"; "as"; "null"; "undefined"; "true"; "false"; "if"; "else"; "this"].

(** The operators, longest first. *)
Definition OPERATORS : list string :=
  ["==="; "!=="; "=="; "!="; "<="; ">="; "&&"; "||"; "??"; "?."; "+"; "-"; "*"; "/"; "%";
   "^"; "?"; "<"; ">"; "!"; "="; "&"; "|"].

Fixpoint span_ (p : Z → bool) (codes : list Z) : list Z * list Z :=
  match codes with
  | c :: rest => if p c then let '(taken, rest) := span_ p rest in (c :: taken, rest)
                 else ([], codes)
  | [] => ([], [])
  end.

Definition numberOf (digits : list Z) : Z :=
  foldl (λ acc d, 10 * acc + (d - 48)) 0 digits.

Definition operatorAt (codes : list Z) : option string :=
  List.find (λ op, bool_decide (take (String.length op) codes = charCodes op)) OPERATORS.

(** One token from the characters at position [pos], with the characters
    that follow it; [None] at the end of the text. *)
Definition scanToken (codes : list Z) (pos : Z) : option (Token * list Z) :=
  match codes with
  | [] => None
  | c :: rest =>
      if isIdentifierStart c then
        let '(word, rest) := span_ isIdentifierPart codes in
        let text := textOf word in
        let type := if bool_decide (text ∈ KEYWORDS) then TokenType.Keyword
                    else TokenType.Identifier in
        Some (mkToken pos (pos + Z.of_nat (length word)) type 0 text, rest)
      else if isDigit c then
        let '(digits, rest) := span_ isDigit codes in
        Some (mkToken pos (pos + Z.of_nat (length digits)) TokenType.Number
                (numberOf digits) EmptyString, rest)
      else if isPunctuation c then
        Some (mkToken pos (pos + 1) TokenType.Character c (fromCharCode c), rest)
      else if chars.isQuote c then
        let '(content, rest') := span_ (λ d, negb (d =? c)) rest in
        match rest' with
        | _ :: rest' =>
            Some (mkToken pos (pos + Z.of_nat (length content) + 2) TokenType.String 0
                    (textOf content), rest')
        | [] =>
            Some (mkToken pos (pos + Z.of_nat (length content) + 1) TokenType.Error 0
                    "Lexer Error: Unterminated quote", [])
        end
      else if c =? 35 then
        let '(word, rest) := span_ isIdentifierPart rest in
        Some (mkToken pos (pos + Z.of_nat (length word) + 1) TokenType.PrivateIdentifier 0
                (textOf (c :: word)), rest)
      else
        match operatorAt codes with
        | Some op =>
            Some (mkToken pos (pos + jsLength op) TokenType.Operator 0 op,
                  drop (String.length op) codes)
        | None =>
            Some (mkToken pos (pos + 1) TokenType.Error 0
                    ("Lexer Error: Unexpected character [" +:+ fromCharCode c +:+ "]"), rest)
        end
  end.

Fixpoint scan (fuel : nat) (codes : list Z) (pos : Z) : list Token :=
  match fuel with
  | O => []
  | S fuel =>
      let '(blank, codes') := span_ (λ c, c <=? 32) codes in
      let pos := pos + Z.of_nat (length blank) in
      match scanToken codes' pos with
      | Some (token, rest) => token :: scan fuel rest (tok_end token)
      | None => []
      end
  end.

Definition lexer : Lexer :=
  mkLexer (λ text, scan (S (String.length text)) (charCodes text) 0).

End ExampleLexer.

(** ** Vocabulary of the statements *)

(** The tokens that a [_ParseAST] has not consumed. *)
Definition remaining (this : _ParseAST) : nat := (length (tokens this) - index this)%nat.

(** What every method keeps: the tokens stay, the index does not go
    back. *)
Definition ext (s s' : _ParseAST) : Prop :=
  tokens s' = tokens s ∧ (index s ≤ index s')%nat.

(** The method has consumed a token that was there. *)
Definition consumed (s s' : _ParseAST) : Prop :=
  (index s < length (tokens s))%nat ∧ (S (index s) ≤ index s')%nat.

(** A run of a method from a state returns, with a result and a state
    that satisfy [Q]. *)
Definition wp {A} (m : M A) (s : _ParseAST) (Q : A → _ParseAST → Prop) : Prop :=
  ∃ a s', m s = Some (a, s') ∧ Q a s'.

Definition wfSpan (span : ParseSpan) : Prop := span_start span ≤ span_end span.

Definition All {A} (P : A → Prop) (l : list A) : Prop :=
  foldr (λ a rest, P a ∧ rest) True l.

(** Every node of the tree has a relative span with [start <= end]. *)
Fixpoint wfAST (ast : AST) {struct ast} : Prop :=
  wfSpan (AST_span ast) ∧
  match ast with
  | EmptyExpr _ _ | ImplicitReceiver _ _ | ThisReceiver _ _ | LiteralPrimitive _ _ _ => True
  | Chain _ _ expressions | LiteralArray _ _ expressions => All wfAST expressions
  | Conditional _ _ condition trueExp falseExp =>
      wfAST condition ∧ wfAST trueExp ∧ wfAST falseExp
  | PropertyRead _ _ _ receiver _ | SafePropertyRead _ _ _ receiver _ => wfAST receiver
  | PropertyWrite _ _ _ receiver _ value => wfAST receiver ∧ wfAST value
  | KeyedRead _ _ receiver key | SafeKeyedRead _ _ receiver key => wfAST receiver ∧ wfAST key
  | KeyedWrite _ _ receiver key value => wfAST receiver ∧ wfAST key ∧ wfAST value
  | BindingPipe _ _ exp _ args _ => wfAST exp ∧ All wfAST args
  | LiteralMap _ _ _ values => All wfAST values
  | Binary _ _ _ lhs rhs => wfAST lhs ∧ wfAST rhs
  | Unary _ _ _ expr => wfAST expr
  | PrefixNot _ _ expression | NonNullAssert _ _ expression => wfAST expression
  | Call _ _ receiver args _ | SafeCall _ _ receiver args _ => wfAST receiver ∧ All wfAST args
  | ASTWithSource ast _ _ _ => wfAST ast
  end.

(** [wfAST], when it is asked for. *)
Definition good (check : bool) (ast : AST) : Prop := check = true → wfAST ast.

(** The expressions among the arguments of a production are good. *)
Definition wfCall (check : bool) {A} (c : Production A) : Prop :=
  match c with
  | CParseChainLoop exprs => All (good check) exprs
  | CParsePipeLoop _ result | CParseLogicalOrLoop _ result | CParseLogicalAndLoop _ result
  | CParseNullishCoalescingLoop _ result | CParseEqualityLoop _ result
  | CParseRelationalLoop _ result | CParseAdditiveLoop _ result
  | CParseMultiplicativeLoop _ result | CParseCallChainLoop _ result => good check result
  | CParsePipeArgs args => All (good check) args
  | CParseExpressionListLoop _ result => All (good check) result
  | CParseLiteralMapLoop _ values => All (good check) values
  | CParseAccessMember receiver _ _ | CParseCall receiver _ _
  | CParseKeyedReadOrWrite receiver _ _ => good check receiver
  | CParseCallArgumentsLoop positionals => All (good check) positionals
  | _ => True
  end.

(** The expressions of the result of a production are good. *)
Definition wfRes (check : bool) {A} (c : Production A) : A → Prop :=
  match c in Production A return A → Prop with
  | CParseChainLoop _ | CParsePipeArgs _ | CParseExpressionList _
  | CParseExpressionListLoop _ _ | CParseCallArguments | CParseCallArgumentsLoop _ =>
      All (good check)
  | CParseLiteralMapLoop _ _ => λ entries, All (good check) entries.2
  | CParseChain | CParsePipe | CParsePipeLoop _ _ | CParseExpression | CParseConditional
  | CParseLogicalOr | CParseLogicalOrLoop _ _ | CParseLogicalAnd | CParseLogicalAndLoop _ _
  | CParseNullishCoalescing | CParseNullishCoalescingLoop _ _ | CParseEquality
  | CParseEqualityLoop _ _ | CParseRelational | CParseRelationalLoop _ _ | CParseAdditive
  | CParseAdditiveLoop _ _ | CParseMultiplicative | CParseMultiplicativeLoop _ _
  | CParsePrefix | CParseCallChain | CParseCallChainLoop _ _ | CParsePrimary
  | CParseLiteralMap | CParseAccessMember _ _ _ | CParseCall _ _ _
  | CParseKeyedReadOrWrite _ _ _ => good check
  end.

(** A method started with at most [n] tokens left returns, keeps the
    tokens and the order of the index, and its result satisfies [P]. *)
Definition Spec {A} (n : nat) (m : M A) (P : A → Prop) : Prop :=
  ∀ s, (remaining s ≤ n)%nat → wp m s (λ a s', ext s s' ∧ P a).

(** The state with [olderErrors] in front of its errors: the same parse on
    an [errors] array that already holds them. *)
Definition addErrors (olderErrors : list ParserError) (this : _ParseAST) : _ParseAST :=
  setErrors (olderErrors ++ errors this) this.

(** A method only appends to the [errors] array and never reads it: on an
    array that already holds errors it returns the same result and leaves
    the same state, with the older errors in front. *)
Definition Frame {A} (m : M A) : Prop :=
  ∀ s olderErrors,
    m (addErrors olderErrors s)
    = (λ r : A * _ParseAST, (r.1, addErrors olderErrors r.2)) <$> m s.

(** [rec], but the loop of [parseChain] may be entered again only where
    the index is beyond that of [s]; elsewhere the call does not return. *)
Definition onlyAfter (s : _ParseAST) (rec : Rec) : Rec :=
  λ A c,
    match c in Production A return M A with
    | CParseChainLoop exprs =>
        λ s', if decide (index s < index s')%nat then rec _ (CParseChainLoop exprs) s'
              else None
    | c => rec _ c
    end.

(** The three parse operations, as one function of the parser and of the
    arguments they share. *)
Inductive ParseOperation :=
| ParseAction (isAssignmentEvent : bool)
| ParseBinding
| ParseSimpleBinding.

Definition parseWith (operation : ParseOperation) (this : Parser) (input location : string)
    (absoluteOffset : Z) (config : InterpolationConfig) : option (AST * Parser) :=
  match operation with
  | ParseAction isAssignmentEvent =>
      parseAction this input isAssignmentEvent location absoluteOffset config
  | ParseBinding => parseBinding this input location absoluteOffset config
  | ParseSimpleBinding => parseSimpleBinding this input location absoluteOffset config
  end.

(** ** Examples *)

(** The tokens of ["let item of items; trackBy: fn"]. *)
Definition ngForTokens : list Token :=
  [mkToken 0 3 TokenType.Keyword 0 "let";
   mkToken 4 8 TokenType.Identifier 0 "item";
   mkToken 9 11 TokenType.Identifier 0 "of";
   mkToken 12 17 TokenType.Identifier 0 "items";
   mkToken 17 18 TokenType.Character chars.SEMICOLON ";";
   mkToken 19 26 TokenType.Identifier 0 "trackBy";
   mkToken 26 27 TokenType.Character chars.COLON ":";
   mkToken 28 30 TokenType.Identifier 0 "fn"].

(** [name] read from the implicit receiver, as the parser builds it for an
    identifier that spans [start] to [end_] and follows a token that ends
    at [before]. *)
Definition implicitRead (absoluteOffset before start end_ : Z) (name : string) : AST :=
  PropertyRead (mkParseSpan start end_)
    (mkAbsoluteSourceSpan (absoluteOffset + start) (absoluteOffset + end_))
    (mkAbsoluteSourceSpan (absoluteOffset + start) (absoluteOffset + end_))
    (ImplicitReceiver (mkParseSpan before start)
       (mkAbsoluteSourceSpan (absoluteOffset + before) (absoluteOffset + start)))
    name.

(** The bindings of [*ngFor="let item of items; trackBy: fn"], for a key
    at [k] and a value at [v] in the template. *)
Definition ngForBindings (templateUrl : string) (k v : Z) : list TemplateBinding :=
  [ExpressionBinding (mkAbsoluteSourceSpan k (v + 0))
     (mkTemplateBindingIdentifier "ngFor" (mkAbsoluteSourceSpan k (k + 5))) None;
   VariableBinding (mkAbsoluteSourceSpan (v + 0) (v + 9))
     (mkTemplateBindingIdentifier "item" (mkAbsoluteSourceSpan (v + 4) (v + 4 + 4))) None;
   ExpressionBinding (mkAbsoluteSourceSpan (v + 9) (v + 19))
     (mkTemplateBindingIdentifier "ngForOf" (mkAbsoluteSourceSpan (v + 9) (v + 9 + 2)))
     (Some (ASTWithSource (implicitRead v 11 12 17 "items") (Some "items") templateUrl
              (v + 12)));
   ExpressionBinding (mkAbsoluteSourceSpan (v + 19) (v + 30))
     (mkTemplateBindingIdentifier "ngForTrackBy"
        (mkAbsoluteSourceSpan (v + 19) (v + 19 + 7)))
     (Some (ASTWithSource (implicitRead v 27 28 30 "fn") (Some "fn") templateUrl
              (v + 28)))].

(** ** Vocabulary of the interpolation theorems *)

(** By how much a token is longer in the original template than in the
    decoded input. *)
Definition growth (token : InterpolatedToken) : Z :=
  match token with
  | EncodedEntityToken decoded encoded => jsLength encoded - jsLength decoded
  | TextOrInterpolationToken _ => 0
  end.

Definition totalGrowth (tokens : list InterpolatedToken) : Z :=
  foldr (λ token sum, growth token + sum) 0 tokens.

(** What the loop keeps: the strings and expressions so far stand for
    the input up to [i]. *)
Definition splitSoFar (input interpStart interpEnd : string) (st : SplitState) : Prop :=
  0 ≤ ss_i st ≤ jsLength input ∧
  length (ss_offsets st) = length (ss_expressions st) ∧
  list_ascii_of_string (interpolated interpStart interpEnd (ip_text <$> ss_strings st)
                          (ip_text <$> ss_expressions st))
  = take (Z.to_nat (ss_i st)) (list_ascii_of_string input).

Definition splitInv (input interpStart interpEnd : string) (st : SplitState) : Prop :=
  splitSoFar input interpStart interpEnd st ∧ ss_extendLastString st = false ∧
  if ss_atInterpolation st
  then length (ss_strings st) = S (length (ss_expressions st))
       ∧ (ss_i st < jsLength input → startsWith input interpStart (ss_i st) = true)
  else length (ss_strings st) = length (ss_expressions st).

Definition splitDone (input interpStart interpEnd : string) (st : SplitState) : Prop :=
  splitSoFar input interpStart interpEnd st ∧
  ((ss_extendLastString st = false ∧ ss_i st = jsLength input ∧
    length (ss_strings st)
    = (if ss_atInterpolation st then S (length (ss_expressions st))
       else length (ss_expressions st))) ∨
   (ss_extendLastString st = true ∧ ss_atInterpolation st = false ∧
    length (ss_strings st) = S (length (ss_expressions st)))).

Definition blankErrors (errors : list ParserError) : Prop :=
  Forall (λ error, message error = "Blank expressions are not allowed in interpolated strings")
         errors.

Definition splitMeasure (input : string) (st : SplitState) : nat :=
  (2 * Z.to_nat (jsLength input - ss_i st) + (if ss_atInterpolation st then 0 else 1))%nat.

End ExprParser.

(** * Properties of the binder *)

Module JsMapFacts.
Import JsMap.

Lemma get_set_eq {V} (m : t V) k v : get (set m k v) k = Some v.
Proof.
  induction m as [|[k' v'] m IH]; simpl.
  - by rewrite decide_True.
  - destruct (decide (k' = k)) as [->|Hne]; simpl.
    + by rewrite decide_True.
    + by rewrite decide_False.
Qed.

Lemma get_set_ne {V} (m : t V) k k' v : k ≠ k' → get (set m k v) k' = get m k'.
Proof.
  intros Hne. induction m as [|[k0 v0] m IH]; simpl.
  - by rewrite decide_False.
  - destruct (decide (k0 = k)) as [->|Hne0]; simpl.
    + by rewrite !decide_False.
    + destruct (decide (k0 = k')); [done|apply IH].
Qed.
Lemma set_fresh {V} (m : t V) k v : k ∉ m.*1 → set m k v = m ++ [(k, v)].
Proof.
  induction m as [|[k' v'] m IH]; intros Hfresh; simpl; [done|].
  rewrite fmap_cons in Hfresh. apply not_elem_of_cons in Hfresh as [Hne Hfresh].
  rewrite decide_False by done. by rewrite IH.
Qed.

Lemma set_elem {V} (m : t V) k v c : c ∈ set m k v → c ∈ m ∨ c = (k, v).
Proof.
  induction m as [|[k' v'] m IH]; simpl.
  - intros Hc. apply list_elem_of_singleton in Hc. by right.
  - case_decide.
    + intros Hc. apply elem_of_cons in Hc as [->|Hc]; [by right|].
      left. by apply list_elem_of_further.
    + intros Hc. apply elem_of_cons in Hc as [->|Hc]; [left; apply list_elem_of_here|].
      destruct (IH Hc) as [Hm| ->]; [left; by apply list_elem_of_further|by right].
Qed.

End JsMapFacts.

Module BinderFacts.
Import Binder JsMapFacts.

Lemma Node_ind' (P : Node → Prop) :
  (∀ e, Forall P (el_children e) → P (NElement e)) →
  (∀ t, Forall P (tpl_children t) → P (NTemplate t)) →
  (∀ s a, P (NContent s a)) → (∀ v, P (NText v)) →
  (∀ t, P (NBoundText t)) → (∀ v p, P (NIcu v p)) →
  ∀ n, P n.
Proof.
  intros HE HT HC HX HB HI.
  apply (Node_rect' P (Forall P)); auto.
Qed.

(** ** First declaration wins *)

Lemma maybeDeclare_keeps thing this name e :
  namedEntities this !! name = Some e →
  namedEntities (maybeDeclare thing this) !! name = Some e.
Proof.
  intros He. unfold maybeDeclare. case_decide as Hd; [done|]. simpl.
  rewrite lookup_insert_ne; [done|]. intros <-. apply Hd. by eexists.
Qed.

Lemma maybeDeclare_declares thing this :
  is_Some (namedEntities (maybeDeclare thing this) !! entityName thing).
Proof.
  unfold maybeDeclare. case_decide as Hd; [done|]. simpl.
  rewrite lookup_insert_eq. by eexists.
Qed.

Lemma maybeDeclare_new thing this :
  namedEntities this !! entityName thing = None →
  namedEntities (maybeDeclare thing this) !! entityName thing = Some thing.
Proof.
  intros Hn. unfold maybeDeclare. rewrite Hn.
  rewrite decide_False; [|by intros [? ?]]. simpl. apply lookup_insert_eq.
Qed.

Lemma forEach_cons {A S} (f : A → S → S) x xs s :
  forEach f (x :: xs) s = forEach f xs (f x s).
Proof. done. Qed.

Lemma forEach_app {A S} (f : A → S → S) xs ys s :
  forEach f (xs ++ ys) s = forEach f ys (forEach f xs s).
Proof. unfold forEach. apply foldl_app. Qed.

(** A property of the state that every callback keeps is kept by the
    whole iteration. *)
Lemma forEach_invariant {A S} (P : S → Prop) (f : A → S → S) xs s :
  (∀ x s, x ∈ xs → P s → P (f x s)) → P s → P (forEach f xs s).
Proof.
  revert s. induction xs as [|x xs IH]; intros s Hf Hs; [done|].
  rewrite forEach_cons. apply IH.
  - intros y s' Hy. apply Hf. by apply list_elem_of_further.
  - apply Hf; [apply list_elem_of_here|done].
Qed.

Lemma declarations_keep (things : list Entity) this name e :
  namedEntities this !! name = Some e →
  namedEntities (forEach maybeDeclare things this) !! name = Some e.
Proof.
  intros He.
  apply (forEach_invariant (λ s, namedEntities s !! name = Some e)); [|done].
  intros thing s _. apply maybeDeclare_keeps.
Qed.

(** The whole of pass 1 over a node keeps what the scope has declared:
    [maybeDeclare] is the only writer of [namedEntities]. *)
Lemma visit_keeps node : ∀ this name e,
  namedEntities this !! name = Some e →
  namedEntities (visit node this) !! name = Some e.
Proof.
  induction node as [element IH|template IH| | | |] using Node_ind';
    intros this name e He; simpl; try done.
  - apply (forEach_invariant (λ s, namedEntities s !! name = Some e)).
    + intros child s Hchild. rewrite Forall_forall in IH. by apply IH.
    + apply (forEach_invariant (λ s, namedEntities s !! name = Some e)); [|done].
      intros r s _. apply maybeDeclare_keeps.
  - apply (forEach_invariant (λ s, namedEntities s !! name = Some e)); [|done].
    intros r s _. apply maybeDeclare_keeps.
Qed.

(** C8.  Within one [Scope], a name that is declared keeps its entity
    through every later sequence of [Reference]/[Variable] declarations:
    [maybeDeclare] never overwrites, so the first declaration of a name
    wins. *)
Theorem first_declaration_wins (things : list Entity) (this : Scope) (name : string)
    (e : Entity) :
  namedEntities this !! name = Some e →
  namedEntities (forEach maybeDeclare things this) !! name = Some e.
Proof. apply declarations_keep. Qed.

Lemma first_declaration_wins_witness :
  let first := EVar (mkVariable 1 "item" "$implicit") in
  let later := [ERef (mkReference 2 "item" EmptyString); EVar (mkVariable 3 "item" "index")] in
  namedEntities (forEach maybeDeclare later (maybeDeclare first newRootScope)) !! "item"
  = Some first.
Proof.
  intros first later.
  apply (first_declaration_wins later (maybeDeclare first newRootScope) "item" first).
  reflexivity.
Defined.

(** ** Name lookup *)

Lemma lookup_local name this parentScope e :
  namedEntities this !! name = Some e → lookup name this parentScope = Some e.
Proof. intros He. destruct parentScope; simpl; by rewrite He. Qed.

Lemma lookup_parent name this parent grandparents :
  namedEntities this !! name = None →
  lookup name this (parent :: grandparents) = lookup name parent grandparents.
Proof. intros Hn. simpl. by rewrite Hn. Qed.

Lemma lookup_root name this :
  namedEntities this !! name = None → lookup name this [] = None.
Proof. intros Hn. simpl. by rewrite Hn. Qed.

(** [lookup] finds [e] exactly when [e] is the declaration of the first
    scope of the chain, innermost first, that declares the name. *)
Lemma lookup_Some name e : ∀ parentScope this,
  lookup name this parentScope = Some e ↔
  ∃ inner scope outer,
    this :: parentScope = inner ++ scope :: outer ∧
    Forall (λ s, namedEntities s !! name = None) inner ∧
    namedEntities scope !! name = Some e.
Proof.
  induction parentScope as [|parent grandparents IH]; intros this.
  - split.
    + intros H. exists [], this, []. split; [done|]. split; [done|].
      simpl in H. by destruct (namedEntities this !! name).
    + intros (inner & scope & outer & Hc & Hin & He).
      destruct inner as [|s inner]; simplify_eq/=; [by rewrite He|].
      by destruct inner.
  - split.
    + intros H. destruct (namedEntities this !! name) as [e'|] eqn:Hthis.
      * rewrite (lookup_local _ _ _ e') in H; [|done]. simplify_eq.
        by exists [], this, (parent :: grandparents).
      * rewrite lookup_parent in H; [|done].
        apply IH in H as (inner & scope & outer & Hc & Hin & He).
        exists (this :: inner), scope, outer. split; [by rewrite Hc|].
        split; [by constructor|done].
    + intros (inner & scope & outer & Hc & Hin & He).
      destruct inner as [|s inner]; simplify_eq/=.
      * by rewrite He.
      * apply Forall_cons in Hin as [Hs Hin]. rewrite Hs.
        apply IH. by exists inner, scope, outer.
Qed.

Lemma lookup_None name : ∀ parentScope this,
  lookup name this parentScope = None ↔
  Forall (λ s, namedEntities s !! name = None) (this :: parentScope).
Proof.
  induction parentScope as [|parent grandparents IH]; intros this; simpl.
  - destruct (namedEntities this !! name) eqn:Hthis; split; try done.
    + intros H. apply Forall_cons in H as [H _]. congruence.
    + intros _. by repeat constructor.
  - destruct (namedEntities this !! name) eqn:Hthis.
    + split; [done|]. intros H. apply Forall_cons in H as [H _]. congruence.
    + rewrite IH. split; [by constructor|]. intros H. by apply Forall_cons in H as [_ H].
Qed.

Lemma nestedFor_evaluated :
  match bind noDirectives nestedFor with
  | Ok bt => getExpressionTarget bt innerItemRead
  | Throw _ => None
  end = Some (EVar innerItem).
Proof. vm_compute. reflexivity. Qed.

Lemma nestedFor_bound :
  ∃ bt, bind noDirectives nestedFor = Ok bt ∧
        getExpressionTarget bt innerItemRead = Some (EVar innerItem).
Proof.
  pose proof nestedFor_evaluated as H.
  destruct (bind noDirectives nestedFor) as [bt|]; [|done]. by exists bt.
Qed.

(** C6.  [Scope.lookup] returns the innermost declaration: it finds an
    entity exactly when that entity is declared by the first scope, from the
    current one outward, that declares the name, and it returns [null]
    exactly when no scope up to the root declares it.  For the template with
    two nested [*ngFor], each with [let item], the [item] of the inner
    interpolation is mapped by [getExpressionTarget] to the inner
    variable. *)
Theorem lookup_innermost :
  (∀ name this parentScope e,
     lookup name this parentScope = Some e ↔
     ∃ inner scope outer,
       this :: parentScope = inner ++ scope :: outer ∧
       Forall (λ s, namedEntities s !! name = None) inner ∧
       namedEntities scope !! name = Some e) ∧
  (∀ name this parentScope,
     lookup name this parentScope = None ↔
     Forall (λ s, namedEntities s !! name = None) (this :: parentScope)) ∧
  (∃ bt, bind noDirectives nestedFor = Ok bt ∧
         getExpressionTarget bt innerItemRead = Some (EVar innerItem) ∧
         EVar innerItem ≠ EVar outerItem).
Proof.
  split; [|split].
  - intros. apply lookup_Some.
  - intros. apply lookup_None.
  - destruct nestedFor_bound as (bt & Hb & Ht). exists bt. by repeat split.
Qed.

(** ** Nesting levels *)

Lemma AST_ind' (P : AST → Prop) :
  P EmptyExpr → P ImplicitReceiver → P ThisReceiver →
  (∀ l, Forall P l → P (Chain l)) →
  (∀ c t f, P c → P t → P f → P (Conditional c t f)) →
  (∀ i r n, P r → P (PropertyRead i r n)) →
  (∀ i r n v, P r → P v → P (PropertyWrite i r n v)) →
  (∀ i r n, P r → P (SafePropertyRead i r n)) →
  (∀ r k, P r → P k → P (KeyedRead r k)) →
  (∀ r k, P r → P k → P (SafeKeyedRead r k)) →
  (∀ r k v, P r → P k → P v → P (KeyedWrite r k v)) →
  (∀ e n l, P e → Forall P l → P (BindingPipe e n l)) →
  P LiteralPrimitive →
  (∀ l, Forall P l → P (LiteralArray l)) →
  (∀ l, Forall P l → P (LiteralMap l)) →
  (∀ l, Forall P l → P (Interpolation l)) →
  (∀ a b, P a → P b → P (Binary a b)) →
  (∀ a, P a → P (Unary a)) →
  (∀ a, P a → P (PrefixNot a)) →
  (∀ a, P a → P (NonNullAssert a)) →
  (∀ r l, P r → Forall P l → P (Call r l)) →
  (∀ r l, P r → Forall P l → P (SafeCall r l)) →
  (∀ a, P a → P (ASTWithSource a)) →
  ∀ ast, P ast.
Proof. intros. apply (AST_rect' P (Forall P)); auto. Qed.

Lemma maybeMap_nestingLevel this ast receiver name maps :
  tb_nestingLevel (maybeMap this ast receiver name maps) = tb_nestingLevel maps.
Proof.
  unfold maybeMap. destruct receiver; try done.
  destruct (lookup _ _ _); [|done]. by destruct (astKey ast).
Qed.

Lemma forEach_nestingLevel {A} (f : A → Bindings → Bindings) xs maps :
  (∀ x maps, x ∈ xs → tb_nestingLevel (f x maps) = tb_nestingLevel maps) →
  tb_nestingLevel (forEach f xs maps) = tb_nestingLevel maps.
Proof.
  intros Hf.
  apply (forEach_invariant (λ s, tb_nestingLevel s = tb_nestingLevel maps)); [|done].
  intros x s Hx Hs. by rewrite Hf.
Qed.

(** Visiting an expression records expression targets and pipes only. *)
Lemma visitAST_nestingLevel this ast : ∀ maps,
  tb_nestingLevel (visitAST this ast maps) = tb_nestingLevel maps.
Proof.
  induction ast using AST_ind'; intros maps; simpl;
    repeat match goal with
           | H : ∀ maps, tb_nestingLevel (visitAST _ ?a maps) = _
             |- context [visitAST _ ?a ?m] => rewrite (H m)
           | |- context [maybeMap ?t ?a ?r ?n ?m] => rewrite (maybeMap_nestingLevel t a r n m)
           | H : Forall _ ?l |- context [forEach (visitAST ?t) ?l ?m] =>
               rewrite (forEach_nestingLevel (visitAST t) l m);
               [|intros ? ? ?; rewrite Forall_forall in H; by apply H]
           end; done.
Qed.

Lemma registerSymbol_nestingLevel this symbol maps :
  tb_nestingLevel (registerSymbol this symbol maps) = tb_nestingLevel maps.
Proof. unfold registerSymbol. by destruct (tb_template this). Qed.

Lemma visitTemplateAttr_nestingLevel this attr maps :
  tb_nestingLevel (visitTemplateAttr this attr maps) = tb_nestingLevel maps.
Proof. destruct attr; [apply visitAST_nestingLevel|done]. Qed.

Lemma visitIcu_nestingLevel this vars placeholders maps :
  tb_nestingLevel (visitIcu this vars placeholders maps) = tb_nestingLevel maps.
Proof.
  unfold visitIcu. rewrite !forEach_nestingLevel; [done| |].
  - intros ? ? ?. apply visitAST_nestingLevel.
  - intros [? []] ? ?; [done|apply visitAST_nestingLevel].
Qed.

Lemma forEachR_invariant {A S} (P : S → Prop) (f : A → S → Result S) xs :
  ∀ s s', (∀ x s s', x ∈ xs → P s → f x s = Ok s' → P s') →
  P s → forEachR f xs s = Ok s' → P s'.
Proof.
  induction xs as [|x xs IH]; intros s s' Hf Hs; simpl.
  - by intros [= <-].
  - destruct (f x s) as [s1|] eqn:Hx; [|done]. simpl. apply IH.
    + intros y t t' Hy. apply Hf. by apply list_elem_of_further.
    + apply (Hf x s); [apply list_elem_of_here|done..].
Qed.

Lemma levelsPositive_eq maps maps' :
  tb_nestingLevel maps' = tb_nestingLevel maps → levelsPositive maps → levelsPositive maps'.
Proof. unfold levelsPositive. by intros ->. Qed.

(** Pass 3 records a level only in [ingest] of a binder made by
    [visitTemplate], whose level is one more than that of its parent. *)
Lemma visitNode_levelsPositive node : ∀ this maps maps',
  levelsPositive maps → visitNode this node maps = Ok maps' → levelsPositive maps'.
Proof.
  induction node as [element IH|template IH| | | |] using Node_ind';
    intros this maps maps' Hpos; simpl.
  - apply forEachR_invariant.
    + intros child s s' Hchild. rewrite Forall_forall in IH. by apply IH.
    + eapply levelsPositive_eq; [|done].
      rewrite !forEach_nestingLevel; [done|intros; apply visitAST_nestingLevel..].
  - destruct (getChildScope _ _) as [childScope|]; [|done]. simpl.
    match goal with |- context [forEachR ?f ?xs ?s] =>
      destruct (forEachR f xs s) as [maps1|] eqn:Hchildren end; [|done].
    simpl. intros [= <-].
    assert (levelsPositive maps1) as Hpos1.
    { revert Hchildren. apply forEachR_invariant.
      - intros child s s' Hchild. rewrite Forall_forall in IH. by apply IH.
      - eapply levelsPositive_eq; [|done].
        rewrite !forEach_nestingLevel; [done|intros..].
        + apply visitAST_nestingLevel.
        + apply visitAST_nestingLevel.
        + apply visitTemplateAttr_nestingLevel.
        + apply registerSymbol_nestingLevel.
        + apply registerSymbol_nestingLevel. }
    intros id level. simpl. rewrite lookup_insert.
    case_decide; [intros [= <-]; lia|apply Hpos1].
  - by intros [= <-].
  - by intros [= <-].
  - intros [= <-]. eapply levelsPositive_eq; [|done]. apply visitAST_nestingLevel.
  - intros [= <-]. eapply levelsPositive_eq; [|done]. apply visitIcu_nestingLevel.
Qed.

Lemma bind_levelsPositive this target bt :
  bind this target = Ok bt →
  ∀ id level, bt_nestingLevel bt !! id = Some level → 1 ≤ level.
Proof.
  unfold bind. destruct (target_template target) as [template|]; [|done].
  destruct (applyWithScope template _) as [tb|] eqn:Happly; [|done].
  simpl. intros [= <-]. simpl.
  revert Happly. unfold applyWithScope, TemplateBinder_ingest, TemplateBinder_ingestWith.
  apply (forEachR_invariant levelsPositive).
  - intros node s s' _. apply visitNode_levelsPositive.
  - intros id level. simpl. by rewrite lookup_empty.
Qed.

Lemma threeLevels_evaluated :
  match bind noDirectives threeLevels with
  | Ok bt => Some (getNestingLevel bt outermostTemplate,
                   getNestingLevel bt middleTemplate,
                   getNestingLevel bt innermostTemplate)
  | Throw _ => None
  end = Some (1, 2, 3).
Proof. vm_compute. reflexivity. Qed.

(** C1, as stated, fails: the three nested templates are at levels 1, 2
    and 3, not 0, 1 and 2. *)
Lemma nestingLevel_not_from_zero :
  ∃ bt, bind noDirectives threeLevels = Ok bt ∧
        getNestingLevel bt outermostTemplate ≠ 0 ∧
        getNestingLevel bt middleTemplate ≠ 1 ∧
        getNestingLevel bt innermostTemplate ≠ 2.
Proof.
  pose proof threeLevels_evaluated as H.
  destruct (bind noDirectives threeLevels) as [bt|]; [|done].
  exists bt. injection H as -> -> ->. by repeat split.
Qed.

(** C1, amended.  For three nested [<ng-template>], [getNestingLevel]
    returns 1, 2 and 3 from the outermost to the innermost.  In general
    every level that [bind] records for a [Template] node is at least 1:
    level 0 is that of the top-level node list, which is not a [Template],
    and [getNestingLevel] returns 0 only for a [Template] that has no
    recorded level. *)
Theorem nestingLevel_from_one :
  (∃ bt, bind noDirectives threeLevels = Ok bt ∧
         getNestingLevel bt outermostTemplate = 1 ∧
         getNestingLevel bt middleTemplate = 2 ∧
         getNestingLevel bt innermostTemplate = 3) ∧
  (∀ this target bt, bind this target = Ok bt →
     (∀ id level, bt_nestingLevel bt !! id = Some level → 1 ≤ level) ∧
     (∀ template, getNestingLevel bt template = 0 ↔
                  bt_nestingLevel bt !! tpl_id template = None)).
Proof.
  split.
  - pose proof threeLevels_evaluated as H.
    destruct (bind noDirectives threeLevels) as [bt|]; [|done].
    exists bt. by injection H as -> -> ->.
  - intros this target bt Hbind.
    pose proof (bind_levelsPositive _ _ _ Hbind) as Hpos.
    split; [done|]. intros template. unfold getNestingLevel.
    destruct (bt_nestingLevel bt !! tpl_id template) as [level|] eqn:Hl; simpl; [|done].
    apply Hpos in Hl. split; [lia|done].
Qed.

Lemma nestingLevel_from_one_witness :
  ∃ bt, bind noDirectives threeLevels = Ok bt ∧
        ∀ id level, bt_nestingLevel bt !! id = Some level → 1 ≤ level.
Proof.
  destruct (bind noDirectives threeLevels) as [bt|msg] eqn:Hbind.
  - exists bt. split; [reflexivity|].
    exact (proj1 (proj2 nestingLevel_from_one noDirectives threeLevels bt Hbind)).
  - exfalso. revert Hbind. vm_compute. discriminate.
Defined.

(** ** [bind] throws only for a missing template *)

Lemma elem_of_flat_map {A B} (f : A → list B) (l : list A) (y : B) :
  y ∈ flat_map f l ↔ ∃ x, x ∈ l ∧ y ∈ f x.
Proof.
  rewrite list_elem_of_In, in_flat_map. split.
  - intros (x & Hx & Hy). exists x. by rewrite !list_elem_of_In.
  - intros (x & Hx & Hy). exists x. by rewrite <- !list_elem_of_In.
Qed.

Lemma directTemplates_templatesOf node : directTemplates node ⊆ templatesOf node.
Proof.
  induction node as [element IH|template IH| | | |] using Node_ind'; simpl; try done.
  - intros t. rewrite !elem_of_flat_map. intros (child & Hchild & Ht).
    exists child. split; [done|]. rewrite Forall_forall in IH. by apply IH.
  - intros t Ht. apply list_elem_of_singleton in Ht as ->. apply list_elem_of_here.
Qed.

Lemma maybeDeclare_childScopes thing this :
  childScopes (maybeDeclare thing this) = childScopes this.
Proof. unfold maybeDeclare. by case_decide. Qed.

Lemma declarations_childScopes (things : list Entity) this :
  childScopes (forEach maybeDeclare things this) = childScopes this.
Proof.
  apply (forEach_invariant (λ s, childScopes s = childScopes this)); [|done].
  intros thing s _ <-. apply maybeDeclare_childScopes.
Qed.

Lemma references_childScopes (refs : list Reference) this :
  childScopes (forEach visitReference refs this) = childScopes this.
Proof.
  apply (forEach_invariant (λ s, childScopes s = childScopes this)); [|done].
  intros r s _ <-. apply maybeDeclare_childScopes.
Qed.

Lemma variables_childScopes (vars : list Variable_) this :
  childScopes (forEach visitVariable vars this) = childScopes this.
Proof.
  apply (forEach_invariant (λ s, childScopes s = childScopes this)); [|done].
  intros r s _ <-. apply maybeDeclare_childScopes.
Qed.

Lemma forEach_visit_childScopes (children : list Node) :
  Forall (λ node, ∀ this, childScopes (visit node this)
                          = setChildScopes (childScopes this) (directTemplates node))
         children →
  ∀ this, childScopes (forEach visit children this)
          = setChildScopes (childScopes this) (flat_map directTemplates children).
Proof.
  induction 1 as [|child children Hchild _ IH]; intros this; [done|].
  rewrite forEach_cons, IH, Hchild. simpl. unfold setChildScopes. by rewrite foldl_app.
Qed.

(** Pass 1 changes the child scopes of a scope only by setting, for each
    template it meets there, the scope built from that template. *)
Lemma visit_childScopes node : ∀ this,
  childScopes (visit node this)
  = setChildScopes (childScopes this) (directTemplates node).
Proof.
  induction node as [element IH|template IH| | | |] using Node_ind';
    intros this; simpl; try done.
  - rewrite forEach_visit_childScopes; [|done]. by rewrite references_childScopes.
  - by rewrite references_childScopes.
Qed.

Lemma childScopeOf_childScopes template :
  childScopes (childScopeOf template)
  = setChildScopes [] (flat_map directTemplates (tpl_children template)).
Proof.
  unfold childScopeOf, ingest, ingestWith.
  rewrite forEach_visit_childScopes.
  - by rewrite variables_childScopes.
  - apply Forall_forall. intros node _. apply visit_childScopes.
Qed.

Lemma Scope_apply_childScopes template :
  childScopes (Scope_apply template)
  = setChildScopes [] (flat_map directTemplates template).
Proof.
  unfold Scope_apply, ingest, ingestWith.
  rewrite forEach_visit_childScopes; [done|].
  apply Forall_forall. intros node _. apply visit_childScopes.
Qed.

Lemma consistentList_subseteq l1 l2 :
  l1 ⊆ l2 → consistentList l2 → consistentList l1.
Proof. intros Hsub Hc t1 t2 H1 H2. apply Hc; by apply Hsub. Qed.

(** With consistent identities, a template met in a scope finds there the
    scope built from itself. *)
Lemma setChildScopes_get templates : ∀ m t,
  consistentList templates → t ∈ templates →
  JsMap.get (setChildScopes m templates) (tpl_id t) = Some (childScopeOf t).
Proof.
  induction templates as [|t0 templates IH] using rev_ind; intros m t Hc Ht.
  - by apply elem_of_nil in Ht.
  - unfold setChildScopes. rewrite foldl_app. simpl.
    destruct (decide (tpl_id t0 = tpl_id t)) as [Heq|Hne].
    + assert (t0 = t) as ->.
      { apply Hc; [|done..]. apply elem_of_app. right. apply list_elem_of_here. }
      apply get_set_eq.
    + rewrite get_set_ne; [|done]. apply IH.
      * eapply consistentList_subseteq; [|done]. intros x Hx.
        apply elem_of_app. by left.
      * apply elem_of_app in Ht as [Ht|Ht]; [done|].
        apply list_elem_of_singleton in Ht. by subst.
Qed.

Lemma consistentList_NoDup templates :
  NoDup (tpl_id <$> templates) → consistentList templates.
Proof.
  intros Hnd t1 t2 H1 H2 Hid.
  apply list_elem_of_lookup in H1 as [i1 H1]. apply list_elem_of_lookup in H2 as [i2 H2].
  assert (i1 = i2) as ->; [|congruence].
  eapply NoDup_lookup; [exact Hnd| |].
  - rewrite list_lookup_fmap, H1. reflexivity.
  - rewrite list_lookup_fmap, H2. simpl. by rewrite Hid.
Qed.

Lemma forEachR_ok {A S} (f : A → S → Result S) xs :
  (∀ x s, x ∈ xs → ∃ s', f x s = Ok s') → ∀ s, ∃ s', forEachR f xs s = Ok s'.
Proof.
  induction xs as [|x xs IH]; intros Hf s; simpl; [by eexists|].
  destruct (Hf x s) as [s1 ->]; [apply list_elem_of_here|]. simpl.
  apply IH. intros y t Hy. apply Hf. by apply list_elem_of_further.
Qed.

(** Pass 3 over a node does not throw in a scope that holds, for every
    template the node shows in that scope, the scope built from it: the
    lookup of [getChildScope] succeeds, and the scope it returns is in the
    same position for the children of the template. *)
Lemma visitNode_ok node : ∀ this maps,
  consistentList (templatesOf node) →
  (∀ t, t ∈ directTemplates node →
        JsMap.get (childScopes (tb_scope this)) (tpl_id t) = Some (childScopeOf t)) →
  ∃ maps', visitNode this node maps = Ok maps'.
Proof.
  induction node as [element IH|template IH| | | |] using Node_ind';
    intros this maps Hc Hscope; simpl; try by eexists.
  - apply forEachR_ok. intros child s Hchild.
    rewrite Forall_forall in IH. apply IH; [done| |].
    + eapply consistentList_subseteq; [|done]. intros t Ht.
      simpl. apply elem_of_flat_map. by exists child.
    + intros t Ht. apply Hscope. simpl. apply elem_of_flat_map. by exists child.
  - unfold getChildScope. rewrite Hscope; [|simpl; apply list_elem_of_here]. simpl.
    match goal with |- context [forEachR ?f ?xs ?s0] =>
      assert (∃ maps1, forEachR f xs s0 = Ok maps1) as [maps1 ->];
        [apply forEachR_ok|by eexists] end.
    intros child s Hchild. rewrite Forall_forall in IH. apply IH; [done| |].
    + eapply consistentList_subseteq; [|done]. intros t Ht.
      simpl. apply list_elem_of_further, elem_of_flat_map. by exists child.
    + intros t Ht. simpl. rewrite childScopeOf_childScopes.
      apply setChildScopes_get.
      * eapply consistentList_subseteq; [|done]. intros t' Ht'. simpl.
        apply list_elem_of_further.
        apply elem_of_flat_map in Ht' as (c & Hc' & Ht').
        apply elem_of_flat_map. exists c. split; [done|].
        by apply directTemplates_templatesOf.
      * apply elem_of_flat_map. by exists child.
Qed.

Lemma applyWithScope_ok template :
  consistentIds template →
  ∃ tb, applyWithScope template (Scope_apply template) = Ok tb.
Proof.
  intros Hc. unfold applyWithScope, TemplateBinder_ingest, TemplateBinder_ingestWith.
  apply forEachR_ok. intros node s Hnode. apply visitNode_ok.
  - eapply consistentList_subseteq; [|exact Hc]. intros t Ht.
    apply elem_of_flat_map. by exists node.
  - intros t Ht. simpl. rewrite Scope_apply_childScopes.
    apply setChildScopes_get.
    + eapply consistentList_subseteq; [|exact Hc]. intros t' Ht'.
      apply elem_of_flat_map in Ht' as (c & Hc' & Ht').
      apply elem_of_flat_map. exists c. split; [done|].
      by apply directTemplates_templatesOf.
    + apply elem_of_flat_map. by exists node.
Qed.

(** C4.  [R3TargetBinder.bind] throws exactly when the target has no
    template.  For a target with a template it returns a bound target,
    whatever the template contains: the lookup of [Scope.getChildScope]
    finds a scope for every [Template] node that pass 3 meets. *)
Theorem bind_throws_iff_no_template (this : R3TargetBinder) (target : Target) :
  wellFormed target →
  ((∃ message, bind this target = Throw message) ↔ target_template target = None) ∧
  (∀ template, target_template target = Some template →
               ∃ bt, bind this target = Ok bt).
Proof.
  unfold wellFormed, bind. intros Hwf.
  destruct (target_template target) as [template|].
  - destruct (applyWithScope_ok template Hwf) as [tb ->]. simpl. split.
    + split; [by intros [? ?]|done].
    + intros ? _. by eexists.
  - split; [|done]. split; [done|]. intros _. by eexists.
Qed.

Lemma bind_throws_iff_no_template_witness :
  ((∃ message, bind noDirectives nestedFor = Throw message)
   ↔ target_template nestedFor = None) ∧
  (∀ template, target_template nestedFor = Some template →
               ∃ bt, bind noDirectives nestedFor = Ok bt).
Proof.
  apply (bind_throws_iff_no_template noDirectives nestedFor).
  apply consistentList_NoDup. apply (bool_decide_unpack _). vm_compute. exact I.
Defined.

(** ** The entities in the scope of a template *)

Lemma Scope_ind' (P : Scope → Prop) :
  (∀ named children template,
     Forall (λ child, P child.2) children → P (mkScope named children template)) →
  ∀ scope, P scope.
Proof.
  intros H. fix IH 1. intros [named children template]. apply H.
  induction children as [|[k child] children IHchildren]; constructor;
    [apply IH|apply IHchildren].
Qed.

Lemma allScopes_eq scope parentScope :
  allScopes scope parentScope
  = (scope, parentScope)
    :: flat_map (λ child, allScopes child.2 (scope :: parentScope)) (childScopes scope).
Proof. by destruct scope. Qed.

Lemma itemsOf_cons scope parents rest :
  itemsOf ((scope, parents) :: rest)
  = (scope, parents)
    :: flat_map (λ child, allScopes child.2 (scope :: parents)) (childScopes scope)
    ++ itemsOf rest.
Proof. unfold itemsOf. simpl. by rewrite allScopes_eq. Qed.

Lemma mergedEntities_lookup name parentScope : ∀ scope,
  mergedEntities scope parentScope !! name = lookup name scope parentScope.
Proof.
  induction parentScope as [|parent grandparents IH]; intros scope; simpl.
  - by destruct (namedEntities scope !! name).
  - destruct (namedEntities scope !! name) as [e|] eqn:He.
    + by apply lookup_union_Some_l.
    + rewrite lookup_union_r by done. apply IH.
Qed.

Lemma allScopes_length scope : ∀ parentScope,
  length (allScopes scope parentScope) = Scope_size scope.
Proof.
  induction scope as [named children template IH] using Scope_ind'.
  intros parentScope. simpl. f_equal.
  generalize (mkScope named children template :: parentScope). intros chain.
  induction IH as [|child children Hchild _ IHchildren]; simpl; [done|].
  by rewrite length_app, Hchild, IHchildren.
Qed.

Lemma extractScopeEntities_miss scope parentScope entityMap :
  entityMap !! scopeKey scope = None →
  match parentScope with
  | parent :: grandparents =>
      entityMap !! scopeKey parent = Some (mergedEntities parent grandparents)
  | [] => True
  end →
  extractScopeEntities scope parentScope entityMap
  = (mergedEntities scope parentScope,
     <[scopeKey scope := mergedEntities scope parentScope]> entityMap).
Proof.
  intros Hmiss Hparent. destruct parentScope as [|parent grandparents]; simpl.
  - by rewrite Hmiss.
  - rewrite Hmiss. destruct grandparents; simpl; by rewrite Hparent.
Qed.

Lemma itemsOf_pushed scope parents rest :
  itemsOf (rev ((λ childScope, (childScope, scope :: parents))
                  <$> JsMap.values (childScopes scope)) ++ rest)
  ≡ₚ flat_map (λ child, allScopes child.2 (scope :: parents)) (childScopes scope)
     ++ itemsOf rest.
Proof.
  unfold itemsOf. rewrite flat_map_app. apply Permutation_app; [|done].
  rewrite <- Permutation_rev. unfold JsMap.values.
  generalize (childScopes scope). intros children.
  induction children as [|[k child] children IH]; simpl; [done|]. by rewrite IH.
Qed.

Lemma processScopes_spec fuel : ∀ scopesToProcess entityMap,
  length (itemsOf scopesToProcess) < fuel →
  NoDup (itemKey <$> itemsOf scopesToProcess) →
  (∀ item, item ∈ itemsOf scopesToProcess → entityMap !! itemKey item = None) →
  (∀ scope parent grandparents,
     (scope, parent :: grandparents) ∈ scopesToProcess →
     entityMap !! scopeKey parent = Some (mergedEntities parent grandparents)) →
  (∀ key entities, entityMap !! key = Some entities →
     (processScopes fuel scopesToProcess entityMap).2 !! key = Some entities) ∧
  (∀ scope parents, (scope, parents) ∈ itemsOf scopesToProcess →
     (processScopes fuel scopesToProcess entityMap).2 !! scopeKey scope
     = Some (mergedEntities scope parents)).
Proof.
  induction fuel as [|fuel IH]; intros scopesToProcess entityMap Hfuel Hdistinct Hnew Hparents;
    [lia|].
  destruct scopesToProcess as [|[scope parents] rest]; cbn [processScopes].
  { split; [done|]. intros scope parents Hin. by apply elem_of_nil in Hin. }
  pose proof (itemsOf_pushed scope parents rest) as Hperm.
  set (scopesToProcess' := rev _ ++ rest) in *.
  rewrite itemsOf_cons in Hfuel, Hdistinct. rewrite <- Hperm in Hfuel, Hdistinct.
  rewrite fmap_cons in Hdistinct. apply NoDup_cons in Hdistinct as [Hfresh Hdistinct].
  assert (entityMap !! scopeKey scope = None) as Hnone.
  { apply (Hnew (scope, parents)). rewrite itemsOf_cons. apply list_elem_of_here. }
  rewrite extractScopeEntities_miss; [|done|]; first last.
  { destruct parents as [|parent grandparents]; [done|].
    eapply Hparents, list_elem_of_here. }
  cbn [snd].
  destruct (IH scopesToProcess' (<[scopeKey scope := mergedEntities scope parents]> entityMap))
    as [Hkeep Hitems].
  - simpl in Hfuel. lia.
  - done.
  - intros item Hitem. rewrite lookup_insert_ne.
    + apply Hnew. rewrite itemsOf_cons. apply list_elem_of_further. by rewrite <- Hperm.
    + intros Heq. apply Hfresh. apply list_elem_of_fmap. by exists item.
  - intros scope' parent grandparents Hin. unfold scopesToProcess' in Hin.
    apply elem_of_app in Hin as [Hin|Hin].
    + rewrite list_elem_of_In, <- in_rev, <- list_elem_of_In in Hin. apply list_elem_of_fmap in Hin as (child & Heq & _).
      injection Heq as -> -> ->. apply lookup_insert_eq.
    + rewrite lookup_insert_ne; [by eapply Hparents, list_elem_of_further|].
      intros Heq. rewrite Heq in Hnone.
      erewrite Hparents in Hnone; [done|]. by apply list_elem_of_further.
  - split.
    + intros key entities Hkey. apply Hkeep. rewrite lookup_insert_ne; [done|].
      intros <-. congruence.
    + intros scope' parents' Hin. rewrite itemsOf_cons in Hin.
      apply elem_of_cons in Hin as [Heq|Hin].
      * injection Heq as -> ->. apply Hkeep, lookup_insert_eq.
      * apply Hitems. by rewrite Hperm.
Qed.

Lemma extractTemplateEntities_spec rootScope scope parents :
  NoDup (itemKey <$> allScopes rootScope []) →
  (scope, parents) ∈ allScopes rootScope [] →
  extractTemplateEntities rootScope !! scopeKey scope
  = Some (map_img (mergedEntities scope parents)).
Proof.
  intros Hdistinct Hin. unfold extractTemplateEntities. rewrite lookup_fmap.
  destruct (processScopes_spec (S (Scope_size rootScope)) [(rootScope, [])] ∅)
    as [_ Hitems].
  - unfold itemsOf. simpl. rewrite app_nil_r.
    pose proof (allScopes_length rootScope []) as Hlen. simpl in Hlen. lia.
  - unfold itemsOf. simpl. by rewrite app_nil_r.
  - done.
  - intros scope' parent grandparents Hin'. apply list_elem_of_singleton in Hin'.
    discriminate.
  - erewrite Hitems; [done|]. unfold itemsOf. simpl. by rewrite app_nil_r.
Qed.

(** *** The scopes of a template *)

Lemma setChildScopes_distinct templates : ∀ m,
  NoDup (m.*1 ++ (tpl_id <$> templates)) →
  setChildScopes m templates
  = m ++ ((λ t, (tpl_id t, childScopeOf t)) <$> templates).
Proof.
  induction templates as [|t templates IH]; intros m Hdistinct; simpl.
  - by rewrite app_nil_r.
  - unfold setChildScopes in *. simpl. rewrite set_fresh.
    + rewrite IH; [by rewrite <- app_assoc|].
      by rewrite fmap_app, <- app_assoc.
    + apply NoDup_app in Hdistinct as (_ & Hdisjoint & _). intros Hin.
      apply (Hdisjoint _ Hin), list_elem_of_here.
Qed.

Lemma sublist_flat_map {A B} (f g : A → list B) (l : list A) :
  Forall (λ x, f x `sublist_of` g x) l → flat_map f l `sublist_of` flat_map g l.
Proof. induction 1; simpl; [done|]. by apply sublist_app. Qed.

Lemma directTemplates_sublist node : directTemplates node `sublist_of` templatesOf node.
Proof.
  induction node as [element IH|template IH| | | |] using Node_ind'; simpl; try done.
  - by apply sublist_flat_map.
  - apply sublist_skip, sublist_nil_l.
Qed.

Lemma directTemplates_distinct (children : list Node) :
  NoDup (tpl_id <$> flat_map templatesOf children) →
  NoDup (tpl_id <$> flat_map directTemplates children).
Proof.
  intros Hdistinct. eapply sublist_NoDup; [exact Hdistinct|].
  apply fmap_sublist, sublist_flat_map, Forall_forall.
  intros node _. apply directTemplates_sublist.
Qed.

Lemma maybeDeclare_template thing this :
  template (maybeDeclare thing this) = template this.
Proof. unfold maybeDeclare. by case_decide. Qed.

Lemma visit_template node : ∀ this, template (visit node this) = template this.
Proof.
  induction node as [element IH|t IH| | | |] using Node_ind'; intros this; simpl; try done.
  - transitivity (template (forEach visitReference (el_references element) this)).
    + apply (forEach_invariant (λ s, template s = template _)); [|done].
      intros child s Hchild <-. rewrite Forall_forall in IH. by apply IH.
    + apply (forEach_invariant (λ s, template s = template this)); [|done].
      intros r s _ <-. apply maybeDeclare_template.
  - apply (forEach_invariant (λ s, template s = template this)); [|done].
    intros r s _ <-. apply maybeDeclare_template.
Qed.

Lemma childScopeOf_template t : template (childScopeOf t) = Some t.
Proof.
  unfold childScopeOf, ingest, ingestWith.
  transitivity (template (forEach visitVariable (tpl_variables t) (newScope (Some t)))).
  - apply (forEach_invariant (λ s, template s = template _)); [|done].
    intros child s _ <-. apply visit_template.
  - apply (forEach_invariant (λ s, template s = Some t)); [|done].
    intros v s _ <-. apply maybeDeclare_template.
Qed.

Lemma Scope_apply_template nodes : template (Scope_apply nodes) = None.
Proof.
  unfold Scope_apply, ingest, ingestWith.
  apply (forEach_invariant (λ s, template s = None)); [|done].
  intros child s _ <-. apply visit_template.
Qed.

Lemma flat_map_fmap {A B C} (f : B → list C) (g : A → B) (l : list A) :
  flat_map f (g <$> l) = flat_map (λ x, f (g x)) l.
Proof. induction l; simpl; [done|]. by f_equal. Qed.

(** The scopes below a scope whose children are the scopes of a sequence
    of templates with distinct identities are the scopes of those
    templates and of the templates inside them, in document order. *)
Lemma templates_scopeKeys (children : list Node) :
  Forall (λ node, NoDup (tpl_id <$> templatesOf node) →
                  ∀ chain, itemKey <$> flat_map (λ t, allScopes (childScopeOf t) chain)
                                         (directTemplates node)
                           = (λ t, Some (tpl_id t)) <$> templatesOf node)
         children →
  NoDup (tpl_id <$> flat_map templatesOf children) →
  ∀ chain, itemKey <$> flat_map (λ t, allScopes (childScopeOf t) chain)
                         (flat_map directTemplates children)
           = (λ t, Some (tpl_id t)) <$> flat_map templatesOf children.
Proof.
  induction 1 as [|child children Hchild _ IH]; intros Hdistinct chain; simpl; [done|].
  simpl in Hdistinct. rewrite fmap_app in Hdistinct.
  apply NoDup_app in Hdistinct as (Hhere & _ & Hthere).
  rewrite flat_map_app, !fmap_app. f_equal; [by apply Hchild|by apply IH].
Qed.

Lemma childScopes_scopeKeys scope (children : list Node) chain :
  childScopes scope = setChildScopes [] (flat_map directTemplates children) →
  Forall (λ node, NoDup (tpl_id <$> templatesOf node) →
                  ∀ chain, itemKey <$> flat_map (λ t, allScopes (childScopeOf t) chain)
                                         (directTemplates node)
                           = (λ t, Some (tpl_id t)) <$> templatesOf node)
         children →
  NoDup (tpl_id <$> flat_map templatesOf children) →
  itemKey <$> allScopes scope chain
  = scopeKey scope :: ((λ t, Some (tpl_id t)) <$> flat_map templatesOf children).
Proof.
  intros Hchildren IH Hdistinct. rewrite allScopes_eq, fmap_cons. f_equal.
  rewrite Hchildren, setChildScopes_distinct by by apply directTemplates_distinct.
  simpl. rewrite flat_map_fmap. simpl. by apply templates_scopeKeys.
Qed.

Lemma template_scopeKeys node :
  NoDup (tpl_id <$> templatesOf node) →
  ∀ chain, itemKey <$> flat_map (λ t, allScopes (childScopeOf t) chain) (directTemplates node)
           = (λ t, Some (tpl_id t)) <$> templatesOf node.
Proof.
  induction node as [element IH|t IH| | | |] using Node_ind'; simpl; try done.
  - by apply templates_scopeKeys.
  - intros Hdistinct chain. apply NoDup_cons in Hdistinct as [_ Hdistinct].
    rewrite app_nil_r.
    rewrite (childScopes_scopeKeys _ (tpl_children t)); [|apply childScopeOf_childScopes|done..].
    unfold scopeKey. by rewrite childScopeOf_template.
Qed.

Lemma Scope_apply_scopeKeys nodes :
  distinctTemplates nodes →
  itemKey <$> allScopes (Scope_apply nodes) []
  = None :: ((λ t, Some (tpl_id t)) <$> flat_map templatesOf nodes).
Proof.
  intros Hdistinct.
  rewrite (childScopes_scopeKeys _ nodes); [|apply Scope_apply_childScopes| |done].
  - unfold scopeKey. by rewrite Scope_apply_template.
  - apply Forall_forall. intros node _. apply template_scopeKeys.
Qed.

Lemma Scope_apply_distinct nodes :
  distinctTemplates nodes → NoDup (itemKey <$> allScopes (Scope_apply nodes) []).
Proof.
  intros Hdistinct. rewrite Scope_apply_scopeKeys by done. apply NoDup_cons. split.
  - intros Hin. apply list_elem_of_fmap in Hin as (t & Heq & _). discriminate.
  - unfold distinctTemplates in Hdistinct.
    change (λ t : Template, Some (tpl_id t)) with (Some ∘ @tpl_id Node).
    rewrite (list_fmap_compose tpl_id Some).
    apply NoDup_fmap_2; [|done]. intros x y. congruence.
Qed.

(** *** Entities are declared under their names *)

Lemma maybeDeclare_keyed thing this :
  keyed (namedEntities this) → keyed (namedEntities (maybeDeclare thing this)).
Proof.
  unfold maybeDeclare. intros Hkeyed. case_decide; [done|]. simpl.
  intros name e. destruct (decide (entityName thing = name)) as [<-|Hne].
  - rewrite lookup_insert_eq. congruence.
  - rewrite lookup_insert_ne by done. apply Hkeyed.
Qed.

Lemma visit_keyed node : ∀ this,
  keyed (namedEntities this) → keyed (namedEntities (visit node this)).
Proof.
  induction node as [element IH|t IH| | | |] using Node_ind'; intros this Hkeyed;
    simpl; try done.
  - apply (forEach_invariant (λ s, keyed (namedEntities s))).
    + intros child s Hchild Hs. rewrite Forall_forall in IH. by apply IH.
    + apply (forEach_invariant (λ s, keyed (namedEntities s))); [|done].
      intros r s _ Hs. by apply maybeDeclare_keyed.
  - apply (forEach_invariant (λ s, keyed (namedEntities s))); [|done].
    intros r s _ Hs. by apply maybeDeclare_keyed.
Qed.

Lemma childScopeOf_keyed t : keyed (namedEntities (childScopeOf t)).
Proof.
  unfold childScopeOf, ingest, ingestWith.
  apply (forEach_invariant (λ s, keyed (namedEntities s))).
  - intros child s _ Hs. by apply visit_keyed.
  - apply (forEach_invariant (λ s, keyed (namedEntities s))); [|done].
    intros v s _ Hs. by apply maybeDeclare_keyed.
Qed.

Lemma Scope_apply_keyed nodes : keyed (namedEntities (Scope_apply nodes)).
Proof.
  unfold Scope_apply, ingest, ingestWith.
  apply (forEach_invariant (λ s, keyed (namedEntities s))); [|done].
  intros child s _ Hs. by apply visit_keyed.
Qed.

Lemma setChildScopes_elem templates : ∀ m c,
  c ∈ setChildScopes m templates →
  c ∈ m ∨ ∃ t, t ∈ templates ∧ c.2 = childScopeOf t.
Proof.
  induction templates as [|t templates IH] using rev_ind; intros m c; [by left|].
  unfold setChildScopes in *. rewrite foldl_app. simpl. intros Hc.
  apply set_elem in Hc as [Hc| ->].
  - destruct (IH _ _ Hc) as [Hm|(t' & Ht' & Heq)]; [by left|].
    right. exists t'. split; [|done]. apply elem_of_app. by left.
  - right. exists t. split; [|done]. apply elem_of_app. right. apply list_elem_of_here.
Qed.

Lemma templates_scopes_keyed (children : list Node) scope chain item :
  childScopes scope = setChildScopes [] (flat_map directTemplates children) →
  keyed (namedEntities scope) →
  Forall (λ node, ∀ t chain item,
            t ∈ directTemplates node → item ∈ allScopes (childScopeOf t) chain →
            keyed (namedEntities item.1)) children →
  item ∈ allScopes scope chain → keyed (namedEntities item.1).
Proof.
  intros Hchildren Hscope IH Hitem. rewrite allScopes_eq in Hitem.
  apply elem_of_cons in Hitem as [->|Hitem]; [done|].
  apply elem_of_flat_map in Hitem as (child & Hchild & Hitem).
  rewrite Hchildren in Hchild.
  apply setChildScopes_elem in Hchild as [Hchild|(t & Ht & Heq)];
    [by apply elem_of_nil in Hchild|].
  rewrite Heq in Hitem.
  apply elem_of_flat_map in Ht as (node & Hnode & Ht).
  rewrite Forall_forall in IH. by eapply IH.
Qed.

Lemma template_scopes_keyed node : ∀ t chain item,
  t ∈ directTemplates node → item ∈ allScopes (childScopeOf t) chain →
  keyed (namedEntities item.1).
Proof.
  induction node as [element IH|t0 IH| | | |] using Node_ind'; simpl;
    intros t' chain item Ht Hitem; try by apply elem_of_nil in Ht.
  - apply elem_of_flat_map in Ht as (child & Hchild & Ht).
    rewrite Forall_forall in IH. by eapply IH.
  - apply list_elem_of_singleton in Ht as ->.
    eapply (templates_scopes_keyed (tpl_children t0)); [| |done|done].
    + apply childScopeOf_childScopes.
    + apply childScopeOf_keyed.
Qed.

Lemma Scope_apply_scopes_keyed nodes item :
  item ∈ allScopes (Scope_apply nodes) [] → keyed (namedEntities item.1).
Proof.
  apply (templates_scopes_keyed nodes).
  - apply Scope_apply_childScopes.
  - apply Scope_apply_keyed.
  - apply Forall_forall. intros node _. apply template_scopes_keyed.
Qed.

(** The parent of a scope of the tree is a scope of the tree. *)
Lemma allScopes_parent scope parent grandparents : ∀ root chain,
  (scope, parent :: grandparents) ∈ allScopes root chain →
  (parent, grandparents) ∈ allScopes root chain ∨ parent :: grandparents = chain.
Proof.
  induction root as [named children template IH] using Scope_ind'. intros chain Hin.
  rewrite allScopes_eq in Hin |- *. apply elem_of_cons in Hin as [Heq|Hin].
  - right. congruence.
  - left. apply elem_of_flat_map in Hin as (child & Hchild & Hin).
    rewrite Forall_forall in IH. destruct (IH child Hchild _ Hin) as [Hparent|Heq].
    + apply list_elem_of_further, elem_of_flat_map. by exists child.
    + injection Heq as -> ->. apply list_elem_of_here.
Qed.

Lemma mergedEntities_keyed root : ∀ parents scope,
  (∀ item, item ∈ allScopes root [] → keyed (namedEntities item.1)) →
  (scope, parents) ∈ allScopes root [] →
  keyed (mergedEntities scope parents).
Proof.
  intros parents scope Hkeyed. revert scope.
  induction parents as [|parent grandparents IH]; intros scope Hin; simpl.
  - apply (Hkeyed _ Hin).
  - intros name e He. apply lookup_union_Some_raw in He as [He|[_ He]].
    + by apply (Hkeyed _ Hin).
    + apply allScopes_parent in Hin as [Hin|?]; [|done]. by apply (IH _ Hin).
Qed.

Lemma bind_templateEntities this nodes :
  distinctTemplates nodes →
  ∃ bt, bind this (mkTarget (Some nodes)) = Ok bt ∧
        bt_templateEntities bt = extractTemplateEntities (Scope_apply nodes).
Proof.
  intros Hdistinct. unfold bind. simpl.
  destruct (applyWithScope_ok nodes) as [tb ->]; [by apply consistentList_NoDup|].
  simpl. by eexists.
Qed.

Lemma nestedFor_entities_evaluated :
  match bind noDirectives nestedFor with
  | Ok bt => Some (elements (getEntitiesInTemplateScope bt (Some innerFor)),
                   elements (getEntitiesInTemplateScope bt (Some outerFor)))
  | Throw _ => None
  end = Some ([EVar innerItem], [EVar outerItem]).
Proof. vm_compute. reflexivity. Qed.

(** C2, as stated, fails: in the two nested [*ngFor] that both declare
    [item], the entities in the scope of the inner template hold the inner
    variable and not the outer one, which [item] names in the parent
    scope. *)
Lemma shadowed_entity_is_replaced :
  namedEntities (childScopeOf innerFor) !! "item" = Some (EVar innerItem) ∧
  namedEntities (childScopeOf outerFor) !! "item" = Some (EVar outerItem) ∧
  ∃ bt, bind noDirectives nestedFor = Ok bt ∧
        EVar innerItem ∈ getEntitiesInTemplateScope bt (Some innerFor) ∧
        (EVar outerItem ∉ getEntitiesInTemplateScope bt (Some innerFor)) ∧
        EVar outerItem ∈ getEntitiesInTemplateScope bt (Some outerFor).
Proof.
  split; [by vm_compute|]. split; [by vm_compute|].
  pose proof nestedFor_entities_evaluated as H.
  destruct (bind noDirectives nestedFor) as [bt|]; [|done].
  exists bt. injection H as Hinner Houter. split; [done|].
  rewrite <- !elem_of_elements, Hinner, Houter.
  split; [apply list_elem_of_here|]. split; [|apply list_elem_of_here].
  intros Hin. apply list_elem_of_singleton in Hin. discriminate.
Qed.

(** C2, amended.  In a template whose [Template] nodes are distinct, take
    a scope of the tree that [Scope.apply] builds, with its chain of
    parents, and a name that the scope declares and that the lookup from
    its parent finds bound to another entity.  Then [bind] returns, the
    lookup from the scope finds the entity of the scope, and the entities
    in the scope of its template are the values of the map that holds the
    declarations of the scope and, for the other names only, what the
    parent sees: they contain the entity of the scope and not the one of
    the parent, which stays among the entities in the scope of the parent's
    template. *)
Theorem redeclared_entity_replaces_parent (this : R3TargetBinder) (nodes : list Node)
    (scope parent : Scope) (grandparents : list Scope) (name : string)
    (childEntity parentEntity : Entity) :
  distinctTemplates nodes →
  (scope, parent :: grandparents) ∈ allScopes (Scope_apply nodes) [] →
  namedEntities scope !! name = Some childEntity →
  lookup name parent grandparents = Some parentEntity →
  childEntity ≠ parentEntity →
  ∃ bt, bind this (mkTarget (Some nodes)) = Ok bt ∧
        lookup name scope (parent :: grandparents) = Some childEntity ∧
        getEntitiesInTemplateScope bt (template scope)
        = map_img (mergedEntities scope (parent :: grandparents)) ∧
        childEntity ∈ getEntitiesInTemplateScope bt (template scope) ∧
        (parentEntity ∉ getEntitiesInTemplateScope bt (template scope)) ∧
        parentEntity ∈ getEntitiesInTemplateScope bt (template parent).
Proof.
  intros Hdistinct Hscope Hchild Hparent Hne.
  destruct (bind_templateEntities this nodes Hdistinct) as (bt & Hbind & Hentities).
  exists bt. split; [done|].
  assert (lookup name scope (parent :: grandparents) = Some childEntity) as Hlookup
    by (simpl; by rewrite Hchild).
  split; [done|].
  pose proof (Scope_apply_distinct nodes Hdistinct) as Hkeys.
  assert ((parent, grandparents) ∈ allScopes (Scope_apply nodes) []) as Hparentscope.
  { by apply allScopes_parent in Hscope as [?|?]. }
  assert (∀ s ps, (s, ps) ∈ allScopes (Scope_apply nodes) [] →
                  getEntitiesInTemplateScope bt (template s) = map_img (mergedEntities s ps))
    as Hset.
  { intros s ps Hs. unfold getEntitiesInTemplateScope. rewrite Hentities.
    change (tpl_id <$> template s) with (scopeKey s).
    by rewrite (extractTemplateEntities_spec _ s ps). }
  rewrite (Hset _ _ Hscope), (Hset _ _ Hparentscope). split; [done|].
  rewrite !elem_of_map_img. split; [|split].
  - exists name. by rewrite mergedEntities_lookup.
  - intros [key Hkey].
    assert (entityName parentEntity = key) as <-.
    { eapply mergedEntities_keyed; [|exact Hscope|exact Hkey].
      intros item. apply Scope_apply_scopes_keyed. }
    assert (entityName parentEntity = name) as Hname.
    { eapply (mergedEntities_keyed _ grandparents parent); [|exact Hparentscope|].
      - intros item. apply Scope_apply_scopes_keyed.
      - by rewrite mergedEntities_lookup. }
    rewrite Hname, mergedEntities_lookup in Hkey. congruence.
  - exists name. by rewrite mergedEntities_lookup.
Qed.

Lemma redeclared_entity_replaces_parent_witness :
  ∃ bt, bind noDirectives (mkTarget (Some [NTemplate outerFor])) = Ok bt ∧
        lookup "item" (childScopeOf innerFor)
          [childScopeOf outerFor; Scope_apply [NTemplate outerFor]]
        = Some (EVar innerItem) ∧
        getEntitiesInTemplateScope bt (template (childScopeOf innerFor))
        = map_img (mergedEntities (childScopeOf innerFor)
                     [childScopeOf outerFor; Scope_apply [NTemplate outerFor]]) ∧
        EVar innerItem ∈ getEntitiesInTemplateScope bt (template (childScopeOf innerFor)) ∧
        (EVar outerItem ∉ getEntitiesInTemplateScope bt (template (childScopeOf innerFor))) ∧
        EVar outerItem ∈ getEntitiesInTemplateScope bt (template (childScopeOf outerFor)).
Proof.
  apply (redeclared_entity_replaces_parent noDirectives [NTemplate outerFor]
           (childScopeOf innerFor) (childScopeOf outerFor) [Scope_apply [NTemplate outerFor]]
           "item" (EVar innerItem) (EVar outerItem)).
  - apply (bool_decide_unpack _). vm_compute. exact I.
  - apply list_elem_of_In. vm_compute. right. right. left. reflexivity.
  - vm_compute. reflexivity.
  - vm_compute. reflexivity.
  - discriminate.
Defined.

End BinderFacts.

(** * Properties of the parser *)

Module ParserFacts.
Import ExprParser.
#[local] Open Scope Z_scope.

(** ** Spans *)

(** The span that [_ParseAST.span] returns has [start <= end], whatever
    the state and the arguments: the two indexes are swapped when they are
    out of order. *)
Lemma span_ordered this start artificialEndIndex :
  wfSpan (span this start artificialEndIndex).
Proof.
  unfold span, wfSpan.
  destruct artificialEndIndex as [a|]; repeat case_match; simpl; lia.
Qed.

Lemma span_swaps this start :
  currentEndIndex this < start →
  span this start None = mkParseSpan (currentEndIndex this) start.
Proof. intros H. unfold span. case_match; [done|lia]. Qed.

(** ** Running a method *)

Lemma wp_ret {A} (a : A) s Q : Q a s → wp (ret a) s Q.
Proof. intros H. by exists a, s. Qed.

Lemma wp_bind {A B} (m : M A) (k : A → M B) s Q :
  wp m s (λ a s', wp (k a) s' Q) → wp (bind m k) s Q.
Proof.
  intros (a & s' & Hm & b & s'' & Hk & HQ). exists b, s''.
  unfold bind. by rewrite Hm.
Qed.

Lemma wp_gets {A} (f : _ParseAST → A) s Q : Q (f s) s → wp (gets f) s Q.
Proof. intros H. by exists (f s), s. Qed.

Lemma wp_modify (f : _ParseAST → _ParseAST) s Q : Q tt (f s) → wp (modify f) s Q.
Proof. intros H. by exists tt, (f s). Qed.

Lemma wp_conseq {A} (m : M A) s (Q Q' : A → _ParseAST → Prop) :
  wp m s Q → (∀ a s', Q a s' → Q' a s') → wp m s Q'.
Proof. intros (a & s' & Hm & HQ) H. exists a, s'. auto. Qed.

(** A step that changes neither the tokens nor the index. *)
Lemma wp_modify_same (f : _ParseAST → _ParseAST) s Q :
  tokens (f s) = tokens s → index (f s) = index s →
  (∀ s', tokens s' = tokens s → index s' = index s → Q tt s') →
  wp (modify f) s Q.
Proof. intros Ht Hi H. apply wp_modify. by apply H. Qed.

Lemma wp_advance s Q :
  (∀ s', tokens s' = tokens s → index s' = S (index s) → Q tt s') →
  wp advance s Q.
Proof. intros H. apply wp_modify. by apply H. Qed.

Lemma wp_pushError e s Q :
  (∀ s', tokens s' = tokens s → index s' = index s → Q tt s') →
  wp (pushError e) s Q.
Proof. intros H. apply wp_modify. by apply H. Qed.

(** ** The token under the index *)

Lemma next_EOF s : (length (tokens s) ≤ index s)%nat → next s = EOF.
Proof.
  intros H. unfold next, peek. case_match eqn:Hlt; [|done].
  apply Z.ltb_lt in Hlt. lia.
Qed.

(** A test that fails on the end-of-input token succeeds only on a token
    that is there. *)
Lemma next_present (p : Token → bool) s :
  p EOF = false → p (next s) = true → (index s < length (tokens s))%nat.
Proof.
  intros HEOF Hp. destruct (decide (index s < length (tokens s))%nat); [done|].
  rewrite next_EOF in Hp; [congruence|lia].
Qed.

Lemma nextOperatorIn_present operators s operator :
  nextOperatorIn operators s = Some operator → (index s < length (tokens s))%nat.
Proof.
  unfold nextOperatorIn. case_decide as Htype; [|done]. intros _.
  apply (next_present (λ tok, bool_decide (tok_type tok = TokenType.Operator))); [done|].
  by apply bool_decide_eq_true.
Qed.

(** ** The helpers of the productions *)

Ltac wp_simple_step :=
  lazymatch goal with
  | |- wp (bind _ _) _ _ => apply wp_bind
  | |- wp (ret _) _ _ => apply wp_ret
  | |- wp (gets _) _ _ => apply wp_gets
  | |- wp (pushError _) _ _ => apply wp_pushError; intros ? ? ?
  | |- wp advance _ _ => apply wp_advance; intros ? ? ?
  | |- wp (modify _) _ _ => apply wp_modify_same; [reflexivity|reflexivity|intros ? ? ?]
  end; cbv beta.

(** Run a helper by its lemma. *)
Tactic Notation "wp_use" tactic3(tac) "as" simple_intropattern(a)
    simple_intropattern(s) simple_intropattern(H) :=
  eapply wp_conseq; [tac|intros a s H; cbv beta in *].

(** Close an arithmetic goal about indexes from the facts about the
    states met so far. *)
Ltac arith :=
  unfold ext, consumed, remaining in *;
  repeat match goal with
         | H : _ ∧ _ |- _ => destruct H
         end;
  repeat split;
  first [ congruence
        | repeat match goal with
                 | H : tokens ?a = tokens ?b |- _ =>
                     apply (f_equal (@length Token)) in H
                 end;
          lia ].

Lemma sourceSpan_spec start artificialEndIndex s :
  wp (sourceSpan start artificialEndIndex) s (λ _ s', ext s s').
Proof.
  unfold sourceSpan. repeat wp_simple_step.
  case_match; repeat wp_simple_step; arith.
Qed.

Lemma spans_spec start s :
  wp (spans start) s (λ r s', ext s s' ∧ wfSpan r.1).
Proof.
  unfold spans. repeat wp_simple_step.
  wp_use (apply sourceSpan_spec) as sourceSpan s' Hext.
  wp_simple_step. split; [done|]. apply span_ordered.
Qed.

Lemma skipLoop_spec n s : wp (skipLoop n) s (λ _ s', ext s s').
Proof.
  revert s. induction n as [|n IH]; intros s; simpl.
  - wp_simple_step. arith.
  - wp_simple_step. wp_simple_step. case_match.
    + do 3 wp_simple_step.
      case_match; repeat wp_simple_step; wp_use (apply IH) as ? s'' Hext; arith.
    + wp_simple_step. arith.
Qed.

Lemma skip_spec s : wp skip s (λ _ s', ext s s').
Proof. unfold skip. repeat wp_simple_step. apply skipLoop_spec. Qed.

Lemma error_spec message index s : wp (error message index) s (λ _ s', ext s s').
Proof.
  unfold error. repeat wp_simple_step.
  wp_use (apply skip_spec) as ? s'' Hext. arith.
Qed.

Lemma _reportErrorForPrivateIdentifier_spec token extraMessage s :
  wp (_reportErrorForPrivateIdentifier token extraMessage) s (λ _ s', ext s s').
Proof. apply error_spec. Qed.

Lemma consumeOptionalCharacter_spec code s :
  code ≠ 0 →
  wp (consumeOptionalCharacter code) s
     (λ b s', ext s s' ∧ (b = true → consumed s s')).
Proof.
  intros Hcode. unfold consumeOptionalCharacter. repeat wp_simple_step.
  destruct (isCharacter (next s) code) eqn:Hc; repeat wp_simple_step.
  - assert (index s < length (tokens s))%nat.
    { apply (next_present (λ tok, isCharacter tok code)); [|done].
      by destruct code. }
    split; [arith|]. intros _. arith.
  - split; [arith|done].
Qed.

Lemma consumeOptionalOperator_spec op s :
  wp (consumeOptionalOperator op) s
     (λ b s', ext s s' ∧ (b = true → consumed s s')).
Proof.
  unfold consumeOptionalOperator. repeat wp_simple_step.
  destruct (isOperator (next s) op) eqn:Hc; repeat wp_simple_step.
  - assert (index s < length (tokens s))%nat.
    { by apply (next_present (λ tok, isOperator tok op)). }
    split; [arith|]. intros _. arith.
  - split; [arith|done].
Qed.

Lemma expectCharacter_spec code s :
  code ≠ 0 → wp (expectCharacter code) s (λ _ s', ext s s').
Proof.
  intros Hcode. unfold expectCharacter. wp_simple_step.
  wp_use (by apply consumeOptionalCharacter_spec) as [] s' [Hext _].
  - wp_simple_step. done.
  - wp_use (apply error_spec) as ? s'' Hext'. arith.
Qed.

Lemma expectIdentifierOrKeyword_spec s :
  wp expectIdentifierOrKeyword s
     (λ r s', ext s s' ∧ (r ≠ None → consumed s s')).
Proof.
  unfold expectIdentifierOrKeyword. repeat wp_simple_step.
  destruct (negb (isIdentifier (next s)) && negb (isKeyword (next s))) eqn:Hc.
  - wp_simple_step.
    assert (wp (if isPrivateIdentifier (next s)
                then _reportErrorForPrivateIdentifier (next s)
                       (Some "expected identifier or keyword")
                else error ("Unexpected " +:+ prettyPrintToken (next s)
                            +:+ ", expected identifier or keyword") None)
               s (λ _ s', ext s s')) as Hreport.
    { case_match; apply error_spec. }
    wp_use (exact Hreport) as ? s' Hext.
    wp_simple_step. split; [done|]. by intros [].
  - assert (index s < length (tokens s))%nat.
    { apply (next_present (λ tok, negb (negb (isIdentifier tok) && negb (isKeyword tok))));
        [done|]. by rewrite Hc. }
    repeat wp_simple_step. split; [arith|]. intros _. arith.
Qed.

Lemma expectIdentifierOrKeywordOrString_spec s :
  wp expectIdentifierOrKeywordOrString s
     (λ _ s', ext s s' ∧ (isString (next s) = true → consumed s s')).
Proof.
  unfold expectIdentifierOrKeywordOrString. repeat wp_simple_step.
  destruct (negb (isIdentifier (next s)) && negb (isKeyword (next s))
            && negb (isString (next s))) eqn:Hc.
  - wp_simple_step.
    assert (wp (if isPrivateIdentifier (next s)
                then _reportErrorForPrivateIdentifier (next s)
                       (Some "expected identifier, keyword or string")
                else error ("Unexpected " +:+ prettyPrintToken (next s)
                            +:+ ", expected identifier, keyword, or string") None)
               s (λ _ s', ext s s')) as Hreport.
    { case_match; apply error_spec. }
    wp_use (exact Hreport) as ? s' Hext.
    wp_simple_step. split; [done|]. intros Hs. rewrite Hs in Hc.
    by rewrite andb_false_r in Hc.
  - assert (index s < length (tokens s))%nat.
    { apply (next_present (λ tok, negb (negb (isIdentifier tok) && negb (isKeyword tok)
                                          && negb (isString tok)))); [done|]. by rewrite Hc. }
    repeat wp_simple_step. split; [arith|]. intros _. arith.
Qed.

Lemma consumeOptionalAssignment_spec s :
  wp consumeOptionalAssignment s
     (λ b s', ext s s' ∧ (b = true → consumed s s')).
Proof.
  unfold consumeOptionalAssignment. repeat wp_simple_step.
  case_match eqn:Hc.
  - assert (index s < length (tokens s))%nat.
    { apply (next_present (λ tok, isOperator tok "!")); [done|].
      apply andb_true_iff in Hc as [Hc _]. by apply andb_true_iff in Hc as [_ Hc]. }
    repeat wp_simple_step. split; [arith|]. intros _. arith.
  - apply consumeOptionalOperator_spec.
Qed.

Lemma consumeAll_spec n code s :
  code ≠ 0 → wp (consumeAll n code) s (λ _ s', ext s s').
Proof.
  intros Hcode. revert s. induction n as [|n IH]; intros s; simpl.
  - wp_simple_step. arith.
  - wp_simple_step.
    wp_use (by apply consumeOptionalCharacter_spec) as [] s' [Hext _].
    + wp_use (apply IH) as ? s'' Hext'. arith.
    + wp_simple_step. done.
Qed.

(** ** Every production returns *)

Lemma All_app {A} (P : A → Prop) l1 l2 : All P (l1 ++ l2) ↔ All P l1 ∧ All P l2.
Proof.
  unfold All. induction l1 as [|a l1 IH]; simpl; [tauto|]. rewrite IH. tauto.
Qed.

Lemma All_nil {A} (P : A → Prop) : All P [] ↔ True.
Proof. done. Qed.

Lemma All_cons {A} (P : A → Prop) a l : All P (a :: l) ↔ P a ∧ All P l.
Proof. done. Qed.

Lemma All_good check l : All (good check) l → check = true → All wfAST l.
Proof.
  intros H Hc. induction l as [|a l IH]; simpl in *; [done|].
  destruct H as [Ha Hl]. split; [by apply Ha|by apply IH].
Qed.

Lemma Spec_use {A} n (m : M A) P s :
  Spec n m P → (remaining s ≤ n)%nat → wp m s (λ a s', ext s s' ∧ P a).
Proof. intros H. apply H. Qed.

(** Use what the tests on the results of the helpers have shown. *)
Ltac note_facts :=
  repeat match goal with
         | H : true = true → _ |- _ => specialize (H eq_refl)
         | H : false = true → _ |- _ => clear H
         | H : Some _ ≠ None → _ |- _ => specialize (H ltac:(discriminate))
         | H : None ≠ None → _ |- _ => clear H
         | H : ?b = true, H' : ?b = true → _ |- _ => specialize (H' H)
         | H : bool_decide _ = true |- _ => apply bool_decide_eq_true in H
         | H : bool_decide _ = false |- _ => apply bool_decide_eq_false in H
         | H : _ ∧ _ |- _ => destruct H
         end;
  repeat match goal with
         | H : ?p (next ?s) = true |- _ =>
             lazymatch goal with
             | _ : (index s < length (tokens s))%nat |- _ => fail
             | _ => assert (index s < length (tokens s))%nat
                      by (apply (next_present p s); [reflexivity|exact H])
             end
         | H : nextOperatorIn _ ?s = Some _ |- _ =>
             lazymatch goal with
             | _ : (index s < length (tokens s))%nat |- _ => fail
             | _ => assert (index s < length (tokens s))%nat
                      by (exact (nextOperatorIn_present _ _ _ H))
             end
         end.

(** Well-formedness goals. *)
Ltac wf :=
  unfold good in *;
  repeat first
    [ progress cbn [wfCall wfRes wfAST fst snd AST_span] in *
    | rewrite All_app
    | rewrite All_cons
    | rewrite All_nil
    | match goal with
      | H : All _ (_ ++ _) |- _ => apply (proj1 (All_app _ _ _)) in H
      | H : All _ (_ :: _) |- _ => apply (proj1 (All_cons _ _ _)) in H
      | H : _ ∧ _ |- _ => destruct H
      | |- _ → _ => intros ?
      end
    | split ];
  auto using span_ordered; try (eapply All_good; eassumption).

Section ProductionSpec.
Variable rec : Rec.
Variable n : nat.
Variable rank0 : nat.
Variable check : bool.
Hypothesis Hlow : ∀ B (c' : Production B),
  (rank c' < rank0)%nat → wfCall check c' → Spec n (rec B c') (wfRes check c').
Hypothesis Hany : ∀ n' B (c' : Production B),
  (n' < n)%nat → wfCall check c' → Spec n' (rec B c') (wfRes check c').

Ltac rec_call :=
  lazymatch goal with
  | |- wp (rec _ ?c') ?s _ =>
      first
        [ wp_use (apply (Spec_use n); [apply Hlow; [cbn [rank] in *; lia|wf]|arith])
            as ? ? [? ?]
        | wp_use (apply (Spec_use (remaining s)); [apply Hany; [arith|wf]|lia])
            as ? ? [? ?] ]
  end.

Ltac wp_step :=
  note_facts;
  lazymatch goal with
  | |- wp (bind _ _) _ _ => apply wp_bind
  | |- wp (ret _) _ _ => apply wp_ret
  | |- wp (gets _) _ _ => apply wp_gets
  | |- wp advance _ _ => apply wp_advance; intros ? ? ?
  | |- wp (modify _) _ _ => apply wp_modify_same; [reflexivity|reflexivity|intros ? ? ?]
  | |- wp (sourceSpan _ _) _ _ => wp_use (apply sourceSpan_spec) as ? ? ?
  | |- wp (spans _) _ _ => wp_use (apply spans_spec) as [? ?] ? [? ?]
  | |- wp (error _ _) _ _ => wp_use (apply error_spec) as ? ? ?
  | |- wp (_reportErrorForPrivateIdentifier _ _) _ _ =>
      wp_use (apply _reportErrorForPrivateIdentifier_spec) as ? ? ?
  | |- wp (consumeOptionalCharacter _) _ _ =>
      wp_use (apply consumeOptionalCharacter_spec; done) as [] ? [? ?]
  | |- wp (consumeOptionalOperator _) _ _ =>
      wp_use (apply consumeOptionalOperator_spec) as [] ? [? ?]
  | |- wp (expectCharacter _) _ _ => wp_use (apply expectCharacter_spec; done) as ? ? ?
  | |- wp expectIdentifierOrKeyword _ _ =>
      wp_use (apply expectIdentifierOrKeyword_spec) as [?|] ? [? ?]
  | |- wp expectIdentifierOrKeywordOrString _ _ =>
      wp_use (apply expectIdentifierOrKeywordOrString_spec) as ? ? [? ?]
  | |- wp consumeOptionalAssignment _ _ =>
      wp_use (apply consumeOptionalAssignment_spec) as [] ? [? ?]
  | |- wp (consumeAll _ _) _ _ => wp_use (apply consumeAll_spec; done) as ? ? ?
  | |- wp (withContext _ _) _ _ => unfold withContext
  | |- wp (literal _ _) _ _ => unfold literal
  | |- wp (emptyExpr _) _ _ => unfold emptyExpr
  | |- wp (rec _ _) _ _ => rec_call
  | |- wp (if ?b then _ else _) _ _ => destruct b eqn:?
  | |- wp (match ?x with _ => _ end) _ _ => destruct x eqn:?
  end; cbv beta zeta.

Ltac finish := note_facts; split; [arith|wf].

(** A production returns when the productions it calls do: those of
    lower rank with as many tokens left, and all of them with fewer. *)
Lemma production_spec A (c : Production A) :
  (rank c ≤ rank0)%nat → wfCall check c → Spec n (production rec c) (wfRes check c).
Proof.
  intros Hr Hwf s Hs.
  destruct c; cbn [production];
    unfold parseChain, parseChainLoop, parsePipe, parsePipeLoop, parsePipeArgs,
      parseExpression, parseConditional, parseLogicalOr, parseLogicalOrLoop,
      parseLogicalAnd, parseLogicalAndLoop, parseNullishCoalescing,
      parseNullishCoalescingLoop, parseEquality, parseEqualityLoop, parseRelational,
      parseRelationalLoop, parseAdditive, parseAdditiveLoop, parseMultiplicative,
      parseMultiplicativeLoop, parsePrefix, parseCallChain, parseCallChainLoop,
      parsePrimary, parseExpressionList, parseExpressionListLoop, parseLiteralMap,
      parseLiteralMapLoop, parseAccessMember, parseCall, parseCallArguments,
      parseCallArgumentsLoop, parseKeyedReadOrWrite.
  all: repeat wp_step; finish.
Qed.

End ProductionSpec.

Lemma rank_bound {A} (c : Production A) : (rank c ≤ 17)%nat.
Proof. destruct c; simpl; lia. Qed.

(** With [18 * n + rank c < fuel], a production started with at most [n]
    tokens left returns: a call at the same number of tokens goes to a
    lower rank, and any other call has consumed a token. *)
Lemma run_spec check fuel : ∀ n A (c : Production A),
  (18 * n + rank c < fuel)%nat → wfCall check c →
  Spec n (run fuel A c) (wfRes check c).
Proof.
  induction fuel as [|fuel IH]; intros n A c Hfuel Hwf; [lia|].
  simpl. apply (production_spec (run fuel) n (rank c) check); [| |done..].
  - intros B c' Hrank Hwf'. apply IH; [lia|done].
  - intros n' B c' Hn Hwf'. apply IH; [|done].
    pose proof (rank_bound c'). lia.
Qed.

Lemma run_returns check s A (c : Production A) fuel :
  (fuelFor (tokens s) ≤ fuel)%nat → wfCall check c →
  ∃ a s', run fuel A c s = Some (a, s') ∧ ext s s' ∧ wfRes check c a.
Proof.
  intros Hfuel Hwf.
  apply (run_spec check fuel (remaining s) A c); [|done..].
  pose proof (rank_bound c). unfold fuelFor, remaining in *. lia.
Qed.

Lemma All_good_false l : All (good false) l.
Proof. induction l; simpl; [done|]. split; [by intros ?|done]. Qed.

Lemma wfCall_false {A} (c : Production A) : wfCall false c.
Proof. destruct c; simpl; try done; try apply All_good_false; by intros ?. Qed.

(** One iteration of the loop of [parseChain] returns as soon as the
    sub-parse returns and the loop returns from every state where the index
    is strictly greater: the iteration goes round again only after the
    index has advanced, and ends the loop otherwise. *)
Lemma parseChainLoop_advances (rec : Rec) exprs s :
  (∀ s0, tokens s0 = tokens s → wp (rec _ CParsePipe) s0 (λ _ s1, ext s0 s1)) →
  (∀ exprs' s1, tokens s1 = tokens s → (index s < index s1)%nat →
                wp (rec _ (CParseChainLoop exprs')) s1 (λ _ s2, ext s1 s2)) →
  wp (parseChainLoop rec exprs) s (λ _ s', ext s s').
Proof.
  intros Hpipe Hloop. unfold parseChainLoop.
  repeat first
    [ note_facts;
      lazymatch goal with
      | |- wp (rec _ CParsePipe) _ _ => wp_use (apply Hpipe; arith) as ? ? ?
      | |- wp (rec _ (CParseChainLoop _)) _ _ => wp_use (apply Hloop; arith) as ? ? ?
      | |- wp (bind _ _) _ _ => apply wp_bind
      | |- wp (ret _) _ _ => apply wp_ret
      | |- wp (gets _) _ _ => apply wp_gets
      | |- wp (error _ _) _ _ => wp_use (apply error_spec) as ? ? ?
      | |- wp (consumeOptionalCharacter _) _ _ =>
          wp_use (apply consumeOptionalCharacter_spec; done) as [] ? [? ?]
      | |- wp (consumeAll _ _) _ _ => wp_use (apply consumeAll_spec; done) as ? ? ?
      | |- wp (if ?b then _ else _) _ _ => destruct b eqn:?
      end; cbv beta zeta ];
    note_facts; arith.
Qed.

(** ** The errors array is only appended to *)

Lemma Frame_ret {A} (a : A) : Frame (ret a).
Proof. done. Qed.

Lemma Frame_bind {A B} (m : M A) (k : A → M B) :
  Frame m → (∀ a, Frame (k a)) → Frame (bind m k).
Proof.
  intros Hm Hk s E. unfold bind. rewrite Hm.
  destruct (m s) as [[a s']|]; simpl; [apply Hk|done].
Qed.

Lemma Frame_gets {A} (f : _ParseAST → A) :
  (∀ s E, f (addErrors E s) = f s) → Frame (gets f).
Proof. intros Hf s E. unfold gets. simpl. by rewrite Hf. Qed.

Lemma Frame_modify (f : _ParseAST → _ParseAST) :
  (∀ s E, f (addErrors E s) = addErrors E (f s)) → Frame (modify f).
Proof. intros Hf s E. unfold modify. simpl. by rewrite Hf. Qed.

Lemma Frame_pushError e : Frame (pushError e).
Proof.
  apply Frame_modify. intros s E. unfold addErrors, setErrors. simpl.
  by rewrite app_assoc.
Qed.

Lemma Frame_outOfFuel {A} : Frame (@outOfFuel A).
Proof. done. Qed.

Ltac frame_step :=
  lazymatch goal with
  | |- Frame (bind _ _) => apply Frame_bind; [|intros ?]
  | |- Frame (ret _) => apply Frame_ret
  | |- Frame outOfFuel => apply Frame_outOfFuel
  | |- Frame (gets _) => apply Frame_gets; intros ? ?; reflexivity
  | |- Frame (pushError _) => apply Frame_pushError
  | |- Frame (modify _) => apply Frame_modify; intros ? ?; reflexivity
  | |- Frame (if ?b then _ else _) => destruct b
  | |- Frame (match ?x with _ => _ end) => destruct x
  end.

Lemma Frame_advance : Frame advance.
Proof. unfold advance. frame_step. Qed.

Lemma Frame_sourceSpan start artificialEndIndex : Frame (sourceSpan start artificialEndIndex).
Proof. unfold sourceSpan. repeat frame_step. Qed.

Lemma Frame_spans start : Frame (spans start).
Proof. unfold spans. repeat frame_step. apply Frame_sourceSpan. Qed.

Lemma Frame_skipLoop n : Frame (skipLoop n).
Proof.
  induction n as [|n IH]; simpl; repeat frame_step;
    try apply Frame_advance; try apply IH.
Qed.

Lemma Frame_skip : Frame skip.
Proof. unfold skip. repeat frame_step. apply Frame_skipLoop. Qed.

Lemma Frame_error message index : Frame (error message index).
Proof. unfold error. repeat frame_step. apply Frame_skip. Qed.

Lemma Frame_consumeOptionalCharacter code : Frame (consumeOptionalCharacter code).
Proof. unfold consumeOptionalCharacter. repeat frame_step. apply Frame_advance. Qed.

Lemma Frame_consumeOptionalOperator op : Frame (consumeOptionalOperator op).
Proof. unfold consumeOptionalOperator. repeat frame_step. apply Frame_advance. Qed.

Lemma Frame_expectCharacter code : Frame (expectCharacter code).
Proof.
  unfold expectCharacter. frame_step; [apply Frame_consumeOptionalCharacter|].
  frame_step; [frame_step|apply Frame_error].
Qed.

Lemma Frame_expectIdentifierOrKeyword : Frame expectIdentifierOrKeyword.
Proof.
  unfold expectIdentifierOrKeyword, _reportErrorForPrivateIdentifier.
  repeat frame_step; apply Frame_error || apply Frame_advance.
Qed.

Lemma Frame_expectIdentifierOrKeywordOrString : Frame expectIdentifierOrKeywordOrString.
Proof.
  unfold expectIdentifierOrKeywordOrString, _reportErrorForPrivateIdentifier.
  repeat frame_step; apply Frame_error || apply Frame_advance.
Qed.

Lemma Frame_consumeOptionalAssignment : Frame consumeOptionalAssignment.
Proof.
  unfold consumeOptionalAssignment. repeat frame_step;
    apply Frame_advance || apply Frame_consumeOptionalOperator.
Qed.

Lemma Frame_consumeAll n code : Frame (consumeAll n code).
Proof.
  induction n as [|n IH]; simpl; repeat frame_step;
    try apply Frame_consumeOptionalCharacter; try apply IH.
Qed.

Lemma Frame_withContext {T} context (cb : M T) : Frame cb → Frame (withContext context cb).
Proof. intros Hcb. unfold withContext. repeat frame_step. done. Qed.

Section ProductionFrame.
Variable rec : Rec.
Hypothesis Hrec : ∀ A (c : Production A), Frame (rec A c).

Ltac frame_production :=
  repeat first
    [ frame_step
    | apply Hrec
    | apply Frame_advance
    | apply Frame_sourceSpan
    | apply Frame_spans
    | apply Frame_error
    | apply Frame_consumeOptionalCharacter
    | apply Frame_consumeOptionalOperator
    | apply Frame_expectCharacter
    | apply Frame_expectIdentifierOrKeyword
    | apply Frame_expectIdentifierOrKeywordOrString
    | apply Frame_consumeOptionalAssignment
    | apply Frame_consumeAll
    | apply Frame_withContext
    | progress unfold literal, emptyExpr, _reportErrorForPrivateIdentifier ].

Lemma production_Frame A (c : Production A) : Frame (production rec c).
Proof.
  destruct c; cbn [production];
    unfold parseChain, parseChainLoop, parsePipe, parsePipeLoop, parsePipeArgs,
      parseExpression, parseConditional, parseLogicalOr, parseLogicalOrLoop,
      parseLogicalAnd, parseLogicalAndLoop, parseNullishCoalescing,
      parseNullishCoalescingLoop, parseEquality, parseEqualityLoop, parseRelational,
      parseRelationalLoop, parseAdditive, parseAdditiveLoop, parseMultiplicative,
      parseMultiplicativeLoop, parsePrefix, parseCallChain, parseCallChainLoop,
      parsePrimary, parseExpressionList, parseExpressionListLoop, parseLiteralMap,
      parseLiteralMapLoop, parseAccessMember, parseCall, parseCallArguments,
      parseCallArgumentsLoop, parseKeyedReadOrWrite.
  all: frame_production.
Qed.
End ProductionFrame.

Lemma run_Frame fuel : ∀ A (c : Production A), Frame (run fuel A c).
Proof.
  induction fuel as [|fuel IH]; intros A c; simpl.
  - apply Frame_outOfFuel.
  - by apply production_Frame.
Qed.

(** ** The parse operations of [Parser] *)

Lemma wfAST_ASTWithSource ast source location absoluteOffset :
  wfAST ast → wfAST (ASTWithSource ast source location absoluteOffset).
Proof.
  intros Hwf. split; [|done]. unfold wfSpan. cbn [AST_span span_start span_end].
  destruct source; unfold jsLength; lia.
Qed.

Lemma new_ParseAST_addErrors input location absoluteOffset tokens parseFlags E offset :
  new_ParseAST input location absoluteOffset tokens parseFlags E offset
  = addErrors E (new_ParseAST input location absoluteOffset tokens parseFlags [] offset).
Proof. unfold addErrors, setErrors, new_ParseAST. simpl. by rewrite app_nil_r. Qed.

(** A [parseChain] on the tokens of a text: it returns an expression with
    ordered spans, and on a parser that already holds errors it returns the
    same expression and appends the same errors. *)
Lemma withParseAST_parseChain lexer input location absoluteOffset sourceToLex parseFlags :
  ∃ ast newErrors,
    wfAST ast ∧
    ∀ E, withParseAST (mkParser lexer E) input location absoluteOffset sourceToLex
           parseFlags (λ tokens, run (fuelFor tokens) _ CParseChain)
         = Some (ast, mkParser lexer (E ++ newErrors)).
Proof.
  set (tokens := tokenize lexer sourceToLex).
  set (s0 := new_ParseAST input location absoluteOffset tokens parseFlags [] 0).
  destruct (run_returns true s0 AST CParseChain (fuelFor tokens))
    as (ast & s1 & Hrun & _ & Hwf); [done..|].
  exists ast, (errors s1). split; [by apply Hwf|]. intros E.
  unfold withParseAST. cbn [_lexer parser_errors]. fold tokens.
  rewrite new_ParseAST_addErrors. fold s0.
  rewrite run_Frame, Hrun. reflexivity.
Qed.

Lemma _checkNoInterpolation_appends input location config :
  ∃ newErrors, ∀ lexer E,
    _checkNoInterpolation input location config (mkParser lexer E)
    = mkParser lexer (E ++ newErrors).
Proof.
  unfold _checkNoInterpolation.
  destruct (_checkNoInterpolationLoop _ _ _ _ _ _) as [startIndex endIndex].
  case_match.
  - eexists. intros lexer E. reflexivity.
  - exists []. intros lexer E. by rewrite app_nil_r.
Qed.

Lemma parseAction_appends lexer input isAssignmentEvent location absoluteOffset config :
  ∃ ast newErrors,
    wfAST ast ∧
    ∀ E, parseAction (mkParser lexer E) input isAssignmentEvent location absoluteOffset
           config
         = Some (ast, mkParser lexer (E ++ newErrors)).
Proof.
  destruct (_checkNoInterpolation_appends input location config) as [errs0 Hcheck].
  destruct (withParseAST_parseChain lexer input location absoluteOffset
              (_stripComments input)
              (if isAssignmentEvent
               then Z.lor ParseFlags.Action ParseFlags.AssignmentEvent
               else ParseFlags.Action)) as (ast & errs1 & Hwf & Hparse).
  exists (ASTWithSource ast (Some input) location absoluteOffset), (errs0 ++ errs1).
  split.
  - by apply wfAST_ASTWithSource.
  - intros E. unfold parseAction. rewrite Hcheck, Hparse. simpl. by rewrite app_assoc.
Qed.

Lemma _parseBindingAst_appends lexer input location absoluteOffset config :
  ∃ ast newErrors,
    wfAST ast ∧
    ∀ E, _parseBindingAst (mkParser lexer E) input location absoluteOffset config
         = Some (ast, mkParser lexer (E ++ newErrors)).
Proof.
  destruct (_checkNoInterpolation_appends input location config) as [errs0 Hcheck].
  destruct (withParseAST_parseChain lexer input location absoluteOffset
              (_stripComments input) ParseFlags.None) as (ast & errs1 & Hwf & Hparse).
  exists ast, (errs0 ++ errs1). split; [done|].
  intros E. unfold _parseBindingAst. rewrite Hcheck, Hparse. by rewrite app_assoc.
Qed.

Lemma parseBinding_appends lexer input location absoluteOffset config :
  ∃ ast newErrors,
    wfAST ast ∧
    ∀ E, parseBinding (mkParser lexer E) input location absoluteOffset config
         = Some (ast, mkParser lexer (E ++ newErrors)).
Proof.
  destruct (_parseBindingAst_appends lexer input location absoluteOffset config)
    as (ast & errs & Hwf & Hparse).
  exists (ASTWithSource ast (Some input) location absoluteOffset), errs. split.
  - by apply wfAST_ASTWithSource.
  - intros E. unfold parseBinding. by rewrite Hparse.
Qed.

Lemma parseSimpleBinding_appends lexer input location absoluteOffset config :
  ∃ ast newErrors,
    wfAST ast ∧
    ∀ E, parseSimpleBinding (mkParser lexer E) input location absoluteOffset config
         = Some (ast, mkParser lexer (E ++ newErrors)).
Proof.
  destruct (_parseBindingAst_appends lexer input location absoluteOffset config)
    as (ast & errs & Hwf & Hparse).
  exists (ASTWithSource ast (Some input) location absoluteOffset).
  destruct (decide (0 < length (checkSimpleExpression ast))%nat) as [Hpipes|Hnone].
  - eexists (errs ++ [_]). split.
    + by apply wfAST_ASTWithSource.
    + intros E. unfold parseSimpleBinding. rewrite Hparse. simpl.
      rewrite decide_True by done. unfold _reportError. simpl. by rewrite app_assoc.
  - exists errs. split.
    + by apply wfAST_ASTWithSource.
    + intros E. unfold parseSimpleBinding. rewrite Hparse. simpl.
      by rewrite decide_False by done.
Qed.

Lemma parseWith_appends operation lexer input location absoluteOffset config :
  ∃ ast newErrors,
    wfAST ast ∧
    ∀ E, parseWith operation (mkParser lexer E) input location absoluteOffset config
         = Some (ast, mkParser lexer (E ++ newErrors)).
Proof.
  destruct operation; simpl.
  - apply parseAction_appends.
  - apply parseBinding_appends.
  - apply parseSimpleBinding_appends.
Qed.

(** ** Spans, termination and the error list *)

Lemma span_min_max this start artificialEndIndex :
  span this start artificialEndIndex
  = let endIndex := match artificialEndIndex with
                    | Some artificialEndIndex =>
                        Z.max (currentEndIndex this) artificialEndIndex
                    | None => currentEndIndex this
                    end in
    mkParseSpan (Z.min start endIndex) (Z.max start endIndex).
Proof.
  unfold span. destruct artificialEndIndex as [a|]; cbv zeta.
  - destruct (a >? currentEndIndex this) eqn:Ha.
    + rewrite Z.max_r by lia. case_match; f_equal; lia.
    + rewrite Z.max_l by lia. case_match; f_equal; lia.
  - case_match; f_equal; lia.
Qed.

(** C9.  Every [ParseSpan] that [_ParseAST.span] makes has
    [start <= end]: it runs from the smaller to the greater of [start] and
    the end index, which is the swap of the source.  Hence every node of
    the expression that [parseChain] returns, from any state, has a
    relative span with [start <= end]; so has every node of the result of
    any other production that is given such expressions, and of the result
    of [parseAction], [parseBinding] and [parseSimpleBinding]. *)
Theorem span_start_le_end :
  (∀ this start artificialEndIndex,
     span this start artificialEndIndex
     = let endIndex := match artificialEndIndex with
                       | Some artificialEndIndex =>
                           Z.max (currentEndIndex this) artificialEndIndex
                       | None => currentEndIndex this
                       end in
       mkParseSpan (Z.min start endIndex) (Z.max start endIndex)) ∧
  (∀ this start artificialEndIndex, wfSpan (span this start artificialEndIndex)) ∧
  (∀ s : _ParseAST, ∃ ast s',
     run (fuelFor (tokens s)) _ CParseChain s = Some (ast, s') ∧ wfAST ast) ∧
  (∀ (s : _ParseAST) A (c : Production A),
     wfCall true c →
     ∃ a s', run (fuelFor (tokens s)) A c s = Some (a, s') ∧ wfRes true c a) ∧
  (∀ operation this input location absoluteOffset config, ∃ ast this',
     parseWith operation this input location absoluteOffset config = Some (ast, this')
     ∧ wfAST ast).
Proof.
  split; [exact span_min_max|]. split; [exact span_ordered|]. split; [|split].
  - intros s.
    destruct (run_returns true s AST CParseChain (fuelFor (tokens s)))
      as (ast & s' & Hrun & _ & Hwf); [done..|].
    exists ast, s'. split; [done|]. by apply Hwf.
  - intros s A c Hc.
    destruct (run_returns true s A c (fuelFor (tokens s)))
      as (a & s' & Hrun & _ & Hwf); [done..|].
    by exists a, s'.
  - intros operation [lexer E] input location absoluteOffset config.
    destruct (parseWith_appends operation lexer input location absoluteOffset config)
      as (ast & errs & Hwf & Hparse).
    exists ast, (mkParser lexer (E ++ errs)). by rewrite Hparse.
Qed.

Lemma span_start_le_end_witness :
  let receiver := ImplicitReceiver (mkParseSpan 0 0) (mkAbsoluteSourceSpan 0 0) in
  let s := new_ParseAST "a" EmptyString 0 [mkToken 0 1 TokenType.Identifier 0 "a"] 0 [] 0 in
  ∃ a s', run (fuelFor (tokens s)) _ (CParseAccessMember receiver 0 false) s = Some (a, s')
          ∧ wfRes true (CParseAccessMember receiver 0 false) a.
Proof.
  intros receiver s.
  apply (proj1 (proj2 (proj2 (proj2 span_start_le_end))) s AST
           (CParseAccessMember receiver 0 false)).
  intros _. simpl. unfold wfSpan. simpl. lia.
Defined.

(** C10.  [parseChain] returns from every state, so for every finite list
    of tokens, malformed or not.  One iteration of its loop returns even
    when the loop may be entered again only at a strictly greater index: an
    iteration either has advanced the index when it goes round again, or it
    ends the loop. *)
Theorem parseChain_terminates :
  (∀ s : _ParseAST, ∃ ast s',
     run (fuelFor (tokens s)) _ CParseChain s = Some (ast, s') ∧ ext s s') ∧
  (∀ exprs (s : _ParseAST), ∃ exprs' s',
     parseChainLoop (onlyAfter s (run (fuelFor (tokens s)))) exprs s = Some (exprs', s')
     ∧ ext s s').
Proof.
  split.
  - intros s.
    destruct (run_returns false s AST CParseChain (fuelFor (tokens s)))
      as (ast & s' & Hrun & Hext & _); [done..|].
    by exists ast, s'.
  - intros exprs s.
    change (wp (parseChainLoop (onlyAfter s (run (fuelFor (tokens s)))) exprs) s
              (λ _ s', ext s s')).
    apply parseChainLoop_advances.
    + intros s0 Htokens. unfold wp. simpl.
      destruct (run_returns false s0 AST CParsePipe (fuelFor (tokens s)))
        as (ast & s' & Hrun & Hext & _); [by rewrite Htokens|done|].
      by exists ast, s'.
    + intros exprs' s1 Htokens Hindex. unfold wp. simpl. rewrite decide_True by done.
      destruct (run_returns false s1 _ (CParseChainLoop exprs') (fuelFor (tokens s)))
        as (r & s' & Hrun & Hext & _); [by rewrite Htokens|apply wfCall_false|].
      by exists r, s'.
Qed.

Lemma chained_twice_evaluated :
  match parseBinding (newParser ExampleLexer.lexer) "a; b" "app.html" 0
          DEFAULT_INTERPOLATION_CONFIG with
  | Some (ast1, parser1) =>
      match parseBinding parser1 "a; b" "app.html" 0 DEFAULT_INTERPOLATION_CONFIG with
      | Some (ast2, parser2) =>
          Some (length (resultErrors parser1), length (resultErrors parser2))
      | None => None
      end
  | None => None
  end = Some (1%nat, 2%nat).
Proof. vm_compute. reflexivity. Qed.

(** C3, as stated, fails: the error list is not private to a parse.  The
    second of two equal calls of [parseBinding] on one parser returns a
    result whose error list holds the error twice. *)
Lemma errors_not_private :
  ∃ ast1 parser1 ast2 parser2,
    parseBinding (newParser ExampleLexer.lexer) "a; b" "app.html" 0 DEFAULT_INTERPOLATION_CONFIG
    = Some (ast1, parser1) ∧
    parseBinding parser1 "a; b" "app.html" 0 DEFAULT_INTERPOLATION_CONFIG = Some (ast2, parser2) ∧
    length (resultErrors parser1) = 1%nat ∧
    length (resultErrors parser2) = 2%nat ∧
    resultErrors parser1 ≠ resultErrors parser2.
Proof.
  pose proof chained_twice_evaluated as H.
  destruct (parseBinding (newParser ExampleLexer.lexer) _ _ _ _)
    as [[ast1 parser1]|]; [|done].
  exists ast1, parser1.
  destruct (parseBinding parser1 _ _ _ _) as [[ast2 parser2]|]; [|done].
  exists ast2, parser2. injection H as H1 H2.
  do 4 (split; [done|]). intros Heq. rewrite Heq in H1. congruence.
Qed.

(** C3, amended.  Two calls of a parse operation with the same input and
    parameters on one [Parser] return the same AST.  The error list of the
    results is the one array of the parser: each call appends its errors,
    the same ones both times, so after the second call the list holds them
    twice after what it held before the first. *)
Theorem parse_twice (operation : ParseOperation) (this : Parser) (input location : string)
    (absoluteOffset : Z) (config : InterpolationConfig) :
  ∃ ast newErrors parser1 parser2,
    parseWith operation this input location absoluteOffset config = Some (ast, parser1) ∧
    parseWith operation parser1 input location absoluteOffset config = Some (ast, parser2) ∧
    resultErrors parser1 = resultErrors this ++ newErrors ∧
    resultErrors parser2 = resultErrors this ++ newErrors ++ newErrors.
Proof.
  destruct this as [lexer E].
  destruct (parseWith_appends operation lexer input location absoluteOffset config)
    as (ast & errs & _ & Hparse).
  exists ast, errs, (mkParser lexer (E ++ errs)), (mkParser lexer ((E ++ errs) ++ errs)).
  rewrite !Hparse. unfold resultErrors. simpl. by rewrite <- app_assoc.
Qed.

Lemma interpolation_inside_evaluated :
  match parseBinding (newParser ExampleLexer.lexer) "a {{b}}" "app.html" 0
          DEFAULT_INTERPOLATION_CONFIG with
  | Some (_, parser) => Some (message <$> resultErrors parser)
  | None => None
  end = Some ["Unexpected token '{'"].
Proof. vm_compute. reflexivity. Qed.

(** C5 fails on the code.  For the input [a {{b}}], whose interpolation
    does not start the text, [_checkNoInterpolation] reports nothing, and
    the errors of [parseBinding] do not mention an interpolation; for
    [{{b}}] the error is reported. *)
Theorem interpolation_reported_only_at_start :
  (∀ location this,
     _checkNoInterpolation "a {{b}}" location DEFAULT_INTERPOLATION_CONFIG this = this) ∧
  (∃ ast parser,
     parseBinding (newParser ExampleLexer.lexer) "a {{b}}" "app.html" 0
       DEFAULT_INTERPOLATION_CONFIG = Some (ast, parser) ∧
     message <$> resultErrors parser = ["Unexpected token '{'"] ∧
     interpolationMessage DEFAULT_INTERPOLATION_CONFIG ∉ message <$> resultErrors parser) ∧
  (∀ location lexer,
     resultErrors (_checkNoInterpolation "{{b}}" location DEFAULT_INTERPOLATION_CONFIG
                     (newParser lexer))
     = [mkParserError (interpolationMessage DEFAULT_INTERPOLATION_CONFIG) "{{b}}"
          "at column 0 in" (Some location)]).
Proof.
  split; [|split].
  - intros location this. reflexivity.
  - pose proof interpolation_inside_evaluated as H.
    destruct (parseBinding _ _ _ _ _) as [[ast parser]|]; [|done].
    exists ast, parser. injection H as H. split; [done|]. split; [done|].
    rewrite H. intros Hin. apply list_elem_of_singleton in Hin. revert Hin.
    vm_compute. discriminate.
  - intros location lexer. reflexivity.
Qed.

(** C7.  On a new parser whose lexer gives the eight tokens of
    [let item of items; trackBy: fn], [parseTemplateBindings] for the key
    [ngFor] returns, in order, [ngFor] bound to nothing, the variable
    [item], [ngForOf] bound to the expression [items] and [ngForTrackBy]
    bound to the expression [fn], and the error list stays empty; five
    iterations of its loop are enough.  The names of the two inputs are
    the key followed by the capitalized keyword. *)
Theorem ngFor_template_bindings (lexer : Lexer) (templateUrl : string)
    (absoluteKeyOffset absoluteValueOffset : Z) (fuel : nat) :
  tokenize lexer "let item of items; trackBy: fn" = ngForTokens →
  (5 ≤ fuel)%nat →
  ∃ parser,
    parseTemplateBindings fuel (newParser lexer) "ngFor" "let item of items; trackBy: fn"
      templateUrl absoluteKeyOffset absoluteValueOffset
    = Some (mkTemplateBindingParseResult
              (ngForBindings templateUrl absoluteKeyOffset absoluteValueOffset) [],
            parser) ∧
    resultErrors parser = [] ∧
    "ngFor" +:+ capitalize "of" = "ngForOf" ∧
    "ngFor" +:+ capitalize "trackBy" = "ngForTrackBy".
Proof.
  intros Htokens Hfuel. exists (newParser lexer).
  replace fuel with (5 + (fuel - 5))%nat by lia.
  split; [|done].
  unfold parseTemplateBindings, withParseAST. cbn [_lexer newParser parser_errors].
  rewrite Htokens. vm_compute. reflexivity.
Qed.

Lemma ngFor_template_bindings_witness :
  ∃ parser,
    parseTemplateBindings 8 (newParser ExampleLexer.lexer) "ngFor"
      "let item of items; trackBy: fn" "app.component.html" 10 17
    = Some (mkTemplateBindingParseResult (ngForBindings "app.component.html" 10 17) [],
            parser) ∧
    resultErrors parser = [] ∧
    "ngFor" +:+ capitalize "of" = "ngForOf" ∧
    "ngFor" +:+ capitalize "trackBy" = "ngForTrackBy".
Proof.
  apply (ngFor_template_bindings ExampleLexer.lexer "app.component.html" 10 17 8).
  - vm_compute. reflexivity.
  - lia.
Defined.

End ParserFacts.

(** * Further properties of the binder *)

Module BinderProperties.
Import Binder JsMapFacts BinderFacts.

(** ** Declaring and looking up *)

(** X1: after [maybeDeclare], the name of the entity resolves in the scope:
    to the entity that held the name before, if there was one, and to the
    new entity otherwise.  The other names resolve as before. *)
Theorem lookup_maybeDeclare (thing : Entity) (this : Scope) (parentScope : list Scope) :
  lookup (entityName thing) (maybeDeclare thing this) parentScope
  = Some (default thing (namedEntities this !! entityName thing)) ∧
  ∀ name, name ≠ entityName thing →
          lookup name (maybeDeclare thing this) parentScope = lookup name this parentScope.
Proof.
  unfold maybeDeclare. split.
  - case_decide as Hdeclared.
    + destruct Hdeclared as [e He]. rewrite He. simpl.
      destruct parentScope; simpl; by rewrite He.
    + apply eq_None_not_Some in Hdeclared. rewrite Hdeclared. simpl.
      destruct parentScope; simpl; by rewrite lookup_insert_eq.
  - intros name Hname. case_decide; [done|].
    destruct parentScope; simpl; by rewrite lookup_insert_ne.
Qed.

Lemma lookup_maybeDeclare_witness :
  let this := maybeDeclare (EVar outerItem) newRootScope in
  lookup "item" (maybeDeclare (EVar innerItem) this) [] = Some (EVar outerItem) ∧
  lookup "other" (maybeDeclare (EVar innerItem) this) [] = lookup "other" this [].
Proof.
  intros this.
  destruct (lookup_maybeDeclare (EVar innerItem) this []) as [Hsame Hother].
  split; [exact Hsame|]. apply Hother. discriminate.
Defined.

(** ** Child scopes *)

Lemma get_Some_elem {V} (m : JsMap.t V) k v : JsMap.get m k = Some v → (k, v) ∈ m.
Proof.
  induction m as [|[k' v'] m IH]; simpl; [done|]. case_decide as Hk.
  - intros [= <-]. subst. apply list_elem_of_here.
  - intros Hget. by apply list_elem_of_further, IH.
Qed.

Lemma get_None_keys {V} (m : JsMap.t V) k : JsMap.get m k = None ↔ k ∉ m.*1.
Proof.
  induction m as [|[k' v'] m IH]; simpl.
  - split; [intros _ Hin; by apply elem_of_nil in Hin|done].
  - rewrite not_elem_of_cons. case_decide as Hk.
    + split; [done|]. intros [Hne _]. by destruct Hne.
    + rewrite IH. split; [by intros ?|by intros [_ ?]].
Qed.

Lemma set_keys {V} (m : JsMap.t V) k v k' :
  k' ∈ (JsMap.set m k v).*1 ↔ k' ∈ m.*1 ∨ k' = k.
Proof.
  induction m as [|[k0 v0] m IH]; simpl.
  - rewrite list_elem_of_singleton. split; [by right|]. intros [Hin|?]; [|done].
    by apply elem_of_nil in Hin.
  - case_decide as Hk; simpl; rewrite !elem_of_cons.
    + subst. tauto.
    + rewrite IH. tauto.
Qed.

Lemma setChildScopes_keys templates : ∀ m k,
  k ∈ (setChildScopes m templates).*1 ↔ k ∈ m.*1 ∨ k ∈ tpl_id <$> templates.
Proof.
  induction templates as [|t templates IH] using rev_ind; intros m k.
  - simpl. split; [by left|]. intros [?|Hin]; [done|]. by apply elem_of_nil in Hin.
  - unfold setChildScopes in *. rewrite foldl_app. simpl.
    rewrite set_keys, IH, fmap_app, elem_of_app. simpl. rewrite list_elem_of_singleton.
    tauto.
Qed.

Lemma setChildScopes_entry templates : ∀ m c,
  c ∈ setChildScopes m templates →
  c ∈ m ∨ ∃ t, t ∈ templates ∧ c = (tpl_id t, childScopeOf t).
Proof.
  induction templates as [|t templates IH] using rev_ind; intros m c; [by left|].
  unfold setChildScopes in *. rewrite foldl_app. simpl. intros Hc.
  apply set_elem in Hc as [Hc| ->].
  - destruct (IH _ _ Hc) as [Hm|(t' & Ht' & Heq)]; [by left|].
    right. exists t'. split; [|done]. apply elem_of_app. by left.
  - right. exists t. split; [|done]. apply elem_of_app. right. apply list_elem_of_here.
Qed.

(** X2: in the scope that [Scope.apply] builds for a list of nodes,
    [getChildScope] returns for a [Template] that is one of the templates
    directly in the scope, by identity, and then the scope it returns is
    the one built from such a template; for every other [Template], also
    one nested in a template of the scope, it throws. *)
Theorem getChildScope_direct_templates (nodes : list Node) (template : Template) :
  (tpl_id template ∈ tpl_id <$> flat_map directTemplates nodes →
   ∃ t, t ∈ flat_map directTemplates nodes ∧ tpl_id t = tpl_id template ∧
        getChildScope (Scope_apply nodes) template = Ok (childScopeOf t)) ∧
  (tpl_id template ∉ tpl_id <$> flat_map directTemplates nodes →
   ∃ message, getChildScope (Scope_apply nodes) template = Throw message).
Proof.
  unfold getChildScope. rewrite Scope_apply_childScopes. split; intros Hid.
  - destruct (JsMap.get _ _) as [res|] eqn:Hget.
    + apply get_Some_elem, setChildScopes_entry in Hget as [Hnil|(t & Ht & Heq)].
      { by apply elem_of_nil in Hnil. }
      injection Heq as Hk ->. by exists t.
    + apply get_None_keys in Hget. destruct Hget.
      apply setChildScopes_keys. by right.
  - destruct (JsMap.get _ _) as [res|] eqn:Hget; [|by eexists].
    apply get_Some_elem in Hget.
    assert (tpl_id template ∈ (setChildScopes [] (flat_map directTemplates nodes)).*1)
      as Hin by (apply list_elem_of_fmap; by exists (tpl_id template, res)).
    apply setChildScopes_keys in Hin as [Hin|Hin]; [by apply elem_of_nil in Hin|done].
Qed.

Lemma getChildScope_direct_templates_witness :
  (∃ t, t ∈ flat_map directTemplates [NTemplate outerFor] ∧ tpl_id t = tpl_id outerFor ∧
        getChildScope (Scope_apply [NTemplate outerFor]) outerFor = Ok (childScopeOf t)) ∧
  (∃ message, getChildScope (Scope_apply [NTemplate outerFor]) innerFor = Throw message).
Proof.
  destruct (getChildScope_direct_templates [NTemplate outerFor] outerFor) as [Hdirect _].
  destruct (getChildScope_direct_templates [NTemplate outerFor] innerFor) as [_ Hnested].
  split.
  - apply Hdirect. apply (bool_decide_unpack _). vm_compute. exact I.
  - apply Hnested. apply (bool_decide_unpack _). vm_compute. exact I.
Defined.

(** ** The entities in the scope of a template *)

Lemma processScopes_other fuel : ∀ scopesToProcess entityMap,
  length (itemsOf scopesToProcess) < fuel →
  NoDup (itemKey <$> itemsOf scopesToProcess) →
  (∀ item, item ∈ itemsOf scopesToProcess → entityMap !! itemKey item = None) →
  (∀ scope parent grandparents,
     (scope, parent :: grandparents) ∈ scopesToProcess →
     entityMap !! scopeKey parent = Some (mergedEntities parent grandparents)) →
  ∀ key, key ∉ itemKey <$> itemsOf scopesToProcess →
         (processScopes fuel scopesToProcess entityMap).2 !! key = entityMap !! key.
Proof.
  induction fuel as [|fuel IH]; intros scopesToProcess entityMap Hfuel Hdistinct Hnew Hparents;
    [lia|].
  destruct scopesToProcess as [|[scope parents] rest]; cbn [processScopes]; [done|].
  pose proof (itemsOf_pushed scope parents rest) as Hperm.
  set (scopesToProcess' := rev _ ++ rest) in *.
  intros key Hkey.
  rewrite itemsOf_cons in Hfuel, Hdistinct, Hkey.
  rewrite <- Hperm in Hfuel, Hdistinct, Hkey.
  rewrite fmap_cons in Hdistinct, Hkey. apply NoDup_cons in Hdistinct as [Hfresh Hdistinct].
  apply not_elem_of_cons in Hkey as [Hne Hkey].
  assert (entityMap !! scopeKey scope = None) as Hnone.
  { apply (Hnew (scope, parents)). rewrite itemsOf_cons. apply list_elem_of_here. }
  rewrite extractScopeEntities_miss; [|done|]; first last.
  { destruct parents as [|parent grandparents]; [done|].
    eapply Hparents, list_elem_of_here. }
  cbn [snd]. rewrite IH; [by rewrite lookup_insert_ne| | | | |done].
  - simpl in Hfuel. lia.
  - done.
  - intros item Hitem. rewrite lookup_insert_ne.
    + apply Hnew. rewrite itemsOf_cons. apply list_elem_of_further. by rewrite <- Hperm.
    + intros Heq. apply Hfresh. apply list_elem_of_fmap. by exists item.
  - intros scope' parent grandparents Hin. unfold scopesToProcess' in Hin.
    apply elem_of_app in Hin as [Hin|Hin].
    + rewrite list_elem_of_In, <- in_rev, <- list_elem_of_In in Hin.
      apply list_elem_of_fmap in Hin as (child & Heq & _).
      injection Heq as -> -> ->. apply lookup_insert_eq.
    + rewrite lookup_insert_ne; [by eapply Hparents, list_elem_of_further|].
      intros Heq. rewrite Heq in Hnone.
      erewrite Hparents in Hnone; [done|]. by apply list_elem_of_further.
Qed.

Lemma extractTemplateEntities_other rootScope key :
  NoDup (itemKey <$> allScopes rootScope []) →
  key ∉ itemKey <$> allScopes rootScope [] →
  extractTemplateEntities rootScope !! key = None.
Proof.
  intros Hdistinct Hkey. unfold extractTemplateEntities. rewrite lookup_fmap.
  rewrite processScopes_other; [done| | |done| |].
  - unfold itemsOf. simpl. rewrite app_nil_r.
    pose proof (allScopes_length rootScope []) as Hlen. simpl in Hlen. lia.
  - unfold itemsOf. simpl. by rewrite app_nil_r.
  - intros scope' parent grandparents Hin'. apply list_elem_of_singleton in Hin'.
    discriminate.
  - unfold itemsOf. simpl. by rewrite app_nil_r.
Qed.

(** X3: in a template whose [Template] nodes are distinct, the entities
    in the scope of a template are exactly the entities that
    [Scope.lookup] returns from the scope of that template for some name,
    and those of [null] are the ones that the root scope resolves.  A
    [Template] that is not in the tree has no entities in scope. *)
Theorem entities_in_scope_are_lookups (this : R3TargetBinder) (nodes : list Node) :
  distinctTemplates nodes →
  ∃ bt, bind this (mkTarget (Some nodes)) = Ok bt ∧
        (∀ scope parents e,
           (scope, parents) ∈ allScopes (Scope_apply nodes) [] →
           e ∈ getEntitiesInTemplateScope bt (template scope)
           ↔ ∃ name, lookup name scope parents = Some e) ∧
        (∀ t, tpl_id t ∉ tpl_id <$> flat_map templatesOf nodes →
              getEntitiesInTemplateScope bt (Some t) = ∅).
Proof.
  intros Hdistinct.
  destruct (bind_templateEntities this nodes Hdistinct) as (bt & Hbind & Hentities).
  exists bt. split; [done|].
  pose proof (Scope_apply_distinct nodes Hdistinct) as Hkeys.
  unfold getEntitiesInTemplateScope. rewrite Hentities. split.
  - intros scope parents e Hscope.
    change (tpl_id <$> template scope) with (scopeKey scope).
    rewrite (extractTemplateEntities_spec _ scope parents) by done. simpl.
    rewrite elem_of_map_img. by setoid_rewrite mergedEntities_lookup.
  - intros t Ht. simpl. rewrite extractTemplateEntities_other; [done..|].
    rewrite Scope_apply_scopeKeys by done. apply not_elem_of_cons. split; [done|].
    intros Hin. apply list_elem_of_fmap in Hin as (t' & [= Heq] & Ht').
    apply Ht. apply list_elem_of_fmap. by exists t'.
Qed.

Lemma entities_in_scope_are_lookups_witness :
  ∃ bt, bind noDirectives (mkTarget (Some [NTemplate outerFor])) = Ok bt ∧
        (∀ scope parents e,
           (scope, parents) ∈ allScopes (Scope_apply [NTemplate outerFor]) [] →
           e ∈ getEntitiesInTemplateScope bt (template scope)
           ↔ ∃ name, lookup name scope parents = Some e) ∧
        (∀ t, tpl_id t ∉ tpl_id <$> flat_map templatesOf [NTemplate outerFor] →
              getEntitiesInTemplateScope bt (Some t) = ∅).
Proof.
  apply (entities_in_scope_are_lookups noDirectives [NTemplate outerFor]).
  apply (bool_decide_unpack _). vm_compute. exact I.
Defined.

(** ** Nesting levels are depths *)

Lemma templateDepths_templatesOf node : ∀ level t d,
  (t, d) ∈ templateDepths level node → t ∈ templatesOf node.
Proof.
  induction node as [element IH|template IH|sel attrs|value|text|vars phs] using Node_ind';
    intros level t d; simpl; try (intros Hin; by apply elem_of_nil in Hin).
  - rewrite !elem_of_flat_map. intros (child & Hchild & Hin). exists child.
    split; [done|]. rewrite Forall_forall in IH. by eapply IH.
  - rewrite !elem_of_cons, !elem_of_flat_map. intros [[= -> _]|(child & Hchild & Hin)];
      [by left|]. right. exists child. split; [done|].
    rewrite Forall_forall in IH. by eapply IH.
Qed.

Lemma forEachR_levelsRecorded this (children : list Node) :
  Forall (λ node, ∀ this maps maps',
            visitNode this node maps = Ok maps' →
            levelsRecorded (tb_level this) node maps maps') children →
  ∀ maps maps',
    forEachR (visitNode this) children maps = Ok maps' →
    (NoDup (tpl_id <$> flat_map templatesOf children) →
     ∀ t d, (t, d) ∈ flat_map (templateDepths (tb_level this)) children →
            tb_nestingLevel maps' !! tpl_id t = Some d) ∧
    (∀ id, id ∉ tpl_id <$> flat_map templatesOf children →
           tb_nestingLevel maps' !! id = tb_nestingLevel maps !! id).
Proof.
  induction 1 as [|child children Hchild _ IH]; intros maps maps'; simpl.
  - intros [= <-]. split; [|done]. intros _ t d Hin. by apply elem_of_nil in Hin.
  - destruct (visitNode this child maps) as [maps1|] eqn:Hvisit; [|done]. simpl.
    intros Hrest. destruct (Hchild _ _ _ Hvisit) as [Hhere Hframe].
    destruct (IH _ _ Hrest) as [Hthere Hframe']. split.
    + rewrite fmap_app. intros Hdistinct t d Hin.
      apply NoDup_app in Hdistinct as (Hd1 & Hdisjoint & Hd2).
      apply elem_of_app in Hin as [Hin|Hin].
      * rewrite Hframe'; [by apply Hhere|].
        apply Hdisjoint, list_elem_of_fmap. exists t. split; [done|].
        by eapply templateDepths_templatesOf.
      * by apply Hthere.
    + intros id Hid. rewrite fmap_app in Hid. apply not_elem_of_app in Hid as [Hid1 Hid2].
      rewrite Hframe' by done. by apply Hframe.
Qed.

Lemma visitNode_levelsRecorded node : ∀ this maps maps',
  visitNode this node maps = Ok maps' →
  levelsRecorded (tb_level this) node maps maps'.
Proof.
  induction node as [element IH|template IH|sel attrs|value|text|vars phs] using Node_ind';
    intros this maps maps'; simpl.
  - intros Hchildren.
    destruct (forEachR_levelsRecorded this _ IH _ _ Hchildren) as [Hhere Hframe].
    split; [done|]. intros id Hid. rewrite Hframe by done.
    rewrite !forEach_nestingLevel; [done|intros; apply visitAST_nestingLevel..].
  - destruct (getChildScope _ _) as [childScope|]; [|done]. simpl.
    match goal with |- context [forEachR ?f ?xs ?s] =>
      destruct (forEachR f xs s) as [maps1|] eqn:Hchildren end; [|done].
    simpl. intros [= <-].
    apply (forEachR_levelsRecorded _ _ IH) in Hchildren as [Hhere Hframe].
    unfold levelsRecorded. cbn [templatesOf templateDepths tb_nestingLevel tb_level] in *.
    rewrite fmap_cons. split.
    + intros Hdistinct t d Hin. apply NoDup_cons in Hdistinct as [Hfresh Hdistinct].
      apply elem_of_cons in Hin as [[= -> ->]|Hin]; [apply lookup_insert_eq|].
      rewrite lookup_insert_ne; [by apply Hhere|].
      intros Heq. apply Hfresh. rewrite Heq. apply list_elem_of_fmap. exists t.
      split; [done|]. apply elem_of_flat_map in Hin as (child & Hchild & Hin).
      apply elem_of_flat_map. exists child. split; [done|].
      by eapply templateDepths_templatesOf.
    + intros id Hid. apply not_elem_of_cons in Hid as [Hne Hid].
      rewrite lookup_insert_ne by done. rewrite Hframe by done.
      rewrite !forEach_nestingLevel; [done|intros..].
      * apply visitAST_nestingLevel.
      * apply visitAST_nestingLevel.
      * apply visitTemplateAttr_nestingLevel.
      * apply registerSymbol_nestingLevel.
      * apply registerSymbol_nestingLevel.
  - intros [= <-]. split; [|done]. intros _ t d Hin. by apply elem_of_nil in Hin.
  - intros [= <-]. split; [|done]. intros _ t d Hin. by apply elem_of_nil in Hin.
  - intros [= <-]. split.
    + intros _ t d Hin. by apply elem_of_nil in Hin.
    + intros id _. cbn [tb_nestingLevel]. unfold visitBoundText.
      by rewrite visitAST_nestingLevel.
  - intros [= <-]. split.
    + intros _ t d Hin. by apply elem_of_nil in Hin.
    + intros id _. cbn [tb_nestingLevel]. by rewrite visitIcu_nestingLevel.
Qed.

(** X4: in a template whose [Template] nodes are distinct, the nesting
    level of a [Template] of the tree is the number of [Template] nodes
    around it, itself included; for a [Template] that is not in the tree
    [getNestingLevel] returns 0. *)
Theorem nestingLevel_is_depth (this : R3TargetBinder) (nodes : list Node) :
  distinctTemplates nodes →
  ∃ bt, bind this (mkTarget (Some nodes)) = Ok bt ∧
        (∀ t d, (t, d) ∈ flat_map (templateDepths 0) nodes → getNestingLevel bt t = d) ∧
        (∀ t, tpl_id t ∉ tpl_id <$> flat_map templatesOf nodes → getNestingLevel bt t = 0).
Proof.
  intros Hdistinct. unfold bind. simpl.
  destruct (applyWithScope_ok nodes) as [tb Happly]; [by apply consistentList_NoDup|].
  rewrite Happly. simpl. eexists. split; [done|].
  unfold getNestingLevel. simpl.
  unfold applyWithScope, TemplateBinder_ingest, TemplateBinder_ingestWith in Happly.
  apply forEachR_levelsRecorded in Happly as [Hhere Hframe].
  - split.
    + intros t d Hin. by rewrite (Hhere Hdistinct t d Hin).
    + intros t Ht. by rewrite Hframe.
  - apply Forall_forall. intros node _. apply visitNode_levelsRecorded.
Qed.

Lemma nestingLevel_is_depth_witness :
  ∃ bt, bind noDirectives (mkTarget (Some [NTemplate outermostTemplate])) = Ok bt ∧
        (∀ t d, (t, d) ∈ flat_map (templateDepths 0) [NTemplate outermostTemplate] →
                getNestingLevel bt t = d) ∧
        (∀ t, tpl_id t ∉ tpl_id <$> flat_map templatesOf [NTemplate outermostTemplate] →
              getNestingLevel bt t = 0).
Proof.
  apply (nestingLevel_is_depth noDirectives [NTemplate outermostTemplate]).
  apply (bool_decide_unpack _). vm_compute. exact I.
Defined.

(** ** What pass 3 records *)

(** A property of the collections that every step of pass 3 over an
    expression keeps is kept by the visit of the expression. *)
Lemma visitAST_invariant (P : Bindings → Prop) this :
  (∀ ast receiver name maps, P maps → P (maybeMap this ast receiver name maps)) →
  (∀ name maps, P maps →
     P (mkBindings (tb_bindings maps) (tb_symbols maps) ({[name]} ∪ tb_usedPipes maps)
                   (tb_nestingLevel maps))) →
  ∀ ast maps, P maps → P (visitAST this ast maps).
Proof.
  intros Hmap Hpipe ast.
  induction ast using AST_ind'; intros maps Hmaps; simpl;
    repeat first
      [ assumption
      | match goal with
        | H : ∀ maps, P maps → P (visitAST _ ?a maps) |- P (visitAST _ ?a _) => apply H
        | |- P (maybeMap _ _ _ _ _) => apply Hmap
        | |- P (mkBindings _ _ (_ ∪ _) _) => apply Hpipe
        | H : Forall _ ?l |- P (forEach (visitAST _) ?l _) =>
            apply forEach_invariant;
            [let x := fresh in let s := fresh in let Hx := fresh in
             intros x s Hx; rewrite Forall_forall in H; by apply H|]
        end ].
Qed.

(** The same for the visit of a node, for a property [Q] of a binder and
    of the node it visits that holds on the way down. *)
Lemma visitNode_invariant (P : Bindings → Prop) (Q : TemplateBinder → Node → Prop) :
  (∀ this element child,
     Q this (NElement element) → child ∈ el_children element → Q this child) →
  (∀ this template childScope child,
     Q this (NTemplate template) →
     getChildScope (tb_scope this) template = Ok childScope →
     child ∈ tpl_children template →
     Q (mkTemplateBinder childScope (tb_scope this :: tb_parents this) (Some template)
                         (tb_level this + 1)) child) →
  (∀ this node ast maps, Q this node → P maps → P (visitAST this ast maps)) →
  (∀ this template r maps,
     Q this (NTemplate template) → r ∈ tpl_references template → P maps →
     P (registerSymbol this (ERef r) maps)) →
  (∀ this template childScope v maps,
     Q this (NTemplate template) →
     getChildScope (tb_scope this) template = Ok childScope →
     v ∈ tpl_variables template → P maps →
     P (registerSymbol (mkTemplateBinder childScope (tb_scope this :: tb_parents this)
                                         (Some template) (tb_level this + 1))
                       (EVar v) maps)) →
  (∀ id level maps, P maps →
     P (mkBindings (tb_bindings maps) (tb_symbols maps) (tb_usedPipes maps)
                   (<[id := level]> (tb_nestingLevel maps)))) →
  ∀ node this maps maps',
    Q this node → P maps → visitNode this node maps = Ok maps' → P maps'.
Proof.
  intros Helement Htemplate Hast Href Hvar Hlevel node.
  induction node as [element IH|template IH|sel attrs|value|text|vars phs] using Node_ind';
    intros this maps maps' HQ Hmaps; simpl.
  - apply forEachR_invariant.
    + intros child s s' Hchild Hs. rewrite Forall_forall in IH.
      apply IH; [done| |done]. by eapply Helement.
    + repeat (apply forEach_invariant; [intros ? ? _ ?; by eapply Hast|]). done.
  - destruct (getChildScope _ _) as [childScope|] eqn:Hchild; [|done]. simpl.
    match goal with |- context [forEachR ?f ?xs ?s] =>
      destruct (forEachR f xs s) as [maps1|] eqn:Hchildren end; [|done].
    simpl. intros [= <-]. apply Hlevel.
    revert Hchildren. apply forEachR_invariant.
    + intros child s s' Hin Hs. rewrite Forall_forall in IH.
      apply IH; [done| |done]. by eapply Htemplate.
    + apply forEach_invariant; [intros v s Hv Hs; by eapply Hvar|].
      apply forEach_invariant; [intros r s Hr Hs; by eapply Href|].
      apply forEach_invariant.
      { intros [attr|attr] s _ Hs; simpl; [by eapply Hast|done]. }
      repeat (apply forEach_invariant; [intros ? ? _ ?; by eapply Hast|]). done.
  - by intros [= <-].
  - by intros [= <-].
  - intros [= <-]. by eapply Hast.
  - intros [= <-]. unfold visitIcu.
    apply forEach_invariant.
    { intros [? [?|?]] m _ Hm; simpl; [done|by eapply Hast]. }
    apply forEach_invariant; [|done]. intros ? ? _ ?. by eapply Hast.
Qed.

Lemma allScopes_child scope parents child : ∀ root chain,
  (scope, parents) ∈ allScopes root chain →
  child ∈ childScopes scope →
  (child.2, scope :: parents) ∈ allScopes root chain.
Proof.
  induction root as [named children template IH] using Scope_ind'. intros chain Hin Hchild.
  rewrite allScopes_eq in Hin |- *. apply list_elem_of_further.
  apply elem_of_cons in Hin as [[= -> ->]|Hin].
  - apply elem_of_flat_map. exists child. split; [done|].
    rewrite allScopes_eq. apply list_elem_of_here.
  - apply elem_of_flat_map in Hin as (c & Hc & Hin).
    apply elem_of_flat_map. exists c. split; [done|].
    rewrite Forall_forall in IH. by apply IH.
Qed.

(** X5: the target that [bind] records for an expression is an entity that
    [Scope.lookup] finds under its own name from a scope of the tree that
    [Scope.apply] builds: [getExpressionTarget] never returns an entity
    that no scope of the template resolves. *)
Theorem expression_targets_are_lookups (this : R3TargetBinder) (nodes : list Node)
    (bt : R3BoundTarget) (expr : AST) (e : Entity) :
  bind this (mkTarget (Some nodes)) = Ok bt →
  getExpressionTarget bt expr = Some e →
  ∃ scope parents, (scope, parents) ∈ allScopes (Scope_apply nodes) []
                   ∧ lookup (entityName e) scope parents = Some e.
Proof.
  unfold bind. simpl.
  destruct (applyWithScope nodes _) as [tb|] eqn:Happly; [|done]. simpl.
  intros [= <-]. unfold getExpressionTarget. simpl.
  destruct (astKey expr) as [key|]; [|done]. simpl. revert key e.
  change (targetsResolved (Scope_apply nodes) tb).
  revert Happly. unfold applyWithScope, TemplateBinder_ingest, TemplateBinder_ingestWith.
  set (root := Scope_apply nodes).
  apply forEachR_invariant; [|intros key e; simpl; by rewrite lookup_empty].
  intros node s s' _.
  apply (visitNode_invariant (targetsResolved root)
           (λ this _, (tb_scope this, tb_parents this) ∈ allScopes root [])).
  - done.
  - intros b template childScope child Hb Hchild _. simpl.
    unfold getChildScope in Hchild.
    destruct (JsMap.get _ _) as [res|] eqn:Hget; [|done]. injection Hchild as ->.
    apply get_Some_elem in Hget. by apply (allScopes_child _ _ _ _ _ Hb Hget).
  - intros b _ ast maps Hb. apply visitAST_invariant.
    + intros a receiver name m Hm. unfold maybeMap. destruct receiver; try done.
      destruct (lookup name _ _) as [target|] eqn:Hlookup; [|done].
      destruct (astKey a) as [key|]; [|done]. intros key' e'. simpl.
      destruct (decide (key = key')) as [<-|Hne].
      * rewrite lookup_insert_eq. intros [= <-]. eexists _, _. split; [exact Hb|].
        assert (entityName target = name) as ->; [|done].
        eapply mergedEntities_keyed; [|exact Hb|].
        -- intros item. apply Scope_apply_scopes_keyed.
        -- by rewrite mergedEntities_lookup.
      * rewrite lookup_insert_ne by done. apply Hm.
    + intros name m Hm. exact Hm.
  - intros b template r maps _ _ Hmaps. unfold registerSymbol.
    by destruct (tb_template b).
  - intros b template childScope v maps _ _ _ Hmaps. exact Hmaps.
  - intros id level maps Hmaps. exact Hmaps.
  - simpl. rewrite allScopes_eq. apply list_elem_of_here.
Qed.

Lemma expression_targets_are_lookups_witness :
  ∃ bt scope parents,
    bind noDirectives nestedFor = Ok bt ∧
    (scope, parents) ∈ allScopes (Scope_apply [NTemplate outerFor]) [] ∧
    lookup (entityName (EVar innerItem)) scope parents = Some (EVar innerItem).
Proof.
  destruct nestedFor_bound as (bt & Hbind & Htarget). exists bt.
  destruct (expression_targets_are_lookups noDirectives [NTemplate outerFor] bt
              innerItemRead (EVar innerItem) Hbind Htarget)
    as (scope & parents & Hscope & Hlookup).
  by exists scope, parents.
Defined.

(** X6: the [Template] that [bind] records for a symbol is a [Template] of
    the tree.  For a [Variable] it is a template that declares that
    variable.  For a [Reference] it is the template directly around a
    [Template] that carries the reference: a reference on an element, or
    on a [Template] that is in no other template, is never recorded by
    itself. *)
Theorem symbols_are_declared (this : R3TargetBinder) (nodes : list Node)
    (bt : R3BoundTarget) :
  bind this (mkTarget (Some nodes)) = Ok bt →
  (∀ v t, getTemplateOfSymbol bt (EVar v) = Some t →
          t ∈ flat_map templatesOf nodes ∧ v ∈ tpl_variables t) ∧
  (∀ r t, getTemplateOfSymbol bt (ERef r) = Some t →
          t ∈ flat_map templatesOf nodes ∧
          ∃ t', t' ∈ flat_map directTemplates (tpl_children t) ∧ r ∈ tpl_references t').
Proof.
  unfold bind. simpl.
  destruct (applyWithScope nodes _) as [tb|] eqn:Happly; [|done]. simpl.
  intros [= <-]. unfold getTemplateOfSymbol. simpl.
  set (templates := flat_map templatesOf nodes).
  change (symbolsDeclared templates tb).
  revert Happly. unfold applyWithScope, TemplateBinder_ingest, TemplateBinder_ingestWith.
  apply forEachR_invariant; [|split; intros ? ?; simpl; by rewrite lookup_empty].
  intros node s s' Hnode.
  apply (visitNode_invariant (symbolsDeclared templates)
           (λ this node,
              templatesOf node ⊆ templates ∧
              ∀ t, tb_template this = Some t →
                   t ∈ templates ∧
                   directTemplates node ⊆ flat_map directTemplates (tpl_children t))).
  - intros b element child [Hsub Htpl] Hchild. split.
    + intros t Ht. apply Hsub. simpl. apply elem_of_flat_map. by exists child.
    + intros t Hb. destruct (Htpl t Hb) as [Ht Hdirect]. split; [done|].
      intros t' Ht'. apply Hdirect. simpl. apply elem_of_flat_map. by exists child.
  - intros b template childScope child [Hsub _] _ Hchild. simpl. split.
    + intros t Ht. apply Hsub. simpl. apply list_elem_of_further.
      apply elem_of_flat_map. by exists child.
    + intros t [= <-]. split; [apply Hsub, list_elem_of_here|].
      intros t' Ht'. apply elem_of_flat_map. by exists child.
  - intros b _ ast maps _. apply visitAST_invariant.
    + intros a receiver name m Hm. unfold maybeMap. destruct receiver; try done.
      destruct (lookup name _ _); [|done]. by destruct (astKey a).
    + intros name m Hm. exact Hm.
  - intros b template r maps [_ Htpl] Hr [Hvars Hrefs]. unfold registerSymbol.
    destruct (tb_template b) as [t|] eqn:Hb; [|done].
    destruct (Htpl t eq_refl) as [Ht Hdirect]. split; simpl.
    + intros v t'. rewrite lookup_insert_ne by done. apply Hvars.
    + intros r' t'. destruct (decide (ERef r = ERef r')) as [[= <-]|Hne].
      * rewrite lookup_insert_eq. intros [= <-]. split; [done|].
        exists template. split; [|done]. apply Hdirect, list_elem_of_here.
      * rewrite lookup_insert_ne by done. apply Hrefs.
  - intros b template childScope v maps [Hsub _] _ Hv [Hvars Hrefs].
    unfold registerSymbol. simpl. split; simpl.
    + intros v' t'. destruct (decide (EVar v = EVar v')) as [[= <-]|Hne].
      * rewrite lookup_insert_eq. intros [= <-]. split; [|done].
        apply Hsub, list_elem_of_here.
      * rewrite lookup_insert_ne by done. apply Hvars.
    + intros r t'. rewrite lookup_insert_ne by done. apply Hrefs.
  - intros id level maps Hmaps. exact Hmaps.
  - split.
    + intros t Ht. apply elem_of_flat_map. by exists node.
    + intros t [=].
Qed.

Lemma symbols_are_declared_witness :
  ∃ bt, bind noDirectives nestedFor = Ok bt ∧
        ∀ v t, getTemplateOfSymbol bt (EVar v) = Some t →
               t ∈ flat_map templatesOf [NTemplate outerFor] ∧ v ∈ tpl_variables t.
Proof.
  destruct nestedFor_bound as (bt & Hbind & _). exists bt. split; [exact Hbind|].
  exact (proj1 (symbols_are_declared noDirectives [NTemplate outerFor] bt Hbind)).
Defined.

(** ** What pass 2 records *)

Section DirectiveBinderFacts.
Variable matcher : string → Element + Template → list DirectiveMeta.

Lemma DirectiveBinder_visit_eq node this :
  DirectiveBinder_visit matcher node this
  = match node with
    | NElement element =>
        forEach (DirectiveBinder_visit matcher) (el_children element)
                (visitElementOrTemplateHead matcher (hostName (inl element)) (inl element) this)
    | NTemplate template =>
        forEach (DirectiveBinder_visit matcher) (tpl_children template)
                (visitElementOrTemplateHead matcher (hostName (inr template)) (inr template)
                                            this)
    | _ => this
    end.
Proof. by destruct node. Qed.

(** A property that the visit of every element and template of the tree
    keeps is kept by pass 2. *)
Lemma DirectiveBinder_invariant (P : DirectiveBinder → Prop)
    (hosts : list (Element + Template)) :
  (∀ host this, host ∈ hosts → P this →
                P (visitElementOrTemplateHead matcher (hostName host) host this)) →
  ∀ node this, hostsOf node ⊆ hosts → P this → P (DirectiveBinder_visit matcher node this).
Proof.
  intros Hhead node.
  induction node as [element IH|template IH|sel attrs|value|text|vars phs] using Node_ind';
    intros this Hsub Hthis; rewrite DirectiveBinder_visit_eq; try done.
  - apply forEach_invariant.
    + intros child s Hchild Hs. rewrite Forall_forall in IH. apply IH; [done| |done].
      intros host Hhost. apply Hsub. simpl. apply list_elem_of_further.
      apply elem_of_flat_map. by exists child.
    + apply Hhead; [|done]. apply Hsub, list_elem_of_here.
  - apply forEach_invariant.
    + intros child s Hchild Hs. rewrite Forall_forall in IH. apply IH; [done| |done].
      intros host Hhost. apply Hsub. simpl. apply list_elem_of_further.
      apply elem_of_flat_map. by exists child.
    + apply Hhead; [|done]. apply Hsub, list_elem_of_here.
Qed.

Lemma DirectiveBinder_apply_invariant (P : DirectiveBinder → Prop) (nodes : list Node) :
  (∀ host this, host ∈ flat_map hostsOf nodes → P this →
                P (visitElementOrTemplateHead matcher (hostName host) host this)) →
  P (mkDirectiveBinder ∅ ∅ ∅) → P (DirectiveBinder_apply matcher nodes).
Proof.
  intros Hhead Hempty. unfold DirectiveBinder_apply.
  apply forEach_invariant; [|done]. intros node s Hnode Hs.
  apply (DirectiveBinder_invariant P (flat_map hostsOf nodes)); [done| |done].
  intros host Hhost. apply elem_of_flat_map. by exists node.
Qed.

(** The steps of the visit of a node, for a property of the bindings. *)
Lemma head_bindings_invariant (P : gmap (nat + nat + nat) Consumer → Prop) name host this :
  (∀ ioType attribute m,
     P m →
     P (<[boundNodeKey attribute :=
            match List.find (λ dir, ioType dir (boundNodeName attribute)) (matcher name host)
            with
            | Some dir => CDirective dir
            | None => CNode host
            end]> m)) →
  P (db_bindings this) →
  P (db_bindings (visitElementOrTemplateHead matcher name host this)).
Proof.
  intros Hset Hthis. unfold visitElementOrTemplateHead.
  apply (forEach_invariant (λ s, P (db_bindings s))); [intros; by apply Hset|].
  assert (∀ s, P (db_bindings s) →
               P (db_bindings
                    match host with
                    | inr template =>
                        forEach (λ attr, setAttributeBinding (matcher name host) host dir_inputs
                                           (templateAttrNode attr))
                                (tpl_templateAttrs template) s
                    | inl _ => s
                    end)) as Htemplate.
  { intros s Hs. destruct host; [done|].
    apply (forEach_invariant (λ s, P (db_bindings s))); [intros; by apply Hset|done]. }
  apply Htemplate.
  do 2 (apply (forEach_invariant (λ s, P (db_bindings s))); [intros; by apply Hset|]).
  apply (forEach_invariant (λ s, P (db_bindings s))).
  { intros r s _ Hs. unfold resolveReference.
    repeat case_match; done. }
  by case_decide.
Qed.

Lemma forEach_binds {A} (f : A → BoundNode) ioType name host xs x : ∀ this,
  x ∈ xs →
  is_Some (db_bindings
             (forEach (λ y, setAttributeBinding (matcher name host) host ioType (f y)) xs this)
           !! boundNodeKey (f x)).
Proof.
  induction xs as [|y xs IH] using rev_ind; intros this Hx; [by apply elem_of_nil in Hx|].
  rewrite forEach_app. simpl. unfold forEach at 1. simpl.
  destruct (decide (boundNodeKey (f y) = boundNodeKey (f x))) as [Heq|Hne].
  - rewrite Heq, lookup_insert_eq. by eexists.
  - rewrite lookup_insert_ne by done. apply IH.
    apply elem_of_app in Hx as [Hx|Hx]; [done|].
    apply list_elem_of_singleton in Hx. by subst.
Qed.

Lemma forEach_keeps_binding {A} (f : A → BoundNode) ioType name host xs key : ∀ this,
  is_Some (db_bindings this !! key) →
  is_Some (db_bindings
             (forEach (λ y, setAttributeBinding (matcher name host) host ioType (f y)) xs this)
           !! key).
Proof.
  intros this Hthis.
  apply (forEach_invariant (λ s, is_Some (db_bindings s !! key))); [|done].
  intros y s _ Hs. simpl. destruct (decide (boundNodeKey (f y) = key)) as [<-|Hne].
  - rewrite lookup_insert_eq. by eexists.
  - by rewrite lookup_insert_ne.
Qed.

Lemma head_keeps_binding name host this key :
  is_Some (db_bindings this !! key) →
  is_Some (db_bindings (visitElementOrTemplateHead matcher name host this) !! key).
Proof.
  apply (head_bindings_invariant (λ m, is_Some (m !! key))).
  intros ioType attribute m Hm. destruct (decide (boundNodeKey attribute = key)) as [<-|Hne].
  - rewrite lookup_insert_eq. by eexists.
  - by rewrite lookup_insert_ne.
Qed.

Lemma head_binds name host this attribute :
  attribute ∈ boundNodesOf host →
  is_Some (db_bindings (visitElementOrTemplateHead matcher name host this)
           !! boundNodeKey attribute).
Proof.
  unfold boundNodesOf, visitElementOrTemplateHead. rewrite !elem_of_app.
  intros [Hin|[Hin|[Hin|Hin]]].
  - apply list_elem_of_fmap in Hin as (input & -> & Hin).
    apply (forEach_keeps_binding BNEvent).
    assert (∀ s, is_Some (db_bindings s !! boundNodeKey (BNAttribute input)) →
                 is_Some (db_bindings
                      match host with
                      | inr template =>
                          forEach (λ attr, setAttributeBinding (matcher name host) host
                                             dir_inputs (templateAttrNode attr))
                                  (tpl_templateAttrs template) s
                      | inl _ => s
                      end !! boundNodeKey (BNAttribute input))) as Htemplate.
    { intros s Hs. destruct host; [done|]. by apply (forEach_keeps_binding templateAttrNode). }
    apply Htemplate. apply (forEach_keeps_binding BNText).
    by apply (forEach_binds BNAttribute).
  - apply list_elem_of_fmap in Hin as (attr & -> & Hin).
    apply (forEach_keeps_binding BNEvent).
    assert (∀ s, is_Some (db_bindings s !! boundNodeKey (BNText attr)) →
                 is_Some (db_bindings
                      match host with
                      | inr template =>
                          forEach (λ attr, setAttributeBinding (matcher name host) host
                                             dir_inputs (templateAttrNode attr))
                                  (tpl_templateAttrs template) s
                      | inl _ => s
                      end !! boundNodeKey (BNText attr))) as Htemplate.
    { intros s Hs. destruct host; [done|]. by apply (forEach_keeps_binding templateAttrNode). }
    apply Htemplate. by apply (forEach_binds BNText).
  - destruct host as [element|template]; [by apply elem_of_nil in Hin|].
    apply list_elem_of_fmap in Hin as (attr & -> & Hin).
    apply (forEach_keeps_binding BNEvent). by apply (forEach_binds templateAttrNode).
  - apply list_elem_of_fmap in Hin as (output & -> & Hin).
    by apply (forEach_binds BNEvent).
Qed.

Lemma visit_keeps_binding node key : ∀ this,
  is_Some (db_bindings this !! key) →
  is_Some (db_bindings (DirectiveBinder_visit matcher node this) !! key).
Proof.
  intros this Hthis.
  apply (DirectiveBinder_invariant (λ s, is_Some (db_bindings s !! key)) (hostsOf node));
    [|done..].
  intros host s _. apply head_keeps_binding.
Qed.

Lemma visit_binds node : ∀ this host attribute,
  host ∈ hostsOf node → attribute ∈ boundNodesOf host →
  is_Some (db_bindings (DirectiveBinder_visit matcher node this) !! boundNodeKey attribute).
Proof.
  induction node as [element IH|template IH|sel attrs|value|text|vars phs] using Node_ind';
    intros this host attribute Hhost Hattribute; rewrite DirectiveBinder_visit_eq;
    try (by apply elem_of_nil in Hhost).
  - simpl in Hhost. apply elem_of_cons in Hhost as [->|Hhost].
    + apply (forEach_invariant (λ s, is_Some (db_bindings s !! boundNodeKey attribute))).
      * intros child s _. apply visit_keeps_binding.
      * by apply head_binds.
    + apply elem_of_flat_map in Hhost as (child & Hchild & Hhost).
      rewrite Forall_forall in IH. specialize (IH child Hchild).
      apply list_elem_of_split in Hchild as (before & after & ->).
      rewrite forEach_app, forEach_cons.
      apply (forEach_invariant (λ s, is_Some (db_bindings s !! boundNodeKey attribute))).
      * intros c s _. apply visit_keeps_binding.
      * by eapply IH.
  - simpl in Hhost. apply elem_of_cons in Hhost as [->|Hhost].
    + apply (forEach_invariant (λ s, is_Some (db_bindings s !! boundNodeKey attribute))).
      * intros child s _. apply visit_keeps_binding.
      * by apply head_binds.
    + apply elem_of_flat_map in Hhost as (child & Hchild & Hhost).
      rewrite Forall_forall in IH. specialize (IH child Hchild).
      apply list_elem_of_split in Hchild as (before & after & ->).
      rewrite forEach_app, forEach_cons.
      apply (forEach_invariant (λ s, is_Some (db_bindings s !! boundNodeKey attribute))).
      * intros c s _. apply visit_keeps_binding.
      * by eapply IH.
Qed.

(** X7: pass 2 gives a consumer to every input, attribute, template
    attribute and output of every element and template of the tree. *)
Theorem every_binding_has_a_consumer (nodes : list Node) (host : Element + Template)
    (attribute : BoundNode) :
  host ∈ flat_map hostsOf nodes → attribute ∈ boundNodesOf host →
  is_Some (db_bindings (DirectiveBinder_apply matcher nodes) !! boundNodeKey attribute).
Proof.
  intros Hhost Hattribute. apply elem_of_flat_map in Hhost as (node & Hnode & Hhost).
  apply list_elem_of_split in Hnode as (before & after & ->).
  unfold DirectiveBinder_apply. rewrite forEach_app, forEach_cons.
  apply (forEach_invariant (λ s, is_Some (db_bindings s !! boundNodeKey attribute))).
  - intros c s _. apply visit_keeps_binding.
  - by apply (visit_binds node _ host).
Qed.

(** X8: the consumer that pass 2 records for a binding is an element or
    template of the tree or a directive that the matcher reports for one,
    and the directive lists it records are those of the matcher for an
    element or template of the tree and are never empty. *)
Theorem consumers_are_hosts_or_their_directives (nodes : list Node) :
  (∀ key consumer,
     db_bindings (DirectiveBinder_apply matcher nodes) !! key = Some consumer →
     ∃ host, host ∈ flat_map hostsOf nodes ∧
             (consumer = CNode host ∨
              ∃ dir, consumer = CDirective dir ∧ dir ∈ matcher (hostName host) host)) ∧
  (∀ key directives,
     db_directives (DirectiveBinder_apply matcher nodes) !! key = Some directives →
     directives ≠ [] ∧
     ∃ host, host ∈ flat_map hostsOf nodes ∧ nodeKey host = key ∧
             directives = matcher (hostName host) host).
Proof.
  set (hosts := flat_map hostsOf nodes). split.
  - apply (DirectiveBinder_apply_invariant
             (λ s, ∀ key consumer, db_bindings s !! key = Some consumer →
                ∃ host, host ∈ hosts ∧
                        (consumer = CNode host ∨
                         ∃ dir, consumer = CDirective dir
                                ∧ dir ∈ matcher (hostName host) host))).
    + intros host this Hhost.
      apply (head_bindings_invariant
               (λ m, ∀ key consumer, m !! key = Some consumer →
                  ∃ host, host ∈ hosts ∧
                          (consumer = CNode host ∨
                           ∃ dir, consumer = CDirective dir
                                  ∧ dir ∈ matcher (hostName host) host))).
      intros ioType attribute m Hm key consumer.
      destruct (decide (boundNodeKey attribute = key)) as [<-|Hne].
      * rewrite lookup_insert_eq. intros [= <-]. exists host. split; [done|].
        destruct (List.find _ _) as [dir|] eqn:Hfind; [|by left].
        right. exists dir. split; [done|]. apply find_some in Hfind as [Hin _].
        by apply list_elem_of_In.
      * rewrite lookup_insert_ne by done. apply Hm.
    + intros key consumer. simpl. by rewrite lookup_empty.
  - apply (DirectiveBinder_apply_invariant
             (λ s, ∀ key directives, db_directives s !! key = Some directives →
                directives ≠ [] ∧
                ∃ host, host ∈ hosts ∧ nodeKey host = key ∧
                        directives = matcher (hostName host) host)).
    + intros host this Hhost Hthis. unfold visitElementOrTemplateHead.
      repeat (apply (forEach_invariant
                       (λ s, ∀ key directives, db_directives s !! key = Some directives →
                          directives ≠ [] ∧
                          ∃ host, host ∈ hosts ∧ nodeKey host = key ∧
                                  directives = matcher (hostName host) host));
              [intros ? s _ Hs; exact Hs|]).
      assert (∀ s : DirectiveBinder,
                (∀ key directives, db_directives s !! key = Some directives →
                   directives ≠ [] ∧
                   ∃ host, host ∈ hosts ∧ nodeKey host = key ∧
                           directives = matcher (hostName host) host) →
                ∀ key directives,
                  db_directives
                    match host with
                    | inr template =>
                        forEach (λ attr, setAttributeBinding (matcher (hostName host) host)
                                           host dir_inputs (templateAttrNode attr))
                                (tpl_templateAttrs template) s
                    | inl _ => s
                    end !! key = Some directives →
                  directives ≠ [] ∧
                  ∃ host, host ∈ hosts ∧ nodeKey host = key ∧
                          directives = matcher (hostName host) host) as Htemplate.
      { intros s Hs. destruct host; [done|].
        apply (forEach_invariant
                 (λ s, ∀ key directives, db_directives s !! key = Some directives →
                    directives ≠ [] ∧
                    ∃ host, host ∈ hosts ∧ nodeKey host = key ∧
                            directives = matcher (hostName host) host)); [|done].
        intros ? s' _ Hs'. exact Hs'. }
      apply Htemplate.
      repeat (apply (forEach_invariant
                       (λ s, ∀ key directives, db_directives s !! key = Some directives →
                          directives ≠ [] ∧
                          ∃ host, host ∈ hosts ∧ nodeKey host = key ∧
                                  directives = matcher (hostName host) host));
              [intros ? s _ Hs; first [exact Hs|unfold resolveReference; repeat case_match; exact Hs]|]).
      case_decide as Hlen; [|done]. intros key directives. simpl.
      destruct (decide (nodeKey host = key)) as [<-|Hne].
      * rewrite lookup_insert_eq. intros [= <-]. split.
        -- intros Hnil. rewrite Hnil in Hlen. simpl in Hlen. lia.
        -- by exists host.
      * rewrite lookup_insert_ne by done. apply Hthis.
    + intros key directives. simpl. by rewrite lookup_empty.
Qed.

Lemma find_none_all {A} (f : A → bool) (l : list A) :
  List.find f l = None → ∀ x, x ∈ l → f x = false.
Proof.
  intros Hfind x Hx. apply list_elem_of_In in Hx. by apply (find_none _ _ Hfind).
Qed.

(** X9: the target that pass 2 records for a reference belongs to an
    element or template of the tree that carries the reference.  It is
    the node itself only when the value of the reference is blank and no
    directive matched on the node is a component; it is a directive
    matched on the node otherwise, a component when the value is blank and
    a directive that exports the value when it is not. *)
Theorem reference_targets_are_resolved (nodes : list Node) (ref : Reference)
    (target : ReferenceTarget) :
  db_references (DirectiveBinder_apply matcher nodes) !! ref = Some target →
  ∃ host, host ∈ flat_map hostsOf nodes ∧ ref ∈ node_references host ∧
          resolved (matcher (hostName host) host) host ref target.
Proof.
  revert ref target. set (hosts := flat_map hostsOf nodes).
  set (P := λ s : DirectiveBinder, ∀ ref target,
         db_references s !! ref = Some target →
         ∃ host, host ∈ hosts ∧ ref ∈ node_references host ∧
                 resolved (matcher (hostName host) host) host ref target).
  apply (DirectiveBinder_apply_invariant P);
    [|intros ref target; simpl; by rewrite lookup_empty].
  intros host this Hhost Hthis. unfold visitElementOrTemplateHead.
  apply (forEach_invariant P); [intros ? s _ Hs; exact Hs|].
  assert (∀ s, P s →
               P match host with
                 | inr template =>
                     forEach (λ attr, setAttributeBinding (matcher (hostName host) host) host
                                        dir_inputs (templateAttrNode attr))
                             (tpl_templateAttrs template) s
                 | inl _ => s
                 end) as Htemplate.
  { intros s Hs. destruct host; [done|].
    apply (forEach_invariant P); [|done]. intros ? s' _ Hs'. exact Hs'. }
  apply Htemplate.
  do 2 (apply (forEach_invariant P); [intros ? s _ Hs; exact Hs|]).
  apply (forEach_invariant P); [|by case_decide].
  intros r s Hr Hs. unfold resolveReference.
  assert (∀ target', resolved (matcher (hostName host) host) host r target' →
                     P (mkDirectiveBinder (db_directives s) (db_bindings s)
                                          (<[r := target']> (db_references s)))) as Hset.
  { intros target' Htarget ref target. simpl.
    destruct (decide (r = ref)) as [<-|Hne].
    - rewrite lookup_insert_eq. intros [= <-]. by exists host.
    - rewrite lookup_insert_ne by done. apply Hs. }
  case_decide as Hblank.
  - destruct (List.find dir_isComponent _) as [dir|] eqn:Hfind; apply Hset; simpl.
    + apply find_some in Hfind as [Hin Hcomponent]. apply list_elem_of_In in Hin.
      by rewrite decide_True.
    + split; [done|]. split; [done|]. by apply find_none_all.
  - destruct (List.find _ _) as [dir|] eqn:Hfind; [|done]. apply Hset. simpl.
    apply find_some in Hfind as [Hin Hexports]. apply list_elem_of_In in Hin.
    rewrite decide_False by done. split; [done|]. split; [done|].
    destruct (dir_exportAs dir) as [exportAs|]; [|done]. exists exportAs. split; [done|].
    apply existsb_exists in Hexports as (value & Hvalue & Heq).
    apply String.eqb_eq in Heq as ->. by apply list_elem_of_In.
Qed.

End DirectiveBinderFacts.

Lemma every_binding_has_a_consumer_witness :
  is_Some (db_bindings (DirectiveBinder_apply (directiveMatcher noDirectives)
                          [NTemplate outerFor])
           !! boundNodeKey (BNText (mkTextAttribute 12 "ngFor" EmptyString))).
Proof.
  apply (every_binding_has_a_consumer (directiveMatcher noDirectives) [NTemplate outerFor]
           (inr outerFor) (BNText (mkTextAttribute 12 "ngFor" EmptyString))).
  - apply list_elem_of_In. vm_compute. left. reflexivity.
  - apply list_elem_of_In. vm_compute. left. reflexivity.
Defined.

Lemma consumers_are_hosts_or_their_directives_witness :
  ∃ host, host ∈ flat_map hostsOf [NTemplate outerFor] ∧
          (CNode (inr outerFor) = CNode host ∨
           ∃ dir, CNode (inr outerFor) = CDirective dir
                  ∧ dir ∈ directiveMatcher noDirectives (hostName host) host).
Proof.
  apply (proj1 (consumers_are_hosts_or_their_directives (directiveMatcher noDirectives)
                  [NTemplate outerFor]) (inr 12)).
  vm_compute. reflexivity.
Defined.

Lemma reference_targets_are_resolved_witness :
  ∃ host, host ∈ flat_map hostsOf [NElement boxElement] ∧
          boxReference ∈ node_references host ∧
          resolved [boxComponent] host boxReference (RTDirective boxComponent (inl boxElement)).
Proof.
  apply (reference_targets_are_resolved (λ _ _, [boxComponent]) [NElement boxElement]
           boxReference (RTDirective boxComponent (inl boxElement))).
  vm_compute. reflexivity.
Defined.

End BinderProperties.

(** * Further properties of the parser *)

Module ParserProperties.
Import ExprParser ParserFacts.
#[local] Open Scope Z_scope.

(** ** Errors are appended *)

Lemma setErrors_errors (s : _ParseAST) : setErrors (errors s) s = s.
Proof. by destruct s. Qed.

Lemma addErrors_cleared (s : _ParseAST) : addErrors (errors s) (setErrors [] s) = s.
Proof. destruct s. unfold addErrors, setErrors. simpl. by rewrite app_nil_r. Qed.

(** A method that only appends leaves the errors it found in front. *)
Lemma Frame_appends {A} (m : M A) s a s' :
  Frame m → m s = Some (a, s') →
  ∃ newErrors, errors s' = errors s ++ newErrors
               ∧ m (setErrors [] s) = Some (a, setErrors newErrors s').
Proof.
  intros Hframe Hm. rewrite <- (addErrors_cleared s), Hframe in Hm.
  destruct (m (setErrors [] s)) as [[a0 s0]|]; [|done]. simpl in Hm.
  injection Hm as -> <-. exists (errors s0). split.
  - unfold addErrors. by destruct s, s0.
  - unfold addErrors. by destruct s, s0.
Qed.

(** X10: every production of the grammar returns, from any state, when it is
    given [18 * tokens + 18] units of fuel.  It leaves the tokens as they
    are and does not move the index back, and it only appends to the
    errors: the errors it found stay in front, and on any other list of
    errors it returns the same result and appends the same errors. *)
Theorem productions_only_append_errors (s : _ParseAST) A (c : Production A) :
  ∃ a s' newErrors,
    run (fuelFor (tokens s)) A c s = Some (a, s') ∧
    tokens s' = tokens s ∧ (index s ≤ index s')%nat ∧
    errors s' = errors s ++ newErrors ∧
    ∀ olderErrors,
      run (fuelFor (tokens s)) A c (setErrors olderErrors s)
      = Some (a, setErrors (olderErrors ++ newErrors) s').
Proof.
  destruct (run_returns false s A c (fuelFor (tokens s)))
    as (a & s' & Hrun & [Htokens Hindex] & _); [done|apply wfCall_false|].
  destruct (Frame_appends _ _ _ _ (run_Frame _ A c) Hrun) as (newErrors & Herrors & Hcleared).
  exists a, s', newErrors. do 4 (split; [done|]). intros olderErrors.
  assert (setErrors olderErrors s = addErrors olderErrors (setErrors [] s)) as ->.
  { destruct s. unfold addErrors, setErrors. simpl. by rewrite app_nil_r. }
  rewrite run_Frame, Hcleared. simpl. unfold addErrors. by destruct s'.
Qed.

(** ** Error recovery *)

Lemma skipLoop_stops n : ∀ s,
  (remaining s ≤ n)%nat →
  wp (skipLoop n) s (λ _ s', ext s s' ∧ skipping s' = false
                             ∧ ((index s ≤ length (tokens s))%nat →
                                (index s' ≤ length (tokens s'))%nat)).
Proof.
  induction n as [|n IH]; intros s Hn; simpl.
  - wp_simple_step. split; [arith|]. split; [|done].
    unfold skipping. rewrite bool_decide_eq_false_2; [done|]. unfold remaining in Hn. lia.
  - wp_simple_step. wp_simple_step. destruct (skipping s) eqn:Hskipping.
    + assert (index s < length (tokens s))%nat as Hindex.
      { unfold skipping in Hskipping. rewrite !andb_true_iff in Hskipping.
        destruct Hskipping as [[[[[[H _] _] _] _] _] _]. by apply bool_decide_eq_true in H. }
      do 3 wp_simple_step.
      case_match; repeat wp_simple_step.
      * wp_use (apply IH; arith) as ? s'' Hext.
        destruct Hext as (Hext & Hstop & Hbound). split; [arith|]. split; [done|].
        intros _. apply Hbound. arith.
      * wp_use (apply IH; arith) as ? s'' Hext.
        destruct Hext as (Hext & Hstop & Hbound). split; [arith|]. split; [done|].
        intros _. apply Hbound. arith.
    + wp_simple_step. split; [arith|]. done.
Qed.

(** X11: [skip] stops where the condition of its loop fails: at the end of
    the tokens or in front of a [;], a [|], a closing bracket that is
    expected, or a [=] in a writable context.  It keeps the tokens and
    does not move the index back, nor beyond the end of the tokens when it
    was not beyond it. *)
Theorem skip_stops (s : _ParseAST) :
  ∃ s', skip s = Some (tt, s') ∧
        tokens s' = tokens s ∧ (index s ≤ index s')%nat ∧
        skipping s' = false ∧
        ((index s ≤ length (tokens s))%nat → (index s' ≤ length (tokens s'))%nat).
Proof.
  assert (wp skip s (λ _ s', ext s s' ∧ skipping s' = false
                             ∧ ((index s ≤ length (tokens s))%nat →
                                (index s' ≤ length (tokens s'))%nat))) as Hwp.
  { unfold skip. repeat wp_simple_step. apply skipLoop_stops. unfold remaining. lia. }
  destruct Hwp as ([] & s' & Hskip & [Htokens Hindex] & Hstop & Hbound).
  by exists s'.
Qed.

Lemma skip_stops_witness :
  let s := new_ParseAST "a b" "app.html" 0
             [mkToken 0 1 TokenType.Identifier 0 "a"; mkToken 2 3 TokenType.Identifier 0 "b"]
             0 [] 0 in
  ∃ s', skip s = Some (tt, s') ∧ (index s' ≤ length (tokens s'))%nat.
Proof.
  intros s. destruct (skip_stops s) as (s' & Hskip & _ & _ & _ & Hbound).
  exists s'. split; [exact Hskip|]. apply Hbound. simpl. lia.
Defined.

(** X12: [error] appends the error it is called with, located at the state
    it is called in, before anything that the recovery reports, and
    recovers with [skip]: it returns where the loop of [skip] stops. *)
Theorem error_reports_then_skips (message : string) (index : option Z) (s : _ParseAST) :
  ∃ s' more,
    error message index s = Some (tt, s') ∧
    errors s' = errors s
                ++ mkParserError message (input s) (locationText s index)
                                 (Some (location s)) :: more ∧
    tokens s' = tokens s ∧ (ExprParser.index s ≤ ExprParser.index s')%nat ∧
    skipping s' = false.
Proof.
  unfold error, bind, gets, pushError, modify.
  set (s1 := setErrors _ s).
  destruct (skip_stops s1) as (s' & Hskip & Htokens & Hindex & Hstop & _).
  destruct (Frame_appends _ _ _ _ Frame_skip Hskip) as (more & Herrors & _).
  exists s', more. rewrite Hskip. split; [done|]. split; [|done].
  rewrite Herrors. unfold s1. simpl. by rewrite <- app_assoc.
Qed.

(** ** The context flags *)

Lemma lxor_lor_same (context flag : Z) :
  Z.lxor (Z.lor context flag) flag = Z.land context (Z.lnot flag).
Proof.
  apply Z.bits_inj'. intros n Hn.
  rewrite Z.lxor_spec, Z.lor_spec, Z.land_spec, Z.lnot_spec by done.
  by destruct (Z.testbit context n), (Z.testbit flag n).
Qed.

(** X13: [withContext] runs the callback with the flag set, and when the
    callback leaves the context as it found it, the flag is cleared
    afterwards, whether it was set before or not: the context is the one
    from before exactly when the flag was not set in it. *)
Theorem withContext_clears_flag {T} (flag : Z) (cb : M T) (s s1 : _ParseAST) (a : T) :
  cb (setContext (Z.lor (context s) flag) s) = Some (a, s1) →
  context s1 = Z.lor (context s) flag →
  withContext flag cb s = Some (a, setContext (Z.land (context s) (Z.lnot flag)) s1) ∧
  (Z.land (context s) flag = 0 → Z.land (context s) (Z.lnot flag) = context s) ∧
  (Z.land (context s) flag ≠ 0 → Z.land (context s) (Z.lnot flag) ≠ context s).
Proof.
  intros Hcb Hcontext. split; [|split].
  - unfold withContext, bind, modify, ret. rewrite Hcb. rewrite Hcontext.
    by rewrite lxor_lor_same.
  - intros Hclear. apply Z.bits_inj'. intros n Hn.
    rewrite Z.land_spec, Z.lnot_spec by done.
    apply (f_equal (λ z, Z.testbit z n)) in Hclear.
    rewrite Z.land_spec, Z.bits_0 in Hclear.
    by destruct (Z.testbit (context s) n), (Z.testbit flag n).
  - intros Hset Heq. apply Hset. apply Z.bits_inj'. intros n Hn.
    rewrite Z.land_spec, Z.bits_0.
    apply (f_equal (λ z, Z.testbit z n)) in Heq.
    rewrite Z.land_spec, Z.lnot_spec in Heq by done.
    by destruct (Z.testbit (context s) n), (Z.testbit flag n).
Qed.

Lemma withContext_clears_flag_witness :
  let s := new_ParseAST "a" "app.html" 0 [mkToken 0 1 TokenType.Identifier 0 "a"] 0 [] 0 in
  let flag := ParseContextFlags.Writable in
  withContext flag (ret tt) s
  = Some (tt, setContext (Z.land (context s) (Z.lnot flag))
                (setContext (Z.lor (context s) flag) s)) ∧
  (Z.land (context s) flag = 0 → Z.land (context s) (Z.lnot flag) = context s) ∧
  (Z.land (context s) flag ≠ 0 → Z.land (context s) (Z.lnot flag) ≠ context s).
Proof.
  intros s flag.
  apply (withContext_clears_flag flag (ret tt) s (setContext (Z.lor (context s) flag) s) tt);
    reflexivity.
Defined.

(** ** Blank input *)

Lemma span_whole_input input location absoluteOffset parseFlags E :
  span (new_ParseAST input location absoluteOffset [] parseFlags E 0) 0
       (Some (0 + jsLength input))
  = mkParseSpan 0 (jsLength input).
Proof.
  unfold span, currentEndIndex. simpl.
  assert (0 ≤ jsLength input) as Hlen by (unfold jsLength; lia).
  rewrite Z.add_0_r, Z.add_0_l.
  destruct (jsLength input >? jsLength input) eqn:H1; [lia|].
  destruct (0 >? jsLength input) eqn:H2; [lia|done].
Qed.

Lemma parseChain_no_tokens input location absoluteOffset parseFlags E :
  ∃ s', run (fuelFor []) _ CParseChain
          (new_ParseAST input location absoluteOffset [] parseFlags E 0)
        = Some (EmptyExpr (mkParseSpan 0 (jsLength input))
                          (mkAbsoluteSourceSpan absoluteOffset (absoluteOffset + jsLength input)),
                s')
        ∧ errors s' = E.
Proof.
  eexists. split.
  - unfold fuelFor. simpl. unfold parseChain, bind, gets, sourceSpan, bind, gets, modify, ret.
    simpl. rewrite lookup_empty, !span_whole_input.
    unfold toAbsolute. simpl. rewrite Z.add_0_r. reflexivity.
  - reflexivity.
Qed.

(** X14: an input whose text without the comment has no tokens parses to an
    [EmptyExpr] that spans the whole input, comment included, and the
    parser reports nothing about it: the only error there can be is that
    of the check for interpolation. *)
Theorem blank_input_is_empty_expression (this : Parser) (input location : string)
    (absoluteOffset : Z) (config : InterpolationConfig) (isAssignmentEvent : bool) :
  tokenize (_lexer this) (_stripComments input) = [] →
  let empty := ASTWithSource
                 (EmptyExpr (mkParseSpan 0 (jsLength input))
                    (mkAbsoluteSourceSpan absoluteOffset (absoluteOffset + jsLength input)))
                 (Some input) location absoluteOffset in
  parseBinding this input location absoluteOffset config
  = Some (empty, _checkNoInterpolation input location config this) ∧
  parseAction this input isAssignmentEvent location absoluteOffset config
  = Some (empty, _checkNoInterpolation input location config this).
Proof.
  intros Htokens empty.
  assert (∀ parseFlags,
            withParseAST (_checkNoInterpolation input location config this) input location
              absoluteOffset (_stripComments input) parseFlags
              (λ tokens, run (fuelFor tokens) _ CParseChain)
            = Some (EmptyExpr (mkParseSpan 0 (jsLength input))
                      (mkAbsoluteSourceSpan absoluteOffset (absoluteOffset + jsLength input)),
                    _checkNoInterpolation input location config this)) as Hparse.
  { intros parseFlags. unfold withParseAST.
    assert (_lexer (_checkNoInterpolation input location config this) = _lexer this) as Hlexer.
    { unfold _checkNoInterpolation. destruct (_checkNoInterpolationLoop _ _ _ _ _ _).
      by case_match. }
    rewrite Hlexer, Htokens.
    destruct (parseChain_no_tokens input location absoluteOffset parseFlags
                (parser_errors (_checkNoInterpolation input location config this)))
      as (s' & -> & ->).
    rewrite <- Hlexer. by destruct (_checkNoInterpolation input location config this). }
  split.
  - unfold parseBinding, _parseBindingAst. by rewrite Hparse.
  - unfold parseAction. by rewrite Hparse.
Qed.

Lemma blank_input_is_empty_expression_witness :
  let empty := ASTWithSource (EmptyExpr (mkParseSpan 0 9) (mkAbsoluteSourceSpan 4 13))
                 (Some "  // todo") "app.html" 4 in
  let this := newParser ExampleLexer.lexer in
  parseBinding this "  // todo" "app.html" 4 DEFAULT_INTERPOLATION_CONFIG
  = Some (empty, _checkNoInterpolation "  // todo" "app.html" DEFAULT_INTERPOLATION_CONFIG this)
  ∧ parseAction this "  // todo" false "app.html" 4 DEFAULT_INTERPOLATION_CONFIG
    = Some (empty, _checkNoInterpolation "  // todo" "app.html" DEFAULT_INTERPOLATION_CONFIG
                     this).
Proof.
  intros empty this.
  apply (blank_input_is_empty_expression this "  // todo" "app.html" 4
           DEFAULT_INTERPOLATION_CONFIG false).
  vm_compute. reflexivity.
Defined.

(** ** The check for interpolation *)

Lemma _checkNoInterpolationLoop_no_start input start end_ charIndexes :
  startsWith input start 0 = false →
  _checkNoInterpolationLoop input start end_ charIndexes (-1) (-1) = (-1, -1).
Proof. intros Hstart. induction charIndexes as [|c rest IH]; simpl; [done|]. by rewrite Hstart. Qed.

(** X15: [_checkNoInterpolation] reports at most one error, after those the
    parser holds, and none for an input that does not begin with the
    start delimiter, wherever else the delimiters are in it. *)
Theorem interpolation_check_looks_at_the_start (input location : string)
    (config : InterpolationConfig) (this : Parser) :
  (∃ newErrors, (length newErrors ≤ 1)%nat ∧
                _checkNoInterpolation input location config this
                = mkParser (_lexer this) (parser_errors this ++ newErrors)) ∧
  (startsWith input (ic_start config) 0 = false →
   _checkNoInterpolation input location config this = this).
Proof.
  split.
  - unfold _checkNoInterpolation.
    destruct (_checkNoInterpolationLoop _ _ _ _ _ _) as [startIndex endIndex].
    case_match.
    + eexists [_]. split; [done|]. reflexivity.
    + exists []. split; [simpl; lia|]. rewrite app_nil_r. by destruct this.
  - intros Hstart. unfold _checkNoInterpolation.
    by rewrite _checkNoInterpolationLoop_no_start.
Qed.

Lemma interpolation_check_looks_at_the_start_witness :
  _checkNoInterpolation "a {{b}} {{c}}" "app.html" DEFAULT_INTERPOLATION_CONFIG
                        (newParser ExampleLexer.lexer)
  = newParser ExampleLexer.lexer.
Proof.
  apply (proj2 (interpolation_check_looks_at_the_start "a {{b}} {{c}}" "app.html"
                  DEFAULT_INTERPOLATION_CONFIG (newParser ExampleLexer.lexer))).
  vm_compute. reflexivity.
Defined.

(** ** Simple bindings *)





(** ** Strings as lists of characters *)

#[local] Abbreviation chars_of := list_ascii_of_string.

Lemma length_chars_of (s : string) : length (chars_of s) = String.length s.
Proof. induction s; simpl; [done|]. by f_equal. Qed.

Lemma chars_of_append (s1 s2 : string) : chars_of (s1 +:+ s2) = chars_of s1 ++ chars_of s2.
Proof. induction s1; simpl; [done|]. by f_equal. Qed.

Lemma chars_of_inj (s1 s2 : string) : chars_of s1 = chars_of s2 → s1 = s2.
Proof.
  intros H. rewrite <- (string_of_list_ascii_of_string s1), H.
  apply string_of_list_ascii_of_string.
Qed.

Lemma chars_of_substring (s : string) : ∀ n m,
  chars_of (String.substring n m s) = take m (drop n (chars_of s)).
Proof.
  induction s as [|c s IH]; intros n m; simpl.
  - destruct n, m; try done.
  - destruct n as [|n]; simpl.
    + destruct m as [|m]; simpl; [done|]. f_equal. apply (IH 0%nat).
    + apply IH.
Qed.

Lemma prefix_chars (a b : string) :
  String.prefix a b = true ↔ take (String.length a) (chars_of b) = chars_of a.
Proof.
  revert b. induction a as [|c a IH]; intros b; simpl; [by destruct b|].
  destruct b as [|d b]; simpl; [done|].
  destruct (Ascii.ascii_dec c d) as [->|Hne].
  - rewrite IH. split; [by intros ->|by intros [= ?]].
  - split; [done|]. intros [= ? _]. by destruct Hne.
Qed.

Lemma index_ge (x : string) (s : string) : ∀ n m, String.index n x s = Some m → (n ≤ m)%nat.
Proof.
  induction s as [|c s IH]; intros n m; simpl.
  - destruct n; [|done]. destruct x; [|done]. intros [= <-]. lia.
  - destruct n as [|n].
    + intros _. lia.
    + destruct (String.index n x s) as [k|] eqn:Hk; [|done]. intros [= <-].
      apply IH in Hk. lia.
Qed.

Lemma index_bound (x : string) (s : string) : ∀ n m,
  String.index n x s = Some m → (m + String.length x ≤ String.length s)%nat.
Proof.
  induction s as [|c s IH]; intros n m; cbn -[String.prefix].
  - destruct n; [|done]. destruct x; [|done]. intros [= <-]. simpl. lia.
  - destruct n as [|n].
    + destruct (String.prefix x (String c s)) eqn:Hprefix.
      * intros [= <-]. apply prefix_chars in Hprefix. apply (f_equal length) in Hprefix.
        rewrite length_take, !length_chars_of in Hprefix. simpl in *. lia.
      * destruct (String.index 0 x s) as [k|] eqn:Hk; [|done]. intros [= <-].
        apply IH in Hk. lia.
    + destruct (String.index n x s) as [k|] eqn:Hk; [|done]. intros [= <-].
      apply IH in Hk. lia.
Qed.

Lemma jsLength_chars (s : string) : jsLength s = Z.of_nat (length (chars_of s)).
Proof. unfold jsLength. by rewrite length_chars_of. Qed.

Lemma length_charCodes (s : string) : Z.of_nat (length (charCodes s)) = jsLength s.
Proof. unfold charCodes. by rewrite length_fmap, jsLength_chars. Qed.

(** [substring] within the bounds of the string. *)
Lemma chars_of_js_substring (s : string) (start end_ : Z) :
  0 ≤ start ≤ end_ → end_ ≤ jsLength s →
  chars_of (substring s start end_)
  = take (Z.to_nat (end_ - start)) (drop (Z.to_nat start) (chars_of s)).
Proof.
  intros Hstart Hend. unfold substring. cbv zeta beta.
  replace (Z.max 0 (Z.min start (jsLength s))) with start by lia.
  replace (Z.max 0 (Z.min end_ (jsLength s))) with end_ by lia.
  rewrite Z.min_l, Z.max_r by lia. apply chars_of_substring.
Qed.

Lemma charCodes_js_substring (s : string) (start end_ : Z) :
  0 ≤ start ≤ end_ → end_ ≤ jsLength s →
  charCodes (substring s start end_)
  = take (Z.to_nat (end_ - start)) (drop (Z.to_nat start) (charCodes s)).
Proof.
  intros Hstart Hend. unfold charCodes.
  rewrite chars_of_js_substring by done. by rewrite fmap_take, fmap_drop.
Qed.

(** [startsWith] at a position within the string. *)
Lemma startsWith_chars (s x : string) (position : Z) :
  0 ≤ position ≤ jsLength s →
  startsWith s x position = true
  ↔ take (String.length x) (drop (Z.to_nat position) (chars_of s)) = chars_of x.
Proof.
  intros Hposition. unfold startsWith, substringFrom.
  rewrite prefix_chars, chars_of_js_substring by lia.
  rewrite (take_ge (drop _ _)); [done|]. rewrite length_drop, jsLength_chars. lia.
Qed.

(** [indexOf] from a position within the string. *)
Lemma indexOf_found (s x : string) (fromIndex r : Z) :
  0 ≤ fromIndex ≤ jsLength s →
  indexOf s x fromIndex = r →
  r = -1 ∨ (fromIndex ≤ r ∧ r + jsLength x ≤ jsLength s ∧ startsWith s x r = true).
Proof.
  intros Hfrom. unfold indexOf. rewrite Z.min_l, Z.max_r by lia.
  destruct (String.index _ x s) as [i|] eqn:Hindex; intros <-; [right|by left].
  pose proof (index_ge _ _ _ _ Hindex) as Hge.
  pose proof (index_bound _ _ _ _ Hindex) as Hbound.
  apply index_correct1 in Hindex.
  split; [lia|]. split; [unfold jsLength; lia|].
  apply startsWith_chars; [unfold jsLength; lia|].
  rewrite Nat2Z.id. rewrite <- chars_of_substring. by rewrite Hindex.
Qed.

Lemma startsWith_bound (s x : string) (position : Z) :
  0 ≤ position ≤ jsLength s → startsWith s x position = true →
  position + jsLength x ≤ jsLength s.
Proof.
  intros Hposition Hstarts. apply startsWith_chars in Hstarts; [|done].
  apply (f_equal length) in Hstarts.
  rewrite length_take, length_drop, !length_chars_of in Hstarts.
  unfold jsLength in *. lia.
Qed.

(** ** Comments *)

Lemma _commentStartLoop_found chars : ∀ i outerQuote j,
  _commentStartLoop chars i outerQuote = Some j →
  ∃ k : nat, j = i + Z.of_nat k ∧
             chars !! k = Some chars.SLASH ∧ chars !! S k = Some chars.SLASH ∧
             _commentStartLoop (take k chars) i outerQuote = None.
Proof.
  induction chars as [|char rest IH]; intros i outerQuote j; [done|].
  destruct rest as [|nextChar rest]; [done|].
  cbn [_commentStartLoop].
  destruct ((char =? chars.SLASH) && (nextChar =? chars.SLASH)
            && bool_decide (outerQuote = None)) eqn:Hfound.
  - intros [= <-]. exists 0%nat. rewrite !andb_true_iff in Hfound.
    destruct Hfound as [[Hchar Hnext] _].
    apply Z.eqb_eq in Hchar as ->. apply Z.eqb_eq in Hnext as ->.
    split; [lia|]. done.
  - intros Hrest. apply IH in Hrest as (k & -> & Hk & HSk & Hnone).
    exists (S k). split; [lia|]. split; [done|]. split; [done|].
    destruct k as [|k]; [done|].
    change (take (S (S k)) (char :: nextChar :: rest))
      with (char :: nextChar :: take k rest).
    cbn [_commentStartLoop]. rewrite Hfound. exact Hnone.
Qed.

(** X17: the index that [_commentStart] returns is that of two slashes in
    the input, and [_stripComments] returns the text in front of them,
    or the input when there is no such index.  The text without its
    comment has no comment: [_stripComments] leaves its own results as
    they are. *)
Theorem stripComments_removes_the_comment (input : string) :
  (∀ i, _commentStart input = Some i →
        0 ≤ i ∧ i + 1 < jsLength input ∧
        charCodes input !! Z.to_nat i = Some chars.SLASH ∧
        charCodes input !! Z.to_nat (i + 1) = Some chars.SLASH ∧
        charCodes (_stripComments input) = take (Z.to_nat i) (charCodes input)) ∧
  (_commentStart input = None → _stripComments input = input) ∧
  _commentStart (_stripComments input) = None ∧
  _stripComments (_stripComments input) = _stripComments input.
Proof.
  assert (∀ i, _commentStart input = Some i →
               0 ≤ i ∧ i + 1 < jsLength input ∧
               charCodes input !! Z.to_nat i = Some chars.SLASH ∧
               charCodes input !! Z.to_nat (i + 1) = Some chars.SLASH ∧
               charCodes (_stripComments input) = take (Z.to_nat i) (charCodes input) ∧
               _commentStart (_stripComments input) = None) as Hfound.
  { intros i Hi. unfold _stripComments. rewrite Hi. unfold _commentStart in *.
    apply _commentStartLoop_found in Hi as (k & -> & Hk & HSk & Hnone).
    pose proof (lookup_lt_Some _ _ _ HSk) as Hlen.
    rewrite Z.add_0_l, Nat2Z.id.
    replace (Z.to_nat (Z.of_nat k + 1)) with (S k) by lia.
    assert (charCodes (substring input 0 (Z.of_nat k))
            = take k (charCodes input)) as Hstripped.
    { rewrite charCodes_js_substring; [|lia|rewrite <- length_charCodes; lia].
      simpl. by rewrite Z.sub_0_r, Nat2Z.id. }
    rewrite <- length_charCodes. split; [lia|]. split; [lia|].
    do 3 (split; [done|]). by rewrite Hstripped. }
  split; [|split; [|split]].
  - intros i Hi. destruct (Hfound i Hi) as (? & ? & ? & ? & ? & _). done.
  - intros Hnone. unfold _stripComments. by rewrite Hnone.
  - destruct (_commentStart input) as [i|] eqn:Hi.
    + by destruct (Hfound i eq_refl) as (_ & _ & _ & _ & _ & ?).
    + unfold _stripComments. by rewrite Hi.
  - destruct (_commentStart input) as [i|] eqn:Hi.
    + destruct (Hfound i eq_refl) as (_ & _ & _ & _ & _ & Hnone).
      unfold _stripComments at 1. by rewrite Hnone.
    + unfold _stripComments. by rewrite Hi, Hi.
Qed.

Lemma stripComments_removes_the_comment_witness :
  0 ≤ 2 ∧ 2 + 1 < jsLength "a // b" ∧
  charCodes "a // b" !! Z.to_nat 2 = Some chars.SLASH ∧
  charCodes "a // b" !! Z.to_nat (2 + 1) = Some chars.SLASH ∧
  charCodes (_stripComments "a // b") = take (Z.to_nat 2) (charCodes "a // b").
Proof.
  apply (proj1 (stripComments_removes_the_comment "a // b") 2). vm_compute. reflexivity.
Defined.

(** ** The characters outside quotes *)

Lemma _forEachUnquotedCharLoop_bounds chars : ∀ i currentQuote escapeCount,
  Forall (λ j, i ≤ j < i + Z.of_nat (length chars))
         (_forEachUnquotedCharLoop chars i currentQuote escapeCount).
Proof.
  induction chars as [|char rest IH]; intros i currentQuote escapeCount; simpl; [done|].
  assert (∀ q e, Forall (λ j : Z, i ≤ j < i + Z.pos (Pos.of_succ_nat (length rest)))
                        (_forEachUnquotedCharLoop rest (i + 1) q e)) as Hrest.
  { intros q e. eapply Forall_impl; [apply IH|]. simpl. intros j. lia. }
  destruct (_ && _); [apply Hrest|].
  destruct (bool_decide _); [|apply Hrest]. constructor; [lia|apply Hrest].
Qed.

Lemma _forEachUnquotedCharLoop_sorted chars : ∀ i currentQuote escapeCount,
  StronglySorted Z.lt (_forEachUnquotedCharLoop chars i currentQuote escapeCount).
Proof.
  induction chars as [|char rest IH]; intros i currentQuote escapeCount; simpl;
    [constructor|].
  destruct (_ && _); [apply IH|].
  destruct (bool_decide _); [|apply IH]. constructor; [apply IH|].
  eapply Forall_impl; [apply _forEachUnquotedCharLoop_bounds|]. simpl. intros j. lia.
Qed.

Lemma _forEachUnquotedCharLoop_no_quotes chars : ∀ i escapeCount,
  Forall (λ char, chars.isQuote char = false) chars →
  _forEachUnquotedCharLoop chars i None escapeCount = seqZ i (Z.of_nat (length chars)).
Proof.
  induction chars as [|char rest IH]; intros i escapeCount Hquotes; simpl; [done|].
  apply Forall_cons in Hquotes as [-> Hquotes]. simpl.
  rewrite IH by done.
  replace (Z.pos (Pos.of_succ_nat (length rest))) with (Z.succ (Z.of_nat (length rest)))
    by lia.
  rewrite (seqZ_cons i) by lia. f_equal. f_equal; lia.
Qed.

Lemma _forEachUnquotedChar_bounds (input : string) (start : Z) :
  0 ≤ start →
  Forall (λ j, start ≤ j < jsLength input) (_forEachUnquotedChar input start).
Proof.
  intros Hstart. unfold _forEachUnquotedChar.
  eapply Forall_impl; [apply _forEachUnquotedCharLoop_bounds|]. simpl. intros j.
  rewrite length_drop, <- length_charCodes. lia.
Qed.

(** X18: the indexes that [_forEachUnquotedChar] yields are positions of
    the input from [start] on, in increasing order; when the input has
    no quote character they are all the positions from [start] on. *)
Theorem unquoted_indexes_are_positions (input : string) (start : Z) :
  0 ≤ start →
  Forall (λ j, start ≤ j < jsLength input) (_forEachUnquotedChar input start) ∧
  StronglySorted Z.lt (_forEachUnquotedChar input start) ∧
  (Forall (λ char, chars.isQuote char = false) (charCodes input) →
   _forEachUnquotedChar input start = seqZ start (jsLength input - start)).
Proof.
  intros Hstart. split; [by apply _forEachUnquotedChar_bounds|].
  unfold _forEachUnquotedChar. split.
  - apply _forEachUnquotedCharLoop_sorted.
  - intros Hquotes. rewrite _forEachUnquotedCharLoop_no_quotes.
    + rewrite length_drop, <- length_charCodes.
      destruct (decide (start ≤ Z.of_nat (length (charCodes input)))).
      * f_equal. lia.
      * replace (Z.of_nat (length (charCodes input) - Z.to_nat start)) with 0 by lia.
        unfold seqZ. do 2 f_equal. lia.
    + by apply Forall_drop.
Qed.

Lemma unquoted_indexes_are_positions_witness :
  Forall (λ j, 1 ≤ j < jsLength "a 'b' c") (_forEachUnquotedChar "a 'b' c" 1) ∧
  StronglySorted Z.lt (_forEachUnquotedChar "a 'b' c" 1) ∧
  (Forall (λ char, chars.isQuote char = false) (charCodes "a 'b' c") →
   _forEachUnquotedChar "a 'b' c" 1 = seqZ 1 (jsLength "a 'b' c" - 1)).
Proof. apply (unquoted_indexes_are_positions "a 'b' c" 1). lia. Defined.

(** ** The end of an interpolation *)

Lemma _getInterpolationEndIndexLoop_found input expressionEnd start charIndexes r :
  0 ≤ start →
  Forall (λ j, start ≤ j < jsLength input) charIndexes →
  _getInterpolationEndIndexLoop input expressionEnd charIndexes = r →
  r = -1 ∨ (start ≤ r ∧ r + jsLength expressionEnd ≤ jsLength input
            ∧ startsWith input expressionEnd r = true).
Proof.
  intros Hstart. induction 1 as [|charIndex rest Hindex _ IH]; simpl; [by left|].
  destruct (startsWith input expressionEnd charIndex) eqn:Hend.
  - intros <-. right. split; [lia|]. split; [|done]. apply startsWith_bound; [lia|done].
  - destruct (startsWith input "//" charIndex).
    + intros Hr. apply indexOf_found in Hr as [->|(? & ? & ?)]; [by left|right|lia].
      split; [lia|]. done.
    + apply IH.
Qed.

Lemma interpolation_end_index_found (input expressionEnd : string) (start r : Z) :
  0 ≤ start →
  _getInterpolationEndIndex input expressionEnd start = r →
  r = -1 ∨ (start ≤ r ∧ r + jsLength expressionEnd ≤ jsLength input
            ∧ startsWith input expressionEnd r = true).
Proof.
  intros Hstart. unfold _getInterpolationEndIndex.
  apply _getInterpolationEndIndexLoop_found; [done|].
  by apply _forEachUnquotedChar_bounds.
Qed.

(** X19: [_getInterpolationEndIndex] returns -1 or a position of the input,
    not before [start], where the end delimiter stands in the input. *)
Theorem interpolation_end_is_at_the_delimiter (input expressionEnd : string) (start r : Z) :
  0 ≤ start →
  _getInterpolationEndIndex input expressionEnd start = r →
  r = -1 ∨ (start ≤ r ∧ r + jsLength expressionEnd ≤ jsLength input
            ∧ startsWith input expressionEnd r = true).
Proof.
  apply interpolation_end_index_found.
Qed.

Lemma interpolation_end_is_at_the_delimiter_witness :
  6 = -1 ∨ (2 ≤ 6 ∧ 6 + jsLength "}}" ≤ jsLength "{{'}}'}}"
            ∧ startsWith "{{'}}'}}" "}}" 6 = true).
Proof.
  apply (interpolation_end_is_at_the_delimiter "{{'}}'}}" "}}" 2 6); [lia|].
  vm_compute. reflexivity.
Defined.

(** ** The offsets of the original template *)

Lemma totalGrowth_snoc tokens token :
  totalGrowth (tokens ++ [token]) = totalGrowth tokens + growth token.
Proof. induction tokens as [|t tokens IH]; simpl; [lia|]. rewrite IH. lia. Qed.

Lemma getIndexMapLoop_entries rest : ∀ seen offsetMap consumedInOriginalTemplate consumedInInput,
  consumedInOriginalTemplate - consumedInInput = totalGrowth seen →
  (∀ k v, offsetMap !! k = Some v →
          ∃ before, before `prefix_of` seen ++ rest ∧ v - k = totalGrowth before) →
  ∀ k v, getIndexMapLoop rest offsetMap consumedInOriginalTemplate consumedInInput !! k = Some v →
         ∃ before, before `prefix_of` seen ++ rest ∧ v - k = totalGrowth before.
Proof.
  induction rest as [|token rest IH];
    intros seen offsetMap original consumed Hconsumed Hmap; simpl; [done|].
  set (original' := match token with
                    | EncodedEntityToken decoded encoded => original + jsLength encoded
                    | TextOrInterpolationToken parts =>
                        original + foldl (λ sum current, sum + jsLength current) 0 parts
                    end).
  set (consumed' := match token with
                    | EncodedEntityToken decoded encoded => consumed + jsLength decoded
                    | TextOrInterpolationToken parts =>
                        consumed + foldl (λ sum current, sum + jsLength current) 0 parts
                    end).
  assert (original' - consumed' = totalGrowth (seen ++ [token])) as Hnext.
  { rewrite totalGrowth_snoc. unfold original', consumed'. destruct token; simpl; lia. }
  replace (let '(consumedInOriginalTemplate, consumedInInput) :=
             match token with
             | EncodedEntityToken decoded encoded =>
                 (original + jsLength encoded, consumed + jsLength decoded)
             | TextOrInterpolationToken parts =>
                 (original + foldl (λ sum current, sum + jsLength current) 0 parts,
                  consumed + foldl (λ sum current, sum + jsLength current) 0 parts)
             end in
           getIndexMapLoop rest (<[consumedInInput := consumedInOriginalTemplate]> offsetMap)
             consumedInOriginalTemplate consumedInInput)
    with (getIndexMapLoop rest (<[consumed' := original']> offsetMap) original' consumed')
    by (unfold original', consumed'; by destruct token).
  intros k v Hk.
  rewrite (cons_middle token seen rest), app_assoc.
  eapply (IH (seen ++ [token])); [exact Hnext| |exact Hk].
  intros k' v'. destruct (decide (consumed' = k')) as [<-|Hne].
  - rewrite lookup_insert_eq. intros [= <-]. exists (seen ++ [token]).
    split; [by apply prefix_app_r|done].
  - rewrite lookup_insert_ne by done. intros Hk'.
    destruct (Hmap k' v' Hk') as (before & Hprefix & Hgrowth).
    exists before. split; [|done]. by rewrite <- app_assoc.
Qed.

(** X20: every entry of the map of [getIndexMapForOriginalTemplate] sends a
    position of the decoded input to that position plus the characters
    that the encoded entities of the tokens in front of it have more than
    their decoded forms.  Without entity tokens every position is sent to
    itself, and when no entity is shorter than its decoded form no
    position is sent backwards. *)
Theorem index_map_adds_the_entity_growth (tokens : list InterpolatedToken) (k v : Z) :
  getIndexMapForOriginalTemplate tokens !! k = Some v →
  (∃ before, before `prefix_of` tokens ∧ v - k = totalGrowth before) ∧
  (Forall (λ token, growth token = 0) tokens → v = k) ∧
  (Forall (λ token, 0 ≤ growth token) tokens → k ≤ v).
Proof.
  intros Hk.
  assert (∃ before, before `prefix_of` tokens ∧ v - k = totalGrowth before)
    as (before & Hprefix & Hgrowth).
  { apply (getIndexMapLoop_entries tokens [] ∅ 0 0); [done| |done].
    intros k' v'. by rewrite lookup_empty. }
  split; [by exists before|].
  destruct Hprefix as [after ->].
  split; intros Hall; apply Forall_app in Hall as [Hbefore _].
  - assert (totalGrowth before = 0); [|lia].
    clear -Hbefore. induction Hbefore as [|t ts Ht _ IH]; simpl; lia.
  - assert (0 ≤ totalGrowth before); [|lia].
    clear -Hbefore. induction Hbefore as [|t ts Ht _ IH]; simpl; lia.
Qed.

Lemma index_map_adds_the_entity_growth_witness :
  let tokens := [TextOrInterpolationToken ["a "]; EncodedEntityToken "&" "&amp;";
                 TextOrInterpolationToken ["{{"; " b "; "}}"]] in
  (∃ before, before `prefix_of` tokens ∧ 14 - 10 = totalGrowth before) ∧
  (Forall (λ token, growth token = 0) tokens → 14 = 10) ∧
  (Forall (λ token, 0 ≤ growth token) tokens → 10 ≤ 14).
Proof.
  intros tokens. apply (index_map_adds_the_entity_growth tokens 10 14).
  vm_compute. reflexivity.
Defined.

(** ** Splitting an interpolated text *)

Lemma chars_interpolated_snoc_string a b ss : ∀ es s,
  length ss = length es →
  chars_of (interpolated a b (ss ++ [s]) es)
  = chars_of (interpolated a b ss es) ++ chars_of s.
Proof.
  induction ss as [|t ss IH]; intros [|e es] s Hlen; try done.
  simpl in *. rewrite !chars_of_append, IH by lia. by rewrite <- !app_assoc.
Qed.

Lemma chars_interpolated_snoc_both a b ss : ∀ es s e,
  length ss = length es →
  chars_of (interpolated a b (ss ++ [s]) (es ++ [e]))
  = chars_of (interpolated a b ss es) ++ chars_of s ++ chars_of a ++ chars_of e ++ chars_of b.
Proof.
  induction ss as [|t ss IH]; intros [|e0 es] s e Hlen; try done.
  - simpl. rewrite !chars_of_append. simpl. by rewrite app_nil_r.
  - simpl in *. rewrite !chars_of_append, IH by lia. by rewrite <- !app_assoc.
Qed.

Lemma take_chunk {A} (l : list A) (a b : nat) :
  (a ≤ b)%nat → take a l ++ take (b - a) (drop a l) = take b l.
Proof. intros Hab. rewrite take_take_drop. f_equal. lia. Qed.

Lemma length_snoc_inv {A} (l : list A) n :
  length l = S n → ∃ l0 x, l = l0 ++ [x] ∧ length l0 = n.
Proof.
  destruct l as [|x l] using rev_ind; [done|]. rewrite length_app. simpl.
  intros Hlen. exists l, x. split; [done|lia].
Qed.

Section Split.
Variables (input location interpStart interpEnd : string).
Variable inputToTemplateIndexMap : option (gmap Z Z).
Hypothesis Hdelimiters : 0 < jsLength interpStart + jsLength interpEnd.

Lemma splitInterpolationLoop_spec fuel : ∀ st this,
  splitInv input interpStart interpEnd st → (splitMeasure input st < fuel)%nat →
  ∃ st' newErrors,
    splitInterpolationLoop fuel input location interpStart interpEnd inputToTemplateIndexMap
                           st this
    = Some (st', mkParser (_lexer this) (parser_errors this ++ newErrors)) ∧
    splitDone input interpStart interpEnd st' ∧ blankErrors newErrors.
Proof.
  assert (0 ≤ jsLength interpStart ∧ 0 ≤ jsLength interpEnd) as [HlenStart HlenEnd]
    by (unfold jsLength; lia).
  induction fuel as [|fuel IH]; intros st this ((Hi & Hoffsets & Hchars) & Hextend & Hphase) Hfuel;
    [lia|].
  cbn [splitInterpolationLoop]. cbv zeta.
  destruct (ss_i st <? jsLength input) eqn:Hmore; first last.
  { exists st, []. rewrite app_nil_r. split; [by destruct this|]. split; [|constructor].
    split; [done|]. left. split; [done|]. split; [lia|].
    destruct (ss_atInterpolation st); [by destruct Hphase|done]. }
  apply Z.ltb_lt in Hmore.
  destruct (ss_atInterpolation st) eqn:Hat; cbn [negb].
  - (* from the starting delimiter to the ending one *)
    destruct Hphase as [Hlen Hstart]. specialize (Hstart Hmore).
    assert (ss_i st + jsLength interpStart ≤ jsLength input) as HexprStart
      by (apply startsWith_bound; [lia|done]).
    set (exprStart := ss_i st + jsLength interpStart) in *.
    assert (0 ≤ exprStart) as Hnonneg by (unfold exprStart, jsLength; lia).
    destruct (interpolation_end_index_found input interpEnd exprStart _ Hnonneg eq_refl)
      as [Hnone|(HexprEnd & HfullEnd & Hend)].
    { rewrite Hnone. simpl. exists (mkSplitState (ss_strings st) (ss_expressions st)
                                      (ss_offsets st) (ss_i st) false true), [].
      rewrite app_nil_r. split; [by destruct this|]. split; [|constructor].
      split; [done|]. right. done. }
    set (exprEnd := _getInterpolationEndIndex input interpEnd exprStart) in *.
    destruct (exprEnd =? -1) eqn:Hminus; [apply Z.eqb_eq in Hminus; lia|].
    set (text := substring input exprStart exprEnd).
    match goal with
    | |- context [if ?c then _reportError ?m ?i ?e ?x this else this] =>
        set (this' := if c then _reportError m i e x this else this)
    end.
    assert (∃ blank, blankErrors blank ∧
                     this' = mkParser (_lexer this) (parser_errors this ++ blank))
      as (blank & Hblank & Hthis').
    { unfold this'. destruct (_ =? 0).
      - eexists [mkParserError _ _ _ _]. split; [|reflexivity].
        constructor; [reflexivity|constructor].
      - exists []. split; [constructor|]. rewrite app_nil_r. by destruct this. }
    match goal with |- context [splitInterpolationLoop fuel _ _ _ _ _ ?st1 _] =>
      destruct (IH st1 this') as (st' & newErrors & Hloop & Hdone & Hnew) end.
    + apply length_snoc_inv in Hlen as (strings0 & piece & Hstrings & Hlen0).
      split; [split; [|split]|split]; cbn [ss_i ss_offsets ss_expressions ss_strings
                                            ss_extendLastString ss_atInterpolation].
      * lia.
      * rewrite !length_app. simpl. lia.
      * rewrite Hstrings in Hchars |- *. rewrite !fmap_app in *.
        cbn [fmap list_fmap ip_text] in *.
        rewrite chars_interpolated_snoc_both by (by rewrite !length_fmap).
        rewrite chars_interpolated_snoc_string in Hchars by (by rewrite !length_fmap).
        rewrite app_assoc, Hchars.
        apply startsWith_chars in Hstart; [|lia].
        apply startsWith_chars in Hend; [|unfold exprStart in *; lia].
        rewrite <- Hstart, <- Hend. unfold text.
        rewrite chars_of_js_substring by (unfold exprStart in *; lia).
        rewrite !app_assoc, take_take_drop.
        replace (Z.to_nat (ss_i st) + String.length interpStart)%nat
          with (Z.to_nat exprStart) by (unfold exprStart, jsLength; lia).
        rewrite take_take_drop.
        replace (Z.to_nat exprStart + Z.to_nat (exprEnd - exprStart))%nat
          with (Z.to_nat exprEnd) by (unfold exprStart, jsLength in *; lia).
        rewrite take_take_drop. f_equal.
        unfold exprStart, jsLength in *. lia.
      * done.
      * rewrite length_app, Hstrings, length_app. simpl. lia.
    + unfold splitMeasure in *. rewrite Hat in Hfuel.
      cbn [ss_i ss_atInterpolation]. unfold exprStart in *. lia.
    + exists st', (blank ++ newErrors). rewrite Hloop, Hthis'. simpl.
      rewrite app_assoc. split; [done|]. split; [done|]. by apply Forall_app.
  - (* up to the starting delimiter *)
    set (found := indexOf input interpStart (ss_i st)).
    set (i' := if found =? -1 then jsLength input else found).
    assert (ss_i st ≤ i' ≤ jsLength input
            ∧ (i' < jsLength input → startsWith input interpStart i' = true)) as [Hi' Hstart].
    { assert (0 ≤ ss_i st ≤ jsLength input) as Hbounds by lia.
      destruct (indexOf_found input interpStart (ss_i st) found Hbounds eq_refl)
        as [Hnone|(Hge & Hle & Hfound)]; unfold i'.
      - rewrite Hnone. simpl. lia.
      - destruct (found =? -1) eqn:Hminus; [apply Z.eqb_eq in Hminus; lia|].
        unfold jsLength in *. split; [lia|done]. }
    match goal with |- context [splitInterpolationLoop fuel _ _ _ _ _ ?st1 _] =>
      destruct (IH st1 this) as (st' & newErrors & Hloop & Hdone & Hnew) end.
    + split; [split; [|split]|split]; cbn [ss_i ss_offsets ss_expressions ss_strings
                                            ss_extendLastString ss_atInterpolation].
      * lia.
      * done.
      * rewrite fmap_app. simpl.
        rewrite chars_interpolated_snoc_string by (by rewrite !length_fmap).
        rewrite Hchars, chars_of_js_substring by lia.
        rewrite take_take_drop. f_equal. lia.
      * done.
      * rewrite length_app. simpl. split; [lia|done].
    + unfold splitMeasure in *. rewrite Hat in Hfuel. cbn [ss_i ss_atInterpolation]. lia.
    + by exists st', newErrors.
Qed.

End Split.

Lemma chars_of_substringFrom (input : string) (i : Z) :
  0 ≤ i ≤ jsLength input →
  chars_of (substringFrom input i) = drop (Z.to_nat i) (chars_of input).
Proof.
  intros Hi. unfold substringFrom. rewrite chars_of_js_substring by lia.
  apply take_ge. rewrite length_drop, jsLength_chars. lia.
Qed.

Lemma splitInterpolation_parts (this : Parser) (input location : string)
    (interpolatedTokens : option (list InterpolatedToken)) (config : InterpolationConfig) :
  0 < jsLength (ic_start config) + jsLength (ic_end config) →
  ∃ split newErrors,
    splitInterpolation this input location interpolatedTokens config
    = Some (Ok split, mkParser (_lexer this) (parser_errors this ++ newErrors)) ∧
    length (si_strings split) = S (length (si_expressions split)) ∧
    length (si_offsets split) = length (si_expressions split) ∧
    interpolated (ic_start config) (ic_end config) (ip_text <$> si_strings split)
                 (ip_text <$> si_expressions split) = input ∧
    Forall (λ error, message error
                     = "Blank expressions are not allowed in interpolated strings")
           newErrors.
Proof.
  intros Hdelimiters. unfold splitInterpolation.
  destruct (splitInterpolationLoop_spec input location (ic_start config) (ic_end config)
              (getIndexMapForOriginalTemplate <$> interpolatedTokens) Hdelimiters
              (2 * String.length input + 2) (mkSplitState [] [] [] 0 false false) this)
    as (st & newErrors & -> & ((Hi & Hoffsets & Hchars) & Hdone) & Hnew).
  { split; [|done]. split; [unfold jsLength; simpl; lia|done]. }
  { unfold splitMeasure, jsLength. simpl. lia. }
  cbv zeta.
  destruct Hdone as [(Hextend & Hend & Hlen)|(Hextend & Hat & Hlen)].
  - rewrite Hend, jsLength_chars, Nat2Z.id, firstn_all in Hchars.
    destruct (ss_atInterpolation st); simpl.
    + eexists _, newErrors. split; [done|]. simpl.
      split; [done|]. split; [done|]. split; [|done]. by apply chars_of_inj.
    + rewrite Hextend. eexists _, newErrors. split; [done|]. simpl.
      split; [rewrite length_app; simpl; lia|]. split; [done|]. split; [|done].
      apply chars_of_inj. rewrite fmap_app. simpl.
      rewrite chars_interpolated_snoc_string by (by rewrite !length_fmap).
      rewrite Hchars, Hend, chars_of_substringFrom by lia.
      rewrite jsLength_chars, Nat2Z.id, drop_all. apply app_nil_r.
  - rewrite Hat, Hextend. simpl.
    apply length_snoc_inv in Hlen as (strings0 & piece & Hstrings & Hlen0).
    rewrite Hstrings, last_snoc, length_app. simpl.
    replace (length strings0 + 1 - 1)%nat with (length strings0) by lia.
    rewrite take_app_length.
    eexists _, newErrors. split; [done|]. simpl.
    split; [rewrite length_app; simpl; lia|]. split; [done|]. split; [|done].
    apply chars_of_inj. rewrite Hstrings in Hchars. rewrite !fmap_app in *.
    cbn [fmap list_fmap ip_text] in *.
    rewrite chars_interpolated_snoc_string in * by (by rewrite !length_fmap).
    rewrite chars_of_append, app_assoc, Hchars, chars_of_substringFrom by lia.
    apply take_drop.
Qed.

(** X21: when the two delimiters are not both empty, [splitInterpolation]
    returns, with one string more than expressions and one offset for
    each expression.  The strings and the expressions, each expression
    between the delimiters, make up the input again, so the text of an
    interpolation without its end is kept in the last string.  The
    only errors it reports are those for blank expressions. *)
Theorem splitInterpolation_makes_up_the_input (this : Parser) (input location : string)
    (interpolatedTokens : option (list InterpolatedToken)) (config : InterpolationConfig) :
  0 < jsLength (ic_start config) + jsLength (ic_end config) →
  ∃ split newErrors,
    splitInterpolation this input location interpolatedTokens config
    = Some (Ok split, mkParser (_lexer this) (parser_errors this ++ newErrors)) ∧
    length (si_strings split) = S (length (si_expressions split)) ∧
    length (si_offsets split) = length (si_expressions split) ∧
    interpolated (ic_start config) (ic_end config) (ip_text <$> si_strings split)
                 (ip_text <$> si_expressions split) = input ∧
    Forall (λ error, message error
                     = "Blank expressions are not allowed in interpolated strings")
           newErrors.
Proof. apply splitInterpolation_parts. Qed.

Lemma splitInterpolation_makes_up_the_input_witness :
  ∃ split newErrors,
    splitInterpolation (newParser ExampleLexer.lexer) "a {{b}} {{c" "app.html" None
                       DEFAULT_INTERPOLATION_CONFIG
    = Some (Ok split, mkParser ExampleLexer.lexer ([] ++ newErrors)) ∧
    length (si_strings split) = S (length (si_expressions split)) ∧
    length (si_offsets split) = length (si_expressions split) ∧
    interpolated "{{" "}}" (ip_text <$> si_strings split) (ip_text <$> si_expressions split)
    = "a {{b}} {{c" ∧
    Forall (λ error, message error
                     = "Blank expressions are not allowed in interpolated strings")
           newErrors.
Proof.
  apply (splitInterpolation_makes_up_the_input (newParser ExampleLexer.lexer) "a {{b}} {{c"
           "app.html" None DEFAULT_INTERPOLATION_CONFIG).
  vm_compute. reflexivity.
Defined.

(** ** Parsing an interpolated text *)

Lemma parseInterpolationLoop_spec input location absoluteOffset expressions : ∀ offsets this nodes,
  length offsets = length expressions →
  ∃ nodes' newErrors,
    parseInterpolationLoop this input location absoluteOffset expressions offsets nodes
    = Some (nodes ++ nodes', mkParser (_lexer this) (parser_errors this ++ newErrors)) ∧
    length nodes' = length expressions ∧ Forall wfAST nodes'.
Proof.
  induction expressions as [|expression expressions IH]; intros [|offset offsets] this nodes Hlen;
    try done.
  - exists [], []. rewrite !app_nil_r. split; [by destruct this|done].
  - cbn [parseInterpolationLoop]. cbv zeta.
    set (tokens := tokenize (_lexer this) (_stripComments (ip_text expression))).
    set (s := new_ParseAST input location absoluteOffset tokens ParseFlags.None
                (parser_errors this) offset).
    destruct (run_returns true s AST CParseChain (fuelFor tokens))
      as (ast & s' & Hrun & _ & Hwf); [done..|].
    destruct (Frame_appends _ _ _ _ (run_Frame _ AST CParseChain) Hrun)
      as (errs & Herrors & _).
    rewrite Hrun.
    destruct (IH offsets (mkParser (_lexer this) (errors s')) (nodes ++ [ast]))
      as (nodes' & newErrors & -> & Hnodes & Hall); [simpl in Hlen; lia|].
    exists (ast :: nodes'), (errs ++ newErrors). simpl.
    rewrite Herrors, <- !app_assoc. simpl. split; [done|]. split; [by rewrite Hnodes|].
    constructor; [by apply Hwf|done].
Qed.

(** X22: when the two delimiters are not both empty, [parseInterpolation]
    returns: [null] when the input has no complete interpolation, and
    otherwise an interpolation of the whole input with the strings of
    [splitInterpolation], one more than its expressions, which are as
    many as those of [splitInterpolation] and have spans with
    [start <= end].  It only appends to the errors. *)
Theorem parseInterpolation_has_one_more_string (this : Parser) (input location : string)
    (absoluteOffset : Z) (interpolatedTokens : option (list InterpolatedToken))
    (config : InterpolationConfig) :
  0 < jsLength (ic_start config) + jsLength (ic_end config) →
  ∃ split splitParser result newErrors,
    splitInterpolation this input location interpolatedTokens config
    = Some (Ok split, splitParser) ∧
    parseInterpolation this input location absoluteOffset interpolatedTokens config
    = Some (Ok result, mkParser (_lexer this) (parser_errors this ++ newErrors)) ∧
    match result with
    | None => si_expressions split = []
    | Some ast =>
        si_expressions split ≠ [] ∧
        ia_span ast = mkParseSpan 0 (jsLength input) ∧
        ia_strings ast = ip_text <$> si_strings split ∧
        length (ia_expressions ast) = length (si_expressions split) ∧
        length (ia_strings ast) = S (length (ia_expressions ast)) ∧
        Forall wfAST (ia_expressions ast)
    end.
Proof.
  intros Hdelimiters.
  destruct (splitInterpolation_parts this input location interpolatedTokens config
              Hdelimiters) as (split & errs & Hsplit & Hstrings & Hoffsets & _).
  unfold parseInterpolation. rewrite Hsplit.
  exists split, (mkParser (_lexer this) (parser_errors this ++ errs)).
  case_decide as Hnone.
  - exists None, errs. split; [done|]. split; [done|]. by apply nil_length_inv.
  - destruct (parseInterpolationLoop_spec input location absoluteOffset (si_expressions split)
                (si_offsets split) (mkParser (_lexer this) (parser_errors this ++ errs)) [])
      as (nodes & newErrors & -> & Hnodes & Hall); [done|].
    eexists (Some _), (errs ++ newErrors).
    cbn [parser_errors _lexer app ia_span ia_strings ia_expressions
         createInterpolationAst]. rewrite <- app_assoc.
    split; [done|]. split; [done|].
    split; [intros Heq; by rewrite Heq in Hnone|].
    split; [done|]. split; [done|]. split; [done|].
    unfold createInterpolationAst. cbn [ia_strings ia_expressions].
    split; [by rewrite length_fmap, Hnodes|done].
Qed.

Lemma parseInterpolation_has_one_more_string_witness :
  ∃ split splitParser result newErrors,
    splitInterpolation (newParser ExampleLexer.lexer) "a {{b}}" "app.html" None
                       DEFAULT_INTERPOLATION_CONFIG
    = Some (Ok split, splitParser) ∧
    parseInterpolation (newParser ExampleLexer.lexer) "a {{b}}" "app.html" 0 None
                       DEFAULT_INTERPOLATION_CONFIG
    = Some (Ok result, mkParser ExampleLexer.lexer ([] ++ newErrors)) ∧
    match result with
    | None => si_expressions split = []
    | Some ast =>
        si_expressions split ≠ [] ∧
        ia_span ast = mkParseSpan 0 (jsLength "a {{b}}") ∧
        ia_strings ast = ip_text <$> si_strings split ∧
        length (ia_expressions ast) = length (si_expressions split) ∧
        length (ia_strings ast) = S (length (ia_expressions ast)) ∧
        Forall wfAST (ia_expressions ast)
    end.
Proof.
  apply (parseInterpolation_has_one_more_string (newParser ExampleLexer.lexer) "a {{b}}"
           "app.html" 0 None DEFAULT_INTERPOLATION_CONFIG).
  vm_compute. reflexivity.
Defined.

End ParserProperties.
